(** * Legal document analysis pipeline: a shallow embedding

    The three scripts [text_chunking.py], [keyword_extraction.py] and
    [summarization.py] are embedded as Rocq functions.

    - A Python [str] is a [list ascii]; a character is read as the code point
      of the same number (0..255).  The character classes below are the ones
      CPython uses on that range.
    - Python integers are [Z].
    - A raised exception is a value of [result].
    - The regular expressions of the sources are written as [Re.regex] terms
      and run by a backtracking matcher that enumerates matches in the
      priority order of Python's [re] module. *)

From Stdlib Require Import Ascii String.
From Stdlib Require Import List ZArith NArith Lia Bool QArith.
From Stdlib Require Import Sorting.Sorted Sorting.Permutation.
Import ListNotations.

Open Scope Z_scope.

(** ** Python primitives *)

Module Py.

Definition text := list ascii.

Definition str (s : string) : text := list_ascii_of_string s.
Arguments str s%_string.

Definition code (c : ascii) : N := N_of_ascii c.

Definition between (lo hi : N) (c : ascii) : bool :=
  ((lo <=? code c) && (code c <=? hi))%N.

(** [str.isspace], also the class [\s] of [re]. *)
Definition isspace (c : ascii) : bool :=
  between 9 13 c || between 28 32 c || (code c =? 133)%N || (code c =? 160)%N.

(** The class [\d] of [re]. *)
Definition isdigit (c : ascii) : bool := between 48 57 c.

(** The class [[a-zA-Z]]. *)
Definition isalpha_ascii (c : ascii) : bool := between 65 90 c || between 97 122 c.

(** The class [\w] of [re] on code points 0..255. *)
Definition isword (c : ascii) : bool :=
  isdigit c || isalpha_ascii c || (code c =? 95)%N
  || (code c =? 170)%N || (code c =? 178)%N || (code c =? 179)%N
  || (code c =? 181)%N || (code c =? 185)%N || (code c =? 186)%N
  || between 188 190 c || between 192 214 c || between 216 246 c
  || between 248 255 c.

(** [str.lower] on one character. *)
Definition lower_char (c : ascii) : ascii :=
  if between 65 90 c || between 192 214 c || between 216 222 c
  then ascii_of_N (code c + 32) else c.

Definition lower (s : text) : text := map lower_char s.

Fixpoint text_eqb (a b : text) : bool :=
  match a, b with
  | [], [] => true
  | x :: a', y :: b' => Ascii.eqb x y && text_eqb a' b'
  | _, _ => false
  end.

(** [x in l] for a list (or set) of strings. *)
Definition mem (x : text) (l : list text) : bool := existsb (text_eqb x) l.

Definition len {A} (l : list A) : Z := Z.of_nat (length l).

(** Truth value of a string or list: non-empty. *)
Definition truthy {A} (l : list A) : bool :=
  match l with [] => false | _ => true end.

(** [sep.join(l)] *)
Fixpoint join (sep : text) (l : list text) : text :=
  match l with
  | [] => []
  | [x] => x
  | x :: r => x ++ sep ++ join sep r
  end.

Fixpoint lstrip (s : text) : text :=
  match s with
  | [] => []
  | c :: r => if isspace c then lstrip r else s
  end.

Definition rstrip (s : text) : text := rev (lstrip (rev s)).

(** [s.strip()] *)
Definition strip (s : text) : text := lstrip (rstrip s).

Definition cons_word (w : text) (ws : list text) : list text :=
  match w with [] => ws | _ => w :: ws end.

(** [split_go s] is the word in progress at the head of [s] and the
    completed words after it. *)
Fixpoint split_go (s : text) : text * list text :=
  match s with
  | [] => ([], [])
  | c :: r =>
      let '(w, ws) := split_go r in
      if isspace c then ([], cons_word w ws) else (c :: w, ws)
  end.

(** [s.split()]: the maximal runs of non-whitespace characters. *)
Definition split (s : text) : list text :=
  let '(w, ws) := split_go s in cons_word w ws.

(** A slice bound clamped as CPython does: a negative bound counts from the
    end. *)
Definition clamp (n i : Z) : Z :=
  if i <? 0 then Z.max (i + n) 0 else Z.min i n.

(** [l[i:j]] *)
Definition slice {A} (l : list A) (i j : Z) : list A :=
  let i' := clamp (len l) i in
  let j' := clamp (len l) j in
  firstn (Z.to_nat (j' - i')) (skipn (Z.to_nat i') l).

(** [l[:j]] *)
Definition slice_to {A} (l : list A) (j : Z) : list A := slice l 0 j.

(** Number of items of [range(start, stop, step)], [step <> 0]. *)
Definition range_len (start stop step : Z) : nat :=
  if (0 <? step) && (start <? stop) then Z.to_nat ((stop - start - 1) / step + 1)
  else if (step <? 0) && (stop <? start) then Z.to_nat ((start - stop - 1) / (- step) + 1)
  else 0%nat.

(** [range(start, stop, step)]; [None] is the [ValueError] of a zero step. *)
Definition range (start stop step : Z) : option (list Z) :=
  if step =? 0 then None
  else Some (map (fun k => start + Z.of_nat k * step) (seq 0 (range_len start stop step))).

Inductive exn : Type :=
| ValueError (msg : text)
| ZeroDivisionError.

Inductive result (A : Type) : Type :=
| Ok (a : A)
| Raise (e : exn).
Arguments Ok {A} a.
Arguments Raise {A} e.

(** [list.sort(key=key, reverse=True)] is stable and descending by key:
    an element goes before the first later element whose key is not
    greater. *)
Section Sort.
Context {A : Type} (key : A -> Z).

Fixpoint insert_desc (x : A) (l : list A) : list A :=
  match l with
  | [] => [x]
  | y :: r => if key x <? key y then y :: insert_desc x r else x :: l
  end.

Definition sort_desc (l : list A) : list A := fold_right insert_desc [] l.

(** [list.sort(key=key)]: stable, ascending by key. *)
Fixpoint insert_asc (x : A) (l : list A) : list A :=
  match l with
  | [] => [x]
  | y :: r => if key y <? key x then y :: insert_asc x r else x :: l
  end.

Definition sort_asc (l : list A) : list A := fold_right insert_asc [] l.
End Sort.

End Py.

(** ** Regular expressions *)

Module Re.
Import Py.

Inductive regex : Type :=
| Eps
| Chr (p : ascii -> bool)     (* one character of a class *)
| Seq (r1 r2 : regex)
| Alt (r1 r2 : regex)         (* r1|r2, r1 tried first *)
| Star (r : regex)            (* r*, greedy *)
| Bound                       (* \b *)
| Eos                         (* $ *)
| Group (r : regex).          (* (r), the capturing group *)

Definition Plus (r : regex) : regex := Seq r (Star r).
Definition Opt (r : regex) : regex := Alt r Eps.

Fixpoint seqs (rs : list regex) : regex :=
  match rs with
  | [] => Eps
  | [r] => r
  | r :: rs' => Seq r (seqs rs')
  end.

Fixpoint alts (rs : list regex) : regex :=
  match rs with
  | [] => Chr (fun _ => false)
  | [r] => r
  | r :: rs' => Alt r (alts rs')
  end.

(** A literal string, and the same under [re.IGNORECASE]. *)
Definition lit (s : string) : regex :=
  seqs (map (fun x => Chr (Ascii.eqb x)) (str s)).
Arguments lit s%_string.

Definition lit_ci (s : string) : regex :=
  seqs (map (fun x => Chr (fun c => Ascii.eqb (lower_char c) (lower_char x))) (str s)).
Arguments lit_ci s%_string.

Fixpoint has_group (r : regex) : bool :=
  match r with
  | Group _ => true
  | Seq r1 r2 | Alt r1 r2 => has_group r1 || has_group r2
  | Star r1 => has_group r1
  | _ => false
  end.

(** A position in the subject: the character before it and what follows. *)
Record cursor : Type := { before : option ascii; rest : text }.

Definition word_before (c : cursor) : bool :=
  match before c with Some a => isword a | None => false end.

Definition word_after (c : cursor) : bool :=
  match rest c with a :: _ => isword a | [] => false end.

Definition at_boundary (c : cursor) : bool :=
  negb (Bool.eqb (word_before c) (word_after c)).

(** [$]: at the end, or before a newline that ends the subject. *)
Definition at_end (c : cursor) : bool :=
  match rest c with
  | [] => true
  | [a] => (code a =? 10)%N
  | _ => false
  end.

Definition later {A} (g2 g1 : option A) : option A :=
  match g2 with Some _ => g2 | None => g1 end.

(** All the ways [r] matches at [c], best first: the cursor after the match
    and the text of the capturing group when it took part. *)
Fixpoint run (r : regex) (c : cursor) : list (cursor * option text) :=
  match r with
  | Eps => [(c, None)]
  | Chr p =>
      match rest c with
      | a :: t => if p a then [({| before := Some a; rest := t |}, None)] else []
      | [] => []
      end
  | Seq r1 r2 =>
      flat_map (fun m1 =>
        map (fun m2 => (fst m2, later (snd m2) (snd m1))) (run r2 (fst m1)))
        (run r1 c)
  | Alt r1 r2 => run r1 c ++ run r2 c
  | Star r1 =>
      (fix iter (fuel : nat) (c : cursor) : list (cursor * option text) :=
         match fuel with
         | O => [(c, None)]
         | S k =>
             flat_map (fun m1 =>
               if (length (rest (fst m1)) <? length (rest c))%nat
               then map (fun m2 => (fst m2, later (snd m2) (snd m1))) (iter k (fst m1))
               else [])
               (run r1 c)
             ++ [(c, None)]
         end) (length (rest c)) c
  | Bound => if at_boundary c then [(c, None)] else []
  | Eos => if at_end c then [(c, None)] else []
  | Group r1 =>
      map (fun m1 =>
        (fst m1, Some (firstn (length (rest c) - length (rest (fst m1))) (rest c))))
        (run r1 c)
  end.

(** The match Python finds at a position: the first in priority order. *)
Definition match_at (r : regex) (c : cursor) : option (cursor * option text) :=
  hd_error (run r c).

(** The subject cut into the characters no match covers and the matches, as
    the scanner of [re] finds them from left to right.  Every pattern of the
    program consumes at least one character; a match of no character is not
    a hit here. *)
Inductive piece : Type :=
| Lit (c : ascii)
| Hit (whole : text) (grp : option text).

Fixpoint scan (r : regex) (skip : nat) (prev : option ascii) (s : text) : list piece :=
  match s with
  | [] => []
  | a :: t =>
      match skip with
      | S k => scan r k (Some a) t
      | O =>
          match match_at r {| before := prev; rest := s |} with
          | Some (c1, g) =>
              match (length s - length (rest c1))%nat with
              | O => Lit a :: scan r 0 (Some a) t
              | S k => Hit (firstn (S k) s) g :: scan r k (Some a) t
              end
          | None => Lit a :: scan r 0 (Some a) t
          end
      end
  end.

Definition pieces (r : regex) (s : text) : list piece := scan r 0 None s.

(** [re.findall(r, s)]: with a capturing group in the pattern, the group's
    text of every match; without one, every match. *)
Definition findall (r : regex) (s : text) : list text :=
  flat_map (fun p =>
    match p with
    | Lit _ => []
    | Hit whole grp =>
        if has_group r then [match grp with Some g => g | None => [] end]
        else [whole]
    end) (pieces r s).

Fixpoint split_go (ps : list piece) : text * list text :=
  match ps with
  | [] => ([], [])
  | Lit a :: r => let '(w, ws) := split_go r in (a :: w, ws)
  | Hit _ _ :: r => let '(w, ws) := split_go r in ([], w :: ws)
  end.

(** [re.split(r, s)], for a pattern without a group. *)
Definition split (r : regex) (s : text) : list text :=
  let '(w, ws) := split_go (pieces r s) in w :: ws.

(** [re.sub(r, repl, s)], for a replacement without escapes. *)
Definition sub (r : regex) (repl : text) (s : text) : text :=
  flat_map (fun p => match p with Lit a => [a] | Hit _ _ => repl end) (pieces r s).

Fixpoint search_from (r : regex) (prev : option ascii) (s : text) : bool :=
  match match_at r {| before := prev; rest := s |} with
  | Some _ => true
  | None =>
      match s with
      | [] => false
      | a :: t => search_from r (Some a) t
      end
  end.

(** Truth value of [re.search(r, s)]. *)
Definition search (r : regex) (s : text) : bool := search_from r None s.

(** The terminator class [[.!?]] and the patterns built on it. *)
Definition isterm (c : ascii) : bool :=
  (code c =? 46)%N || (code c =? 33)%N || (code c =? 63)%N.

(** [[.!?]+] *)
Definition terminators : regex := Plus (Chr isterm).

(** [[.!?]+$] *)
Definition trailing_terminators : regex := Seq (Plus (Chr isterm)) Eos.

(** [\n\s*\n] *)
Definition blank_line : regex :=
  seqs [Chr (fun c => (code c =? 10)%N); Star (Chr isspace); Chr (fun c => (code c =? 10)%N)].

(** [\s+] *)
Definition whitespace : regex := Plus (Chr isspace).

(** [re.sub(r, f, s)] for a function [f] of the match: [f] is given the
    match and the text of its group. *)
Definition sub_with (r : regex) (f : text -> option text -> text) (s : text) : text :=
  flat_map (fun p => match p with Lit a => [a] | Hit whole grp => f whole grp end)
           (pieces r s).

End Re.

(** ** text_chunking.py *)

Module TextChunking.
Import Py Re.

Record Chunk : Type := {
  id : Z;
  content : text;
  word_count : Z;
  sentence_count : Z;
  paragraph_count : option Z;
  start_index : Z;
  end_index : Z
}.

Record TextChunker : Type := {
  chunk_size : Z;
  overlap : Z;
  method : text
}.

(** The body shared by the three loops
    [for i in range(0, len(units), self.chunk_size - self.overlap)]:
    [emit chunks i window] is the chunk appended for the window at [i], or
    [None] when its content strips to nothing. *)
Definition windows {U : Type} (self : TextChunker) (units : list U)
    (emit : list Chunk -> Z -> list U -> option Chunk) : result (list Chunk) :=
  match range 0 (len units) (chunk_size self - overlap self) with
  | None => Raise (ValueError (str "range() arg 3 must not be zero"))
  | Some idxs =>
      Ok (fold_left (fun chunks i =>
            match emit chunks i (slice units i (i + chunk_size self)) with
            | Some c => chunks ++ [c]
            | None => chunks
            end) idxs [])
  end.

Definition chunk_by_words (self : TextChunker) (t : text) : result (list Chunk) :=
  let words := Py.split t in
  windows self words (fun chunks i chunk_words =>
    let content := join (str " ") chunk_words in
    if truthy (strip content) then
      Some {| id := len chunks + 1;
              content := strip content;
              word_count := len chunk_words;
              sentence_count := len (Re.split terminators content);
              paragraph_count := None;
              start_index := i;
              end_index := i + len chunk_words |}
    else None).

(** [[s.strip() for s in l if s.strip()]] *)
Definition stripped (l : list text) : list text :=
  map strip (filter (fun s => truthy (strip s)) l).

Definition chunk_by_sentences (self : TextChunker) (t : text) : result (list Chunk) :=
  let sentences := stripped (Re.split terminators t) in
  windows self sentences (fun chunks i chunk_sentences =>
    let content := join (str ". ") chunk_sentences ++ str "." in
    if truthy (strip content) then
      Some {| id := len chunks + 1;
              content := strip content;
              word_count := len (Py.split content);
              sentence_count := len chunk_sentences;
              paragraph_count := None;
              start_index := i;
              end_index := i + len chunk_sentences |}
    else None).

Definition newline2 : text := [ascii_of_N 10; ascii_of_N 10].

Definition chunk_by_paragraphs (self : TextChunker) (t : text) : result (list Chunk) :=
  let paragraphs := stripped (Re.split blank_line t) in
  windows self paragraphs (fun chunks i chunk_paragraphs =>
    let content := join newline2 chunk_paragraphs in
    if truthy (strip content) then
      Some {| id := len chunks + 1;
              content := strip content;
              word_count := len (Py.split content);
              sentence_count := len (Re.split terminators content);
              paragraph_count := Some (len chunk_paragraphs);
              start_index := i;
              end_index := i + len chunk_paragraphs |}
    else None).

Definition process_document (self : TextChunker) (t : text) : result (list Chunk) :=
  if text_eqb (method self) (str "words") then chunk_by_words self t
  else if text_eqb (method self) (str "sentences") then chunk_by_sentences self t
  else if text_eqb (method self) (str "paragraphs") then chunk_by_paragraphs self t
  else Raise (ValueError (str "Unknown chunking method: " ++ method self)).

(** The units the configured method cuts the text into. *)
Definition units (m : text) (t : text) : list text :=
  if text_eqb m (str "words") then Py.split t
  else if text_eqb m (str "sentences") then stripped (Re.split terminators t)
  else stripped (Re.split blank_line t).

End TextChunking.

(** ** keyword_extraction.py *)

Module KeywordExtraction.
Import Py Re.

Record Keyword : Type := {
  term : text;
  frequency : Z;
  category : text;
  score : Z
}.

(** [self.legal_categories], in declaration order. *)
Definition legal_categories : list (text * list text) :=
  [ (str "contract_terms",
     map str ["agreement"; "contract"; "covenant"; "provision"; "clause";
              "term"; "condition"; "stipulation"; "arrangement"; "understanding"]%string);
    (str "parties",
     map str ["party"; "parties"; "plaintiff"; "defendant"; "appellant";
              "appellee"; "petitioner"; "respondent"; "landlord"; "tenant";
              "lessor"; "lessee"; "grantor"; "grantee"; "buyer"; "seller";
              "vendor"; "purchaser"; "client"; "customer"]%string);
    (str "legal_actions",
     map str ["shall"; "must"; "may"; "will"; "should"; "agree"; "covenant";
              "warrant"; "represent"; "acknowledge"; "consent"; "waive";
              "release"; "indemnify"; "defend"; "enforce"; "terminate";
              "breach"; "default"; "violate"; "comply"; "perform"]%string);
    (str "financial_terms",
     map str ["payment"; "fee"; "cost"; "expense"; "price"; "amount";
              "consideration"; "compensation"; "damages"; "penalty";
              "interest"; "rent"; "deposit"; "refund"; "reimbursement";
              "liability"; "obligation"; "debt"; "credit"; "installment"]%string);
    (str "temporal_terms",
     map str ["date"; "time"; "period"; "term"; "duration"; "deadline";
              "expiration"; "commencement"; "termination"; "renewal";
              "extension"; "notice"; "day"; "week"; "month"; "year";
              "annual"; "monthly"; "quarterly"; "immediate"; "upon"]%string);
    (str "property_terms",
     map str ["property"; "premises"; "land"; "building"; "structure";
              "real estate"; "personal property"; "asset"; "title";
              "ownership"; "possession"; "use"; "occupancy"; "access";
              "easement"; "right of way"; "boundary"; "lot"; "parcel"]%string) ].

Definition stop_words : list text :=
  map str ["the"; "a"; "an"; "and"; "or"; "but"; "in"; "on"; "at"; "to";
           "for"; "of"; "with"; "by"; "is"; "are"; "was"; "were"; "be";
           "been"; "being"; "have"; "has"; "had"; "do"; "does"; "did";
           "will"; "would"; "could"; "should"; "may"; "might"; "can";
           "this"; "that"; "these"; "those"; "i"; "you"; "he"; "she";
           "it"; "we"; "they"; "me"; "him"; "her"; "us"; "them"]%string.

Fixpoint first_category (cats : list (text * list text)) (w : text) : text :=
  match cats with
  | [] => str "general"
  | (category, terms) :: cats' =>
      if mem w terms then category else first_category cats' w
  end.

Definition categorize_word (word : text) : text :=
  first_category legal_categories (lower word).

(** [collections.Counter]: a dict, so the keys stay in the order of their
    first insertion. *)
Fixpoint count_up (w : text) (c : list (text * Z)) : list (text * Z) :=
  match c with
  | [] => [(w, 1)]
  | (k, n) :: c' => if text_eqb k w then (k, n + 1) :: c' else (k, n) :: count_up w c'
  end.

Definition Counter (ws : list text) : list (text * Z) :=
  fold_left (fun c w => count_up w c) ws [].

(** [\b[a-zA-Z]+\b] *)
Definition word_pattern : regex := seqs [Bound; Plus (Chr isalpha_ascii); Bound].

Definition filtered_words (t : text) : list text :=
  filter (fun word => negb (mem word stop_words) && (2 <? len word))
         (findall word_pattern (lower t)).

Definition make_keyword (wf : text * Z) : Keyword :=
  let category := categorize_word (fst wf) in
  {| term := fst wf;
     frequency := snd wf;
     category := category;
     score := snd wf * (if negb (text_eqb category (str "general")) then 2 else 1) |}.

(** The list [keywords] before it is sorted. *)
Definition scored_keywords (t : text) (min_freq : Z) : list Keyword :=
  let word_freq := Counter (filtered_words t) in
  let frequent_words := filter (fun wf => min_freq <=? snd wf) word_freq in
  map make_keyword frequent_words.

Definition extract_statistical_keywords (t : text) (min_freq max_keywords : Z)
    : list Keyword :=
  slice_to (sort_desc score (scored_keywords t min_freq)) max_keywords.

(** The six patterns of [extract_key_phrases]:
    [\b(t1|t2|...)\b[^.!?]*[.!?]], compiled with [re.IGNORECASE]. *)
Definition clause (triggers : list string) : regex :=
  seqs [Bound; Group (alts (map lit_ci triggers)); Bound;
        Star (Chr (fun c => negb (isterm c))); Chr isterm].

Definition patterns : list regex :=
  [ clause ["subject to"; "in accordance with"; "pursuant to"; "with respect to";
            "in the event of"; "provided that"; "notwithstanding";
            "for the purpose of"]%string;
    clause ["the parties agree"; "it is agreed"; "the tenant shall";
            "the landlord shall"; "this agreement"; "the term of";
            "in consideration of"]%string;
    clause ["shall be responsible for"; "shall maintain"; "shall provide";
            "shall pay"; "shall deliver"; "shall perform"; "shall comply with"]%string;
    clause ["if and only if"; "unless and until"; "in the event that";
            "on condition that"; "provided however"]%string;
    clause ["may be terminated"; "shall terminate"; "upon termination";
            "in case of termination"; "termination shall"]%string;
    clause ["written notice"; "notice shall be"; "upon receipt of notice";
            "notice is hereby given"]%string ].

(** [list(dict.fromkeys(l))]: the first occurrence of each string, in order. *)
Fixpoint unique_go (seen : list text) (l : list text) : list text :=
  match l with
  | [] => []
  | x :: r => if mem x seen then unique_go seen r else x :: unique_go (x :: seen) r
  end.

Definition unique (l : list text) : list text := unique_go [] l.

(** The phrases one pattern contributes. *)
Definition phrases_of (pattern : regex) (t : text) : list text :=
  flat_map (fun m =>
    let cleaned_phrase := Re.sub trailing_terminators [] (strip m) in
    if (20 <=? len cleaned_phrase) && (len cleaned_phrase <=? 200)
    then [cleaned_phrase] else [])
    (findall pattern t).

Definition extract_key_phrases (t : text) (max_phrases : Z) : list text :=
  let phrases := flat_map (fun pattern => phrases_of pattern t) patterns in
  slice_to (unique phrases) max_phrases.

(** [\b(WHEREAS|NOW THEREFORE|IN WITNESS WHEREOF)\b] *)
Definition boilerplate : regex :=
  seqs [Bound;
        Group (alts [lit "WHEREAS"; lit "NOW THEREFORE"; lit "IN WITNESS WHEREOF"]);
        Bound].

(** [lambda m: m.group(1).lower()]; the group takes part in every match of
    [boilerplate]. *)
Definition lower_group (whole : text) (grp : option text) : text :=
  match grp with Some g => lower g | None => [] end.

Definition preprocess_text (t : text) : text :=
  let t := Re.sub whitespace (str " ") t in
  let t := Re.sub_with boilerplate lower_group t in
  strip t.

(** An entity as the NER pipeline returns it, and as the extractor does. *)
Record PipelineEntity : Type := {
  word : text;
  entity_group : text;
  entity_score : Q             (* the key 'score' *)
}.

Record NamedEntity : Type := {
  entity_text : text;          (* the key 'text' *)
  label : text;
  confidence : Q
}.

(** The external NER pipeline, called as [self.ner_pipeline(chunk)];
    [None] when the call raises. *)
Definition ner : Type := text -> option (list PipelineEntity).

Record LegalKeywordExtractor : Type := {
  model_name : text;
  ner_pipeline : option ner
}.

(** The loop [for chunk in chunks: all_entities.extend(...)]. *)
Fixpoint all_entities (p : ner) (chunks : list text) : option (list PipelineEntity) :=
  match chunks with
  | [] => Some []
  | chunk :: r =>
      match p chunk with
      | None => None
      | Some entities =>
          match all_entities p r with
          | None => None
          | Some es => Some (entities ++ es)
          end
      end
  end.

(** The loop that filters and deduplicates, [seen] being the set so far. *)
Fixpoint filter_entities (seen : list text) (es : list PipelineEntity)
    : list NamedEntity :=
  match es with
  | [] => []
  | entity :: r =>
      let entity_text := lower (word entity) in
      if negb (mem entity_text seen) && (2 <? len entity_text) then
        {| entity_text := word entity;
           label := entity_group entity;
           confidence := entity_score entity |}
        :: filter_entities (entity_text :: seen) r
      else filter_entities seen r
  end.

(** The list [chunks]: the words in windows of [max_length], each joined
    by spaces. *)
Definition ner_chunks (t : text) : option (list text) :=
  let max_length := 512 in
  let words := Py.split t in
  match range 0 (len words) max_length with
  | None => None
  | Some idxs =>
      Some (map (fun i => join (str " ") (slice words i (i + max_length))) idxs)
  end.

Definition extract_named_entities (self : LegalKeywordExtractor) (t : text)
    : list NamedEntity :=
  match ner_pipeline self with
  | None => []
  | Some p =>
      match ner_chunks t with
      | None => []
      | Some chunks =>
          match all_entities p chunks with
          | None => []
          | Some es => filter_entities [] es
          end
      end
  end.

Record Statistics : Type := {
  total_words : Z;
  unique_keywords : Z;
  total_phrases : Z;
  total_entities : Z;
  category_distribution : list (text * Z)
}.

Record ExtractionResult : Type := {
  keywords : list Keyword;
  key_phrases : list text;
  named_entities : list NamedEntity;
  statistics : Statistics
}.

Definition extract_all_keywords (self : LegalKeywordExtractor) (t : text)
    : ExtractionResult :=
  let processed_text := preprocess_text t in
  let keywords := extract_statistical_keywords processed_text 2 50 in
  let phrases := extract_key_phrases processed_text 20 in
  let entities := extract_named_entities self processed_text in
  let word_count := len (Py.split processed_text) in
  let unique_keywords := len (unique (map term keywords)) in
  let category_counts :=
    fold_left (fun counts keyword => count_up (category keyword) counts) keywords [] in
  {| keywords := keywords;
     key_phrases := phrases;
     named_entities := entities;
     statistics :=
       {| total_words := word_count;
          unique_keywords := unique_keywords;
          total_phrases := len phrases;
          total_entities := len entities;
          category_distribution := category_counts |} |}.

End KeywordExtraction.

(** ** summarization.py *)

Module Summarization.
Import Py Re.

(** The external summarization pipeline, called as
    [self.summarizer(chunk, max_length=m, min_length=n, do_sample=False)];
    the result is [summary[0]['summary_text']], or [None] when the call or
    the lookup raises. *)
Definition pipeline : Type := text -> Z -> Z -> option text.

Record LegalDocumentSummarizer : Type := {
  model_name : text;
  max_length : Z;
  summarizer : option pipeline
}.

(** The assignment [self.max_length = m]. *)
Definition set_max_length (self : LegalDocumentSummarizer) (m : Z)
    : LegalDocumentSummarizer :=
  {| model_name := model_name self; max_length := m; summarizer := summarizer self |}.

Record SummaryResult : Type := {
  summary : text;
  summary_type : text;
  length_ : text;              (* the key 'length' *)
  original_words : Z;
  summary_words : Z;
  compression_ratio : Q;       (* the rational the Python float rounds *)
  sentences : Z
}.

(** [\s+] *)
Definition spaces : regex := Plus (Chr isspace).

(** [\b\d+\s+(U\.S\.)\s+\d+] *)
Definition us_citation : regex :=
  seqs [Bound; Plus (Chr isdigit); spaces; Group (lit "U.S."); spaces; Plus (Chr isdigit)].

(** [\b\d+\s+(F\.\d+d?)\s+\d+] *)
Definition f_citation : regex :=
  seqs [Bound; Plus (Chr isdigit); spaces;
        Group (seqs [lit "F."; Plus (Chr isdigit); Opt (lit "d")]);
        spaces; Plus (Chr isdigit)].

(** [\bw\b] for a literal [w]. *)
Definition whole_word (w : string) : regex := seqs [Bound; lit w; Bound].
Arguments whole_word w%_string.

Definition preprocess_legal_text (t : text) : text :=
  let t := Re.sub spaces (str " ") t in
  let t := Re.sub us_citation (str "[CITATION]") t in
  let t := Re.sub f_citation (str "[CITATION]") t in
  let t := Re.sub (whole_word "WHEREAS") (str "Given that") t in
  let t := Re.sub (whole_word "NOW, THEREFORE") (str "Therefore") t in
  let t := Re.sub (whole_word "IN WITNESS WHEREOF") (str "In confirmation") t in
  strip t.

Definition legal_keywords : list text :=
  map str ["agreement"; "contract"; "party"; "parties"; "term"; "condition";
           "obligation"; "right"; "liability"; "breach"; "termination";
           "payment"; "consideration"; "whereas"; "therefore"; "shall";
           "landlord"; "tenant"; "lease"; "property"; "premises"]%string.

(** [\b(this agreement|the parties|it is agreed|subject to)\b] *)
Definition salient_phrase : regex :=
  seqs [Bound;
        Group (alts [lit "this agreement"; lit "the parties"; lit "it is agreed";
                     lit "subject to"]);
        Bound].

(** [\b\d+\b] *)
Definition number : regex := seqs [Bound; Plus (Chr isdigit); Bound].

Definition sentence_score (sentence : text) : Z :=
  let words := Py.split (lower sentence) in
  let score := len (filter (fun word => mem word legal_keywords) words) in
  let score := if search salient_phrase (lower sentence) then score + 2 else score in
  let score := if search number sentence then score + 1 else score in
  score.

(** [[s.strip() for s in sentences if s.strip() and len(s.strip()) > 20]] *)
Definition long_sentences (t : text) : list text :=
  map strip
    (filter (fun s => truthy (strip s) && (20 <? len (strip s)))
            (Re.split terminators t)).

(** [enumerate], from index [i]. *)
Fixpoint enumerate_from {A} (i : Z) (l : list A) : list (Z * A) :=
  match l with
  | [] => []
  | x :: r => (i, x) :: enumerate_from (i + 1) r
  end.

(** The triples [(sentence, score, i)]. *)
Definition scored := (text * Z * Z)%type.
Definition sc_sentence (x : scored) : text := fst (fst x).
Definition sc_score (x : scored) : Z := snd (fst x).
Definition sc_index (x : scored) : Z := snd x.

Definition sentence_scores (sentences : list text) : list scored :=
  map (fun p => (snd p, sentence_score (snd p), fst p)) (enumerate_from 0 sentences).

(** [selected_sentences] after the sort by original order. *)
Definition selected_sentences (sentences : list text) (num_sentences : Z) : list scored :=
  let by_score := sort_desc sc_score (sentence_scores sentences) in
  let selected := slice_to by_score num_sentences in
  sort_asc sc_index selected.

Definition extractive_summarization (t : text) (num_sentences : Z) : text :=
  let sentences := long_sentences t in
  if len sentences <=? num_sentences then
    join (str ". ") sentences ++ str "."
  else
    join (str ". ") (map sc_sentence (selected_sentences sentences num_sentences))
      ++ str ".".

(** The loop over [chunks] in the [try] block; [None] when a call raises. *)
Fixpoint summarize_chunks (p : pipeline) (max_len : Z) (chunks : list text)
    : option (list text) :=
  match chunks with
  | [] => Some []
  | chunk :: r =>
      if 50 <? len (strip chunk) then
        match p chunk max_len 30 with
        | None => None
        | Some s =>
            match summarize_chunks p max_len r with
            | None => None
            | Some ss => Some (s :: ss)
            end
        end
      else summarize_chunks p max_len r
  end.

(** The [try] block of [abstractive_summarization]; [None] when it raises. *)
Definition abstractive_try (self : LegalDocumentSummarizer) (p : pipeline) (t : text)
    : option text :=
  let max_chunk_length := 1024 in
  let words := Py.split t in
  match range 0 (len words) max_chunk_length with
  | None => None
  | Some idxs =>
      let chunks := map (fun i => join (str " ") (slice words i (i + max_chunk_length))) idxs in
      match summarize_chunks p (max_length self) chunks with
      | None => None
      | Some chunk_summaries =>
          if 1 <? len chunk_summaries then
            let combined_summary := join (str " ") chunk_summaries in
            if max_length self <? len (Py.split combined_summary) then
              p combined_summary (max_length self) 50
            else Some combined_summary
          else
            match chunk_summaries with
            | s :: _ => Some s
            | [] => Some (str "Unable to generate summary.")
            end
      end
  end.

Definition abstractive_summarization (self : LegalDocumentSummarizer) (t : text) : text :=
  match summarizer self with
  | None => extractive_summarization t 5
  | Some p =>
      match abstractive_try self p t with
      | Some s => s
      | None => extractive_summarization t 5
      end
  end.

(** [generate_summary] returns the result, or raises, and leaves the object
    in the second component. *)
Definition generate_summary (self : LegalDocumentSummarizer) (t : text)
    (summary_type length : text)
    : result SummaryResult * LegalDocumentSummarizer :=
  let processed_text := preprocess_legal_text t in
  let '(num_sentences, max_length') :=
    if text_eqb length (str "short") then (3, 80)
    else if text_eqb length (str "medium") then (5, 150)
    else (8, 250) in
  let '(summary, self) :=
    if text_eqb summary_type (str "extractive") then
      (extractive_summarization processed_text num_sentences, self)
    else
      let original_max_length := max_length self in
      let self := set_max_length self max_length' in
      let summary := abstractive_summarization self processed_text in
      let self := set_max_length self original_max_length in
      (summary, self) in
  let original_words := len (Py.split t) in
  let summary_words := len (Py.split summary) in
  if original_words =? 0 then (Raise ZeroDivisionError, self)
  else
    (Ok {| summary := summary;
           summary_type := summary_type;
           length_ := length;
           original_words := original_words;
           summary_words := summary_words;
           compression_ratio :=
             (inject_Z (original_words - summary_words) / inject_Z original_words
              * inject_Z 100)%Q;
           sentences := len (Re.split terminators summary) |},
     self).

End Summarization.

(** ** Vocabulary of the statements *)

Import Py Re.

(** An empty or all-whitespace text. *)
Definition blank (t : text) : Prop := forallb isspace t = true.

(** A text with a character that is not whitespace. *)
Definition inked (t : text) : Prop := exists c, In c t /\ isspace c = false.

(** The three methods [process_document] knows. *)
Definition known_method (m : text) : bool :=
  mem m [str "words"; str "sentences"; str "paragraphs"].

(** The text a chunk of the method [m] is built from its units. *)
Definition joined (m : text) (us : list text) : text :=
  if text_eqb m (str "words") then join (str " ") us
  else if text_eqb m (str "sentences") then join (str ". ") us ++ str "."
  else join TextChunking.newline2 us.

(** A word: not empty and without whitespace. *)
Definition solid (w : text) : Prop :=
  w <> [] /\ forallb (fun c => negb (isspace c)) w = true.

(** The field of a chunk that counts its units, for the method [m]. *)
Definition unit_count (m : text) (c : TextChunking.Chunk) : option Z :=
  if text_eqb m (str "words") then Some (TextChunking.word_count c)
  else if text_eqb m (str "sentences") then Some (TextChunking.sentence_count c)
  else TextChunking.paragraph_count c.

(** Position of the first occurrence of [x] in [ws]. *)
Fixpoint first_index (x : text) (ws : list text) : nat :=
  match ws with
  | [] => 0
  | w :: r => if text_eqb w x then 0 else S (first_index x r)
  end.

(** [ahead key R a b]: [a] has the greater key, or the same key and comes
    first in the order [R]. *)
Definition ahead {A} (key : A -> Z) (R : A -> A -> Prop) (a b : A) : Prop :=
  key a > key b \/ (key a = key b /\ R a b).

(** [width r n]: a match of [r] consumes at most [n] characters. *)
Definition width (r : regex) (n : nat) : Prop :=
  forall c m, In m (run r c) -> (length (rest c) <= length (rest (fst m)) + n)%nat.

(** [only P r]: every character class of [r] lies within [P]. *)
Fixpoint only (P : ascii -> Prop) (r : regex) : Prop :=
  match r with
  | Chr p => forall a, p a = true -> P a
  | Seq r1 r2 | Alt r1 r2 => only P r1 /\ only P r2
  | Star r1 | Group r1 => only P r1
  | _ => True
  end.

(** Number of occurrences of [x] in [ws]. *)
Definition occurrences (x : text) (ws : list text) : Z :=
  len (filter (text_eqb x) ws).

(** The value a count holds for [x], 0 without one. *)
Fixpoint count_of (x : text) (c : list (text * Z)) : Z :=
  match c with
  | [] => 0
  | (k, n) :: c' => if text_eqb k x then n else count_of x c'
  end.

(** Sum of the values of a count. *)
Definition total (c : list (text * Z)) : Z := fold_right Z.add 0 (map snd c).

(** The list [chunks] of [abstractive_summarization]: the words in windows
    of 1024, each joined by spaces. *)
Definition summary_chunks (t : text) : option (list text) :=
  match range 0 (len (Py.split t)) 1024 with
  | None => None
  | Some idxs =>
      Some (map (fun i => join (str " ") (slice (Py.split t) i (i + 1024))) idxs)
  end.

(** What the [try] block of [abstractive_summarization] makes of the
    summaries of the chunks. *)
Definition combine_summaries (self : Summarization.LegalDocumentSummarizer)
    (p : Summarization.pipeline) (chunk_summaries : list text) : option text :=
  if 1 <? len chunk_summaries then
    let combined_summary := join (str " ") chunk_summaries in
    if Summarization.max_length self <? len (Py.split combined_summary) then
      p combined_summary (Summarization.max_length self) 50
    else Some combined_summary
  else
    match chunk_summaries with
    | s :: _ => Some s
    | [] => Some (str "Unable to generate summary.")
    end.

(** The loop of the matcher for [r*], with its fuel. *)
Fixpoint star_iter (step : cursor -> list (cursor * option text)) (fuel : nat)
    (c : cursor) : list (cursor * option text) :=
  match fuel with
  | O => [(c, None)]
  | S k =>
      flat_map (fun m1 =>
        if (length (rest (fst m1)) <? length (rest c))%nat
        then map (fun m2 => (fst m2, later (snd m2) (snd m1))) (star_iter step k (fst m1))
        else [])
        (step c)
      ++ [(c, None)]
  end.

(** Length of the longest prefix of [s] within the class [p]. *)
Fixpoint span_len (p : ascii -> bool) (s : text) : nat :=
  match s with
  | a :: t => if p a then S (span_len p t) else 0
  | [] => 0
  end.

(** The cursor after that prefix. *)
Fixpoint span_end (p : ascii -> bool) (prev : option ascii) (s : text) : cursor :=
  match s with
  | a :: t => if p a then span_end p (Some a) t else {| before := prev; rest := s |}
  | [] => {| before := prev; rest := [] |}
  end.

(** The subject cut into its maximal runs of the class [p] and the
    characters outside them: what the scanner finds for [[p]+]. *)
Fixpoint class_pieces (p : ascii -> bool) (s : text) : list piece :=
  match s with
  | [] => []
  | a :: t =>
      if p a then
        match class_pieces p t with
        | Hit w _ :: ps => Hit (a :: w) None :: ps
        | ps => Hit [a] None :: ps
        end
      else Lit a :: class_pieces p t
  end.

(** Every whitespace character is a plain space, none follows another, and
    none comes first when [after_space] is set. *)
Fixpoint single_spaced (after_space : bool) (s : text) : bool :=
  match s with
  | [] => true
  | a :: t =>
      if isspace a
      then Ascii.eqb a " " && negb after_space && single_spaced true t
      else single_spaced false t
  end.

(** A replacement that starts and ends with ink and is single-spaced. *)
Definition tight (repl : text) : Prop :=
  single_spaced true repl = true /\
  exists a r, rev repl = a :: r /\ isspace a = false.

(** The last character, if any, is not whitespace. *)
Definition ends_inked (s : text) : Prop :=
  match rev s with a :: _ => isspace a = false | [] => True end.

(** The words after the first, each behind one space. *)
Definition spaced_tail (ws : list text) : text :=
  match ws with [] => [] | _ => " "%char :: join (str " ") ws end.

(** Number of matches among the pieces of a scan. *)
Fixpoint hits (ps : list piece) : nat :=
  match ps with
  | [] => 0
  | Lit _ :: r => hits r
  | Hit _ _ :: r => S (hits r)
  end.

(** A text without a sentence terminator. *)
Definition unterminated (s : text) : Prop := Forall (fun a => isterm a = false) s.

(** A text that is not empty and has nothing to strip. *)
Definition trimmed (u : text) : Prop := u <> [] /\ strip u = u.

(** The seven category names. *)
Definition category_names : list text :=
  map fst KeywordExtraction.legal_categories ++ [str "general"].

(** A lowercase letter a..z. *)
Definition lowercase_letter (a : ascii) : Prop := between 97 122 a = true.

(** A position of the matcher inside a blank text. *)
Definition blank_cursor (c : cursor) : Prop :=
  match before c with Some a => isspace a = true | None => True end /\
  blank (rest c).

(** * Properties *)

(** ** Characters and strings *)

Ltac by_cases_on_char c :=
  destruct c as [[] [] [] [] [] [] [] []]; vm_compute; intros;
  first [reflexivity | discriminate].

Lemma space_not_word c : isspace c = true -> isword c = false.
Proof. by_cases_on_char c. Qed.

Lemma space_not_term c : isspace c = true -> isterm c = false.
Proof. by_cases_on_char c. Qed.

Lemma term_not_space c : isterm c = true -> isspace c = false.
Proof. by_cases_on_char c. Qed.

Lemma lower_space c : isspace c = true -> isspace (lower_char c) = true.
Proof. by_cases_on_char c. Qed.

Lemma text_eqb_eq a b : text_eqb a b = true <-> a = b.
Proof.
  revert b; induction a as [|x a IH]; intros [|y b]; simpl; split;
    try discriminate; try reflexivity; intro H.
  - apply andb_prop in H as [Hx Ha].
    apply Ascii.eqb_eq in Hx; apply IH in Ha; congruence.
  - injection H as -> ->. rewrite Ascii.eqb_refl; simpl. now apply IH.
Qed.

Lemma text_eqb_refl a : text_eqb a a = true.
Proof. now apply text_eqb_eq. Qed.

Lemma text_eqb_neq a b : text_eqb a b = false <-> a <> b.
Proof.
  split; intro H.
  - intros ->. now rewrite text_eqb_refl in H.
  - destruct (text_eqb a b) eqn:E; [|reflexivity].
    apply text_eqb_eq in E; contradiction.
Qed.

Lemma mem_In x l : mem x l = true <-> In x l.
Proof.
  unfold mem; rewrite existsb_exists; split.
  - intros (y & Hy & E). apply text_eqb_eq in E; now subst.
  - intro H; exists x; split; [assumption | apply text_eqb_refl].
Qed.

Lemma len_nonneg {A} (l : list A) : 0 <= len l.
Proof. unfold len; lia. Qed.

Lemma len_app {A} (l1 l2 : list A) : len (l1 ++ l2) = len l1 + len l2.
Proof. unfold len; rewrite length_app; lia. Qed.

Lemma blank_lower t : blank t -> blank (lower t).
Proof.
  unfold blank, lower; induction t as [|c t IH]; simpl; [reflexivity|].
  intro H; apply andb_prop in H as [Hc Ht].
  now rewrite (lower_space c Hc), IH.
Qed.

Lemma blank_app a b : blank a -> blank b -> blank (a ++ b).
Proof. unfold blank; rewrite forallb_app; intros -> ->; reflexivity. Qed.

Lemma blank_rev t : blank t -> blank (rev t).
Proof.
  unfold blank; rewrite !forallb_forall; intros H c Hc; apply H.
  now apply in_rev.
Qed.

Lemma lstrip_blank t : blank t -> lstrip t = [].
Proof.
  unfold blank; induction t as [|c t IH]; simpl; [reflexivity|].
  intro H; apply andb_prop in H as [-> Ht]; auto.
Qed.

Lemma strip_blank t : blank t -> strip t = [].
Proof.
  intro H; unfold strip, rstrip.
  now rewrite (lstrip_blank (rev t)) by (now apply blank_rev).
Qed.

Lemma lstrip_incl t c : In c (lstrip t) -> In c t.
Proof.
  induction t as [|a t IH]; simpl; [tauto|].
  destruct (isspace a); simpl; tauto.
Qed.

Lemma strip_incl t c : In c (strip t) -> In c t.
Proof.
  unfold strip, rstrip; intro H.
  apply lstrip_incl, in_rev, lstrip_incl in H. now apply in_rev.
Qed.

(** A character that is not whitespace survives [lstrip]. *)
Lemma lstrip_keeps t c : In c t -> isspace c = false -> In c (lstrip t).
Proof.
  induction t as [|a t IH]; simpl; [tauto|].
  intros [->|H] Hc.
  - rewrite Hc; now left.
  - destruct (isspace a); [auto | now right].
Qed.

Lemma strip_keeps t c : In c t -> isspace c = false -> In c (strip t).
Proof.
  unfold strip, rstrip; intros H Hc.
  apply lstrip_keeps; [|assumption].
  apply -> in_rev.
  apply lstrip_keeps; [apply -> in_rev; assumption | assumption].
Qed.

Lemma inked_truthy_strip t : inked t -> truthy (strip t) = true.
Proof.
  intros (c & Hin & Hc). pose proof (strip_keeps t c Hin Hc) as H.
  destruct (strip t); [contradiction | reflexivity].
Qed.

Lemma lstrip_head t a r : lstrip t = a :: r -> isspace a = false.
Proof.
  induction t as [|c t IH]; simpl; [discriminate|].
  destruct (isspace c) eqn:E; [assumption|].
  intro H; injection H as -> _; assumption.
Qed.

Lemma truthy_strip_inked t : truthy (strip t) = true -> inked (strip t).
Proof.
  destruct (strip t) as [|a r] eqn:E; [discriminate|]; intros _.
  exists a; split; [now left|].
  unfold strip in E. now apply lstrip_head in E.
Qed.

Lemma inked_app_l a b : inked a -> inked (a ++ b).
Proof. intros (c & H & Hc); exists c; split; [apply in_or_app; now left | assumption]. Qed.

Lemma inked_app_r a b : inked b -> inked (a ++ b).
Proof. intros (c & H & Hc); exists c; split; [apply in_or_app; now right | assumption]. Qed.

Lemma inked_join sep x l : inked x -> inked (join sep (x :: l)).
Proof.
  intro H; destruct l; simpl; [assumption | now apply inked_app_l].
Qed.

(** ** [str.split] *)

Lemma split_go_words t :
  Forall inked (snd (Py.split_go t)) /\
  (fst (Py.split_go t) = [] \/ inked (fst (Py.split_go t))).
Proof.
  induction t as [|c t [IHws IHw]]; simpl.
  - split; [constructor | now left].
  - destruct (Py.split_go t) as [w ws]; simpl in *.
    destruct (isspace c) eqn:E; simpl.
    + split; [|now left].
      destruct w; simpl; [assumption|].
      constructor; [|assumption].
      destruct IHw as [Hw|Hw]; [discriminate | assumption].
    + split; [assumption|]. right; exists c; split; [now left | assumption].
Qed.

Lemma split_words_inked t : Forall inked (Py.split t).
Proof.
  unfold Py.split. pose proof (split_go_words t) as [Hws Hw].
  destruct (Py.split_go t) as [w ws]; simpl in *.
  destruct w; simpl; [assumption|].
  constructor; [|assumption].
  destruct Hw as [Hw|Hw]; [discriminate | assumption].
Qed.

Lemma split_go_blank t : blank t -> Py.split_go t = ([], []).
Proof.
  unfold blank; induction t as [|c t IH]; simpl; [reflexivity|].
  intro H; apply andb_prop in H as [-> Ht].
  now rewrite (IH Ht).
Qed.

Lemma split_blank t : blank t -> Py.split t = [].
Proof. intro H; unfold Py.split; now rewrite split_go_blank. Qed.

Lemma split_nil_blank t : Py.split t = [] -> blank t.
Proof.
  unfold Py.split, blank; induction t as [|c t IH]; simpl; [reflexivity|].
  destruct (Py.split_go t) as [w ws]; destruct (isspace c); simpl.
  - intro H; apply IH; assumption.
  - discriminate.
Qed.

(** ** [range] and slices *)

Lemma range_zero_step a b : range a b 0 = None.
Proof. reflexivity. Qed.

Lemma range_backwards n step : 0 <= n -> step < 0 -> range 0 n step = Some [].
Proof.
  intros Hn Hs; unfold range, range_len.
  destruct (Z.eqb_spec step 0); [lia|].
  destruct (Z.ltb_spec 0 step); [lia|].
  destruct (Z.ltb_spec n 0); [lia|].
  now rewrite andb_false_r.
Qed.

Lemma range_len_forward n step :
  0 < step -> 0 < n -> range_len 0 n step = Z.to_nat ((n - 1) / step + 1).
Proof.
  intros Hs Hn; unfold range_len.
  destruct (Z.ltb_spec 0 step); [|lia].
  destruct (Z.ltb_spec 0 n); [|lia]. simpl.
  now replace (n - 0 - 1) with (n - 1) by lia.
Qed.

Lemma range_len_empty step : range_len 0 0 step = 0%nat.
Proof.
  unfold range_len. rewrite Z.ltb_irrefl, !andb_false_r. reflexivity.
Qed.

Lemma range_empty step : step <> 0 -> range 0 0 step = Some [].
Proof.
  intro H; unfold range. destruct (Z.eqb_spec step 0); [contradiction|].
  now rewrite range_len_empty.
Qed.

(** Every index a loop over [range(0, n, step)] visits is a valid offset. *)
Lemma range_items n step idxs :
  0 <= n -> range 0 n step = Some idxs -> Forall (fun i => 0 <= i < n) idxs.
Proof.
  intros Hn; unfold range.
  destruct (Z.eqb_spec step 0) as [|Hs]; [discriminate|].
  intro H; injection H as <-.
  apply Forall_forall; intros i Hi.
  apply in_map_iff in Hi as (k & <- & Hk). apply in_seq in Hk.
  destruct (Z.lt_trichotomy step 0) as [Hneg|[|Hpos]]; [|contradiction|].
  - unfold range_len in Hk.
    destruct (Z.ltb_spec 0 step); [lia|].
    destruct (Z.ltb_spec n 0); [lia|].
    rewrite andb_false_r in Hk; simpl in Hk; lia.
  - destruct (Z.eq_dec n 0) as [->|Hn0].
    + rewrite range_len_empty in Hk; lia.
    + rewrite range_len_forward in Hk by lia.
      assert (Hq : 0 <= (n - 1) / step) by (apply Z.div_pos; lia).
      assert (Hk' : Z.of_nat k <= (n - 1) / step) by lia.
      pose proof (Z.mul_div_le (n - 1) step Hpos).
      nia.
Qed.

Lemma range_length n step idxs :
  range 0 n step = Some idxs -> length idxs = range_len 0 n step.
Proof.
  unfold range; destruct (step =? 0); [discriminate|].
  intro H; injection H as <-. now rewrite length_map, length_seq.
Qed.

(** A smaller positive step never visits fewer indices. *)
Lemma range_len_mono n s1 s2 :
  0 < s2 <= s1 -> (range_len 0 n s1 <= range_len 0 n s2)%nat.
Proof.
  intros Hs. destruct (Z_lt_le_dec 0 n) as [Hn|Hn].
  - rewrite !range_len_forward by lia.
    assert ((n - 1) / s1 <= (n - 1) / s2) by (apply Z.div_le_compat_l; lia).
    assert (0 <= (n - 1) / s1) by (apply Z.div_pos; lia).
    lia.
  - unfold range_len.
    destruct (Z.ltb_spec 0 n); [lia|]. rewrite !andb_false_r.
    destruct (Z.ltb_spec s1 0); [lia|]. destruct (Z.ltb_spec s2 0); [lia|].
    simpl; lia.
Qed.

Lemma In_firstn {A} n (l : list A) x : In x (firstn n l) -> In x l.
Proof.
  intro H; rewrite <- (firstn_skipn n l); apply in_or_app; now left.
Qed.

Lemma In_skipn {A} n (l : list A) x : In x (skipn n l) -> In x l.
Proof.
  intro H; rewrite <- (firstn_skipn n l); apply in_or_app; now right.
Qed.

Lemma slice_incl {A} (l : list A) i j x : In x (slice l i j) -> In x l.
Proof.
  unfold slice; intro H.
  apply In_firstn in H. eapply In_skipn; eassumption.
Qed.

Lemma slice_whole {A} (l : list A) j : len l <= j -> slice l 0 j = l.
Proof.
  intro H; unfold slice, clamp; simpl.
  pose proof (len_nonneg l).
  destruct (Z.ltb_spec j 0); [lia|].
  rewrite Z.min_r by lia. rewrite Z.min_l by lia.
  rewrite Z.sub_0_r; unfold len; rewrite Nat2Z.id.
  simpl. apply firstn_all.
Qed.

Lemma slice_to_firstn {A} (l : list A) j :
  0 <= j -> slice_to l j = firstn (Z.to_nat j) l.
Proof.
  intro H; unfold slice_to, slice, clamp; simpl.
  pose proof (len_nonneg l).
  destruct (Z.ltb_spec j 0); [lia|].
  rewrite (Z.min_l 0) by lia. rewrite Z.sub_0_r. simpl.
  destruct (Z.min_spec j (len l)) as [[Hlt ->]|[Hge ->]]; [reflexivity|].
  unfold len; rewrite Nat2Z.id, firstn_all.
  symmetry; apply firstn_all2. unfold len in Hge; lia.
Qed.

Lemma slice_to_nil {A} j : slice_to (@nil A) j = [].
Proof. unfold slice_to, slice; simpl. now rewrite firstn_nil. Qed.

(** A window that starts inside the list and has a positive size is not
    empty. *)
Lemma slice_window {A} (l : list A) i size :
  0 <= i < len l -> 0 < size -> exists x r, slice l i (i + size) = x :: r.
Proof.
  intros Hi Hs; unfold slice, clamp.
  destruct (Z.ltb_spec i 0); [lia|].
  destruct (Z.ltb_spec (i + size) 0); [lia|].
  rewrite (Z.min_l i) by lia.
  assert (Hlen : (Z.to_nat i < length l)%nat) by (unfold len in Hi; lia).
  destruct (skipn (Z.to_nat i) l) as [|x r] eqn:E.
  - apply (f_equal (@length A)) in E. rewrite length_skipn in E. simpl in E; lia.
  - assert (Hpos : (0 < Z.to_nat (Z.min (i + size) (len l) - i))%nat) by lia.
    destruct (Z.to_nat (Z.min (i + size) (len l) - i)); [lia|].
    simpl; eauto.
Qed.

(** ** The chunking loop *)

Section Windows.
Import TextChunking.
Context {U : Type} (self : TextChunker) (us : list U).
Context (emit : list Chunk -> Z -> list U -> option Chunk).

Lemma windows_zero_step :
  overlap self = chunk_size self -> exists e, windows self us emit = Raise e.
Proof.
  intro H; unfold windows. rewrite H, Z.sub_diag, range_zero_step. eauto.
Qed.

Lemma windows_backwards :
  chunk_size self < overlap self -> windows self us emit = Ok [].
Proof.
  intro H; unfold windows.
  rewrite range_backwards by (try apply len_nonneg; lia). reflexivity.
Qed.

Lemma windows_no_units :
  us = [] -> chunk_size self <> overlap self -> windows self us emit = Ok [].
Proof.
  intros -> H; unfold windows. change (len (@nil U)) with 0.
  rewrite range_empty by lia. reflexivity.
Qed.

Lemma windows_nonzero_step :
  chunk_size self <> overlap self -> exists l, windows self us emit = Ok l.
Proof.
  intro H; unfold windows, range.
  destruct (Z.eqb_spec (chunk_size self - overlap self) 0); [lia | eauto].
Qed.

Lemma fold_emit_length idxs : forall acc,
  Forall (fun i => forall chunks,
            emit chunks i (slice us i (i + chunk_size self)) <> None) idxs ->
  length (fold_left (fun chunks i =>
            match emit chunks i (slice us i (i + chunk_size self)) with
            | Some c => chunks ++ [c]
            | None => chunks
            end) idxs acc) = (length acc + length idxs)%nat.
Proof.
  induction idxs as [|i idxs IH]; intros acc H; simpl; [lia|].
  inversion H as [|? ? Hi Hrest]; subst.
  rewrite IH by assumption.
  destruct (emit acc i _) eqn:E; [|now apply Hi in E].
  rewrite length_app; simpl; lia.
Qed.

(** When every window inside the text emits a chunk, the loop yields one
    chunk per index of the range. *)
Lemma windows_count :
  chunk_size self <> overlap self ->
  (forall chunks i, 0 <= i < len us ->
     emit chunks i (slice us i (i + chunk_size self)) <> None) ->
  exists l, windows self us emit = Ok l /\
            length l = range_len 0 (len us) (chunk_size self - overlap self).
Proof.
  intros Hstep Hemit; unfold windows.
  destruct (range 0 (len us) (chunk_size self - overlap self)) as [idxs|] eqn:E.
  - eexists; split; [reflexivity|].
    rewrite fold_emit_length; simpl.
    + now apply range_length.
    + pose proof (range_items _ _ _ (len_nonneg us) E) as Hin.
      eapply Forall_impl; [|exact Hin]. intros i Hi chunks; now apply Hemit.
  - unfold range in E. destruct (Z.eqb_spec (chunk_size self - overlap self) 0); [lia | discriminate].
Qed.

(** With no more units than one step the loop runs once, on all of them. *)
Lemma windows_single :
  0 <= overlap self < chunk_size self ->
  1 <= len us <= chunk_size self - overlap self ->
  windows self us emit =
  Ok (match emit [] 0 us with Some c => [c] | None => [] end).
Proof.
  intros Ho Hn; unfold windows, range.
  destruct (Z.eqb_spec (chunk_size self - overlap self) 0); [lia|].
  rewrite range_len_forward by lia.
  rewrite Z.div_small by lia. simpl.
  rewrite slice_whole by lia.
  destruct (emit [] 0 us); reflexivity.
Qed.

End Windows.

Section ChunkFacts.
Import TextChunking.

Lemma words_window_inked (ws : list text) x r sep :
  Forall inked ws -> (forall w, In w (x :: r) -> In w ws) ->
  truthy (strip (join sep (x :: r))) = true.
Proof.
  intros Hws Hin. apply inked_truthy_strip, inked_join.
  rewrite Forall_forall in Hws. apply Hws, Hin. now left.
Qed.

Lemma sentence_content_inked (l : list text) :
  truthy (strip (join (str ". ") l ++ str ".")) = true.
Proof.
  apply inked_truthy_strip, inked_app_r.
  exists "."%char; split; [now left | reflexivity].
Qed.

Lemma stripped_inked (l : list text) : Forall inked (stripped l).
Proof.
  unfold stripped. apply Forall_forall; intros s Hs.
  apply in_map_iff in Hs as (s0 & <- & Hs0).
  apply filter_In in Hs0 as [_ Ht]. now apply truthy_strip_inked.
Qed.

Lemma stripped_blank (l : list text) : Forall blank l -> stripped l = [].
Proof.
  unfold stripped; induction 1 as [|s l Hs Hl IH]; simpl; [reflexivity|].
  rewrite (strip_blank s Hs); simpl. assumption.
Qed.

Lemma known_method_cases m :
  known_method m = true ->
  m = str "words" \/ m = str "sentences" \/ m = str "paragraphs".
Proof.
  unfold known_method; intro H. apply mem_In in H. simpl in H.
  intuition auto.
Qed.

(** The number of chunks of the word method is the number of indices of
    the range, for a positive chunk size. *)
Lemma chunk_by_words_count self t :
  0 < chunk_size self -> chunk_size self <> overlap self ->
  exists l, chunk_by_words self t = Ok l /\
            length l = range_len 0 (len (Py.split t)) (chunk_size self - overlap self).
Proof.
  intros Hsize Hstep. unfold chunk_by_words.
  apply windows_count; [assumption|].
  intros chunks i Hi.
  destruct (slice_window (Py.split t) i (chunk_size self) Hi Hsize) as (x & r & E).
  rewrite E.
  rewrite (words_window_inked (Py.split t) x r).
  - discriminate.
  - apply split_words_inked.
  - intros w Hw. rewrite <- E in Hw. eapply slice_incl; eassumption.
Qed.

End ChunkFacts.

(** ** Segmentation *)

Section Segmentation.
Import TextChunking.

Lemma process_words self t :
  method self = str "words" -> process_document self t = chunk_by_words self t.
Proof. intro H; unfold process_document; rewrite H; reflexivity. Qed.

Lemma process_sentences self t :
  method self = str "sentences" -> process_document self t = chunk_by_sentences self t.
Proof. intro H; unfold process_document; rewrite H; reflexivity. Qed.

Lemma process_paragraphs self t :
  method self = str "paragraphs" -> process_document self t = chunk_by_paragraphs self t.
Proof. intro H; unfold process_document; rewrite H; reflexivity. Qed.

Lemma nonempty_of_len {A} (l : list A) : 1 <= len l -> exists x r, l = x :: r.
Proof. destruct l; unfold len; simpl; [lia | eauto]. Qed.

(** C2, as amended.  When the text has at least one unit and no more units
    than one step ([chunk_size - overlap]) of a valid configuration, the
    segmentation is exactly one chunk, numbered 1, that spans the units
    [0 .. n) and whose content is all the units joined. *)
Theorem single_chunk_when_units_fit_one_step self t :
  known_method (method self) = true ->
  0 <= overlap self < chunk_size self ->
  1 <= len (units (method self) t) <= chunk_size self - overlap self ->
  exists c,
    process_document self t = Ok [c] /\
    id c = 1 /\ start_index c = 0 /\
    end_index c = len (units (method self) t) /\
    content c = strip (joined (method self) (units (method self) t)).
Proof.
  intros Hm Ho Hn.
  destruct (known_method_cases _ Hm) as [E|[E|E]]; rewrite E in Hn |- *.
  - rewrite (process_words _ _ E).
    change (units (str "words") t) with (Py.split t) in *.
    unfold chunk_by_words. rewrite windows_single by assumption.
    destruct (nonempty_of_len _ (proj1 Hn)) as (x & r & Ex).
    assert (Ht : truthy (strip (join (str " ") (Py.split t))) = true).
    { rewrite Ex. apply (words_window_inked (x :: r)); [|auto].
      rewrite <- Ex; apply split_words_inked. }
    rewrite Ht. eexists; repeat split; reflexivity.
  - rewrite (process_sentences _ _ E).
    change (units (str "sentences") t) with (stripped (Re.split terminators t)) in *.
    unfold chunk_by_sentences. rewrite windows_single by assumption.
    rewrite sentence_content_inked.
    eexists; repeat split; reflexivity.
  - rewrite (process_paragraphs _ _ E).
    change (units (str "paragraphs") t) with (stripped (Re.split blank_line t)) in *.
    unfold chunk_by_paragraphs. rewrite windows_single by assumption.
    destruct (nonempty_of_len _ (proj1 Hn)) as (x & r & Ex).
    assert (Ht : truthy (strip (join newline2 (stripped (Re.split blank_line t)))) = true).
    { rewrite Ex. apply (words_window_inked (x :: r)); [|auto].
      rewrite <- Ex; apply stripped_inked. }
    rewrite Ht. eexists; repeat split; reflexivity.
Qed.

Lemma single_chunk_when_units_fit_one_step_witness :
  exists c,
    process_document {| chunk_size := 4; overlap := 1; method := str "words" |}
                     (str "pay the rent") = Ok [c] /\
    id c = 1 /\ start_index c = 0 /\ end_index c = 3 /\
    content c = str "pay the rent".
Proof.
  apply (single_chunk_when_units_fit_one_step
           {| chunk_size := 4; overlap := 1; method := str "words" |}
           (str "pay the rent")).
  - reflexivity.
  - simpl; lia.
  - vm_compute; split; discriminate.
Defined.

(** C2, as stated, fails: three words, chunk size 4 and overlap 3 give
    three chunks, the windows at 0, 1 and 2; and the empty text, which has
    fewer units than any chunk size, gives no chunk. *)
Lemma fewer_units_than_chunk_size_counterexample :
  let self := {| chunk_size := 4; overlap := 3; method := str "words" |} in
  let t := str "a b c" in
  len (units (method self) t) < chunk_size self /\
  0 <= overlap self < chunk_size self /\
  (exists l, process_document self t = Ok l /\ map start_index l = [0; 1; 2]) /\
  ~ (exists c, process_document self t = Ok [c]) /\
  len (units (method self) []) < chunk_size self /\
  process_document self [] = Ok [].
Proof.
  cbv zeta. split; [reflexivity|]. split; [simpl; lia|]. split; [|split].
  - eexists; split; [vm_compute; reflexivity | reflexivity].
  - intros (c & H). vm_compute in H. discriminate.
  - split; reflexivity.
Qed.

(** C3, as amended.  An unknown method raises before the text is looked
    at; an overlap equal to the chunk size raises (the zero step of the
    range); no other configuration raises: an overlap above the chunk size
    yields the empty list of chunks, and a chunk size that is not positive
    is processed like any other. *)
Theorem invalid_configuration_outcomes self t :
  (known_method (method self) = false ->
     process_document self t =
     Raise (ValueError (str "Unknown chunking method: " ++ method self))) /\
  (known_method (method self) = true -> overlap self = chunk_size self ->
     exists e, process_document self t = Raise e) /\
  (known_method (method self) = true -> chunk_size self < overlap self ->
     process_document self t = Ok []) /\
  (known_method (method self) = true -> chunk_size self <> overlap self ->
     exists l, process_document self t = Ok l).
Proof.
  split; [|split; [|split]].
  - unfold known_method, mem, process_document; simpl.
    intro H. rewrite !orb_false_iff in H. destruct H as (-> & -> & -> & _).
    reflexivity.
  - intros Hm Ho.
    destruct (known_method_cases _ Hm) as [E|[E|E]].
    + rewrite (process_words _ _ E). now apply windows_zero_step.
    + rewrite (process_sentences _ _ E). now apply windows_zero_step.
    + rewrite (process_paragraphs _ _ E). now apply windows_zero_step.
  - intros Hm Ho.
    destruct (known_method_cases _ Hm) as [E|[E|E]].
    + rewrite (process_words _ _ E). now apply windows_backwards.
    + rewrite (process_sentences _ _ E). now apply windows_backwards.
    + rewrite (process_paragraphs _ _ E). now apply windows_backwards.
  - intros Hm Ho.
    destruct (known_method_cases _ Hm) as [E|[E|E]].
    + rewrite (process_words _ _ E). now apply windows_nonzero_step.
    + rewrite (process_sentences _ _ E). now apply windows_nonzero_step.
    + rewrite (process_paragraphs _ _ E). now apply windows_nonzero_step.
Qed.

Lemma invalid_configuration_outcomes_witness :
  process_document {| chunk_size := 3; overlap := 1; method := str "lines" |} (str "a b c")
    = Raise (ValueError (str "Unknown chunking method: lines")) /\
  (exists e, process_document {| chunk_size := 3; overlap := 3; method := str "words" |}
               (str "a b c") = Raise e) /\
  process_document {| chunk_size := 3; overlap := 5; method := str "sentences" |}
    (str "One. Two.") = Ok [] /\
  (exists l, process_document {| chunk_size := 0; overlap := -1; method := str "sentences" |}
               (str "One. Two.") = Ok l).
Proof.
  split; [|split; [|split]].
  - apply (invalid_configuration_outcomes
             {| chunk_size := 3; overlap := 1; method := str "lines" |} (str "a b c")).
    reflexivity.
  - apply (invalid_configuration_outcomes
             {| chunk_size := 3; overlap := 3; method := str "words" |} (str "a b c")).
    + reflexivity.
    + reflexivity.
  - apply (invalid_configuration_outcomes
             {| chunk_size := 3; overlap := 5; method := str "sentences" |} (str "One. Two.")).
    + reflexivity.
    + simpl; lia.
  - apply (invalid_configuration_outcomes
             {| chunk_size := 0; overlap := -1; method := str "sentences" |} (str "One. Two.")).
    + reflexivity.
    + simpl; lia.
Defined.

(** C3, as stated, fails: with overlap 5 above chunk size 3 the word method
    raises nothing and returns the empty list. *)
Lemma overlap_above_chunk_size_counterexample :
  let self := {| chunk_size := 3; overlap := 5; method := str "words" |} in
  overlap self >= chunk_size self /\
  process_document self (str "a b c d") = Ok [] /\
  ~ (exists e, process_document self (str "a b c d") = Raise e).
Proof.
  cbv zeta. split; [simpl; lia|]. split; [reflexivity|].
  intros (e & H). vm_compute in H. discriminate.
Qed.

(** C8.  For the word method with a positive chunk size, a smaller overlap
    never gives more chunks, and for a fixed overlap a larger chunk size
    never gives more chunks. *)
Theorem chunk_count_monotone t :
  (forall size o1 o2, 0 < size -> o1 < o2 < size ->
     exists l1 l2,
       process_document {| chunk_size := size; overlap := o1; method := str "words" |} t = Ok l1 /\
       process_document {| chunk_size := size; overlap := o2; method := str "words" |} t = Ok l2 /\
       (length l1 <= length l2)%nat) /\
  (forall size1 size2 o, 0 < size1 -> o < size1 -> size1 < size2 ->
     exists l1 l2,
       process_document {| chunk_size := size1; overlap := o; method := str "words" |} t = Ok l1 /\
       process_document {| chunk_size := size2; overlap := o; method := str "words" |} t = Ok l2 /\
       (length l2 <= length l1)%nat).
Proof.
  split.
  - intros size o1 o2 Hs Ho.
    destruct (chunk_by_words_count
                {| chunk_size := size; overlap := o1; method := str "words" |} t)
      as (l1 & E1 & N1); simpl; try lia.
    destruct (chunk_by_words_count
                {| chunk_size := size; overlap := o2; method := str "words" |} t)
      as (l2 & E2 & N2); simpl; try lia.
    exists l1, l2. rewrite !process_words by reflexivity.
    repeat split; try assumption.
    rewrite N1, N2; simpl. apply range_len_mono; lia.
  - intros size1 size2 o Hs Ho Hlt.
    destruct (chunk_by_words_count
                {| chunk_size := size1; overlap := o; method := str "words" |} t)
      as (l1 & E1 & N1); simpl; try lia.
    destruct (chunk_by_words_count
                {| chunk_size := size2; overlap := o; method := str "words" |} t)
      as (l2 & E2 & N2); simpl; try lia.
    exists l1, l2. rewrite !process_words by reflexivity.
    repeat split; try assumption.
    rewrite N1, N2; simpl. apply range_len_mono; lia.
Qed.

Lemma chunk_count_monotone_witness :
  (exists l1 l2,
     process_document {| chunk_size := 4; overlap := 1; method := str "words" |}
       (str "a b c d e f g h i j") = Ok l1 /\
     process_document {| chunk_size := 4; overlap := 2; method := str "words" |}
       (str "a b c d e f g h i j") = Ok l2 /\
     (length l1 <= length l2)%nat) /\
  (exists l1 l2,
     process_document {| chunk_size := 4; overlap := 1; method := str "words" |}
       (str "a b c d e f g h i j") = Ok l1 /\
     process_document {| chunk_size := 6; overlap := 1; method := str "words" |}
       (str "a b c d e f g h i j") = Ok l2 /\
     (length l2 <= length l1)%nat).
Proof.
  split.
  - apply (proj1 (chunk_count_monotone (str "a b c d e f g h i j")) 4 1 2); lia.
  - apply (proj2 (chunk_count_monotone (str "a b c d e f g h i j")) 4 6 1); lia.
Defined.

End Segmentation.

(** ** The matcher on blank text *)

Lemma run_seq_nil r1 r2 c : run r1 c = [] -> run (Seq r1 r2) c = [].
Proof. intro H; simpl; rewrite H; reflexivity. Qed.

Lemma run_chr_blank p c :
  (forall a, isspace a = true -> p a = false) -> blank_cursor c -> run (Chr p) c = [].
Proof.
  intros Hp [_ Hb]; simpl. destruct (rest c) as [|a r]; [reflexivity|].
  unfold blank in Hb; simpl in Hb. apply andb_prop in Hb as [Ha _].
  now rewrite (Hp a Ha).
Qed.

Lemma run_bound_blank c : blank_cursor c -> run Bound c = [].
Proof.
  intros [Hp Hb]; simpl. unfold at_boundary, word_before, word_after.
  assert (Hbefore : match before c with Some a => isword a | None => false end = false).
  { destruct (before c); [now apply space_not_word | reflexivity]. }
  assert (Hafter : match rest c with a :: _ => isword a | [] => false end = false).
  { destruct (rest c) as [|a r]; [reflexivity|].
    unfold blank in Hb; simpl in Hb. apply andb_prop in Hb as [Ha _].
    now apply space_not_word. }
  rewrite Hbefore, Hafter. reflexivity.
Qed.

Section NoMatch.
Context (r : regex) (Hr : forall c, blank_cursor c -> run r c = []).

Lemma scan_blank s : forall prev,
  match prev with Some a => isspace a = true | None => True end ->
  blank s -> scan r 0 prev s = map Lit s.
Proof.
  induction s as [|a s IH]; intros prev Hprev Hs; simpl; [reflexivity|].
  unfold match_at. rewrite Hr by (split; assumption). simpl.
  unfold blank in Hs; simpl in Hs. apply andb_prop in Hs as [Ha Hs].
  now rewrite IH.
Qed.

Lemma pieces_blank s : blank s -> pieces r s = map Lit s.
Proof. intro H; apply scan_blank; [exact I | assumption]. Qed.

Lemma findall_blank s : blank s -> findall r s = [].
Proof.
  intro H; unfold findall. rewrite (pieces_blank s H). clear H.
  induction s; simpl; auto.
Qed.

Lemma split_go_lits s : Re.split_go (map Lit s) = (s, []).
Proof. induction s as [|a s IH]; simpl; [reflexivity | now rewrite IH]. Qed.

Lemma re_split_blank s : blank s -> Re.split r s = [s].
Proof.
  intro H; unfold Re.split. now rewrite (pieces_blank s H), split_go_lits.
Qed.

Lemma sub_blank repl s : blank s -> Re.sub r repl s = s.
Proof.
  intro H; unfold Re.sub. rewrite (pieces_blank s H). clear H.
  induction s as [|a s IH]; simpl; [reflexivity | now rewrite IH].
Qed.

End NoMatch.

(** The characters outside the matches are characters of the subject. *)
Lemma scan_lits r s : forall k prev a, In (Lit a) (scan r k prev s) -> In a s.
Proof.
  induction s as [|b s IH]; intros k prev a; cbn [scan]; [simpl; tauto|].
  destruct k as [|k].
  - destruct (match_at r _) as [[c1 g]|].
    + destruct (length (b :: s) - length (rest c1))%nat; cbn [In].
      * intros [H|H]; [injection H as ->; now left | right; eauto].
      * intros [H|H]; [discriminate | right; eauto].
    + cbn [In]; intros [H|H]; [injection H as ->; now left | right; eauto].
  - cbn [In]; intro H; right; eauto.
Qed.

Lemma split_go_chars ps :
  forall w a, In w (fst (Re.split_go ps) :: snd (Re.split_go ps)) -> In a w -> In (Lit a) ps.
Proof.
  induction ps as [|p ps IH]; simpl.
  - intros w a [<-|[]] [].
  - destruct p as [b|whole g]; destruct (Re.split_go ps) as [w0 ws]; simpl in *.
    + intros w a [<-|Hw] Ha.
      * destruct Ha as [->|Ha]; [now left | right; apply (IH w0); auto].
      * right; apply (IH w); auto.
    + intros w a [<-|Hw] Ha; [destruct Ha|].
      right; apply (IH w); auto.
Qed.

Lemma re_split_chars r s w a : In w (Re.split r s) -> In a w -> In a s.
Proof.
  unfold Re.split; intros Hw Ha.
  pose proof (split_go_chars (pieces r s) w a) as H.
  destruct (Re.split_go (pieces r s)) as [w0 ws]; simpl in *.
  eapply scan_lits; apply H; assumption.
Qed.

Lemma re_split_blank_pieces r s : blank s -> Forall blank (Re.split r s).
Proof.
  intro Hs; apply Forall_forall; intros w Hw.
  unfold blank in *; rewrite forallb_forall in *.
  intros a Ha; apply Hs. eapply re_split_chars; eassumption.
Qed.

Lemma terminators_blank c : blank_cursor c -> run terminators c = [].
Proof.
  intro H; unfold terminators, Plus. apply run_seq_nil.
  apply run_chr_blank; [exact space_not_term | assumption].
Qed.

Lemma bound_first_blank r c : blank_cursor c -> run (Seq Bound r) c = [].
Proof. intro H; apply run_seq_nil; now apply run_bound_blank. Qed.

(** ** Degenerate input *)

Section Degenerate.
Import TextChunking KeywordExtraction Summarization.

Lemma blank_iff_no_words t : blank t <-> Py.split t = [].
Proof. split; [apply split_blank | apply split_nil_blank]. Qed.

Lemma units_blank m t : blank t -> units m t = [].
Proof.
  intro H; unfold units.
  destruct (text_eqb m (str "words")); [now apply split_blank|].
  destruct (text_eqb m (str "sentences")).
  - rewrite (re_split_blank terminators terminators_blank t H).
    apply stripped_blank; now repeat constructor.
  - apply stripped_blank. now apply re_split_blank_pieces.
Qed.

Lemma process_document_blank self t :
  blank t -> known_method (method self) = true -> chunk_size self <> overlap self ->
  process_document self t = Ok [].
Proof.
  intros Hb Hm Hs.
  destruct (known_method_cases _ Hm) as [E|[E|E]].
  - rewrite (process_words _ _ E). apply windows_no_units; [|assumption].
    apply (units_blank (str "words") t Hb).
  - rewrite (process_sentences _ _ E). apply windows_no_units; [|assumption].
    apply (units_blank (str "sentences") t Hb).
  - rewrite (process_paragraphs _ _ E). apply windows_no_units; [|assumption].
    apply (units_blank (str "paragraphs") t Hb).
Qed.

Lemma keywords_blank t min_freq max_keywords :
  blank t -> extract_statistical_keywords t min_freq max_keywords = [].
Proof.
  intro H; unfold extract_statistical_keywords, scored_keywords, filtered_words.
  rewrite (findall_blank word_pattern) by
    (try apply blank_lower; try assumption; intros c Hc; now apply bound_first_blank).
  simpl. apply slice_to_nil.
Qed.

Lemma patterns_start_at_boundary :
  Forall (fun p => exists r, p = Seq Bound r) patterns.
Proof. repeat constructor; eexists; reflexivity. Qed.

Lemma phrases_blank t max_phrases : blank t -> extract_key_phrases t max_phrases = [].
Proof.
  intro H; unfold extract_key_phrases.
  assert (E : flat_map (fun pattern => phrases_of pattern t) patterns = []).
  { pose proof patterns_start_at_boundary as Hp.
    induction Hp as [|p ps [r ->] _ IH]; simpl; [reflexivity|].
    rewrite IH, app_nil_r. unfold phrases_of.
    rewrite (findall_blank (Seq Bound r)) by
      (try assumption; intros c Hc; now apply bound_first_blank).
    reflexivity. }
  rewrite E. apply slice_to_nil.
Qed.

(** The division by [original_words] raises when the text has no word,
    whatever was summarized before. *)
Lemma generate_summary_no_words self t summary_type length :
  Py.split t = [] ->
  fst (generate_summary self t summary_type length) = Raise ZeroDivisionError.
Proof.
  intro H; unfold generate_summary. rewrite H.
  destruct (text_eqb length (str "short")); [|destruct (text_eqb length (str "medium"))];
    destruct (text_eqb summary_type (str "extractive")); reflexivity.
Qed.

(** C4.  On an empty or all-whitespace text (a text without a
    whitespace-separated word) the segmentation of every known method with
    a non-zero step returns no chunk, the keyword scorer no keyword and the
    phrase matcher no phrase, none of them raising, while
    [generate_summary] raises [ZeroDivisionError]. *)
Theorem blank_document_results t :
  blank t ->
  Py.split t = [] /\
  (forall self, known_method (method self) = true -> chunk_size self <> overlap self ->
     process_document self t = Ok []) /\
  (forall min_freq max_keywords,
     extract_statistical_keywords t min_freq max_keywords = []) /\
  (forall max_phrases, extract_key_phrases t max_phrases = []) /\
  (forall self summary_type length,
     fst (generate_summary self t summary_type length) = Raise ZeroDivisionError).
Proof.
  intro H. split; [now apply split_blank|]. split; [|split; [|split]].
  - intros self Hm Hs. now apply process_document_blank.
  - intros. now apply keywords_blank.
  - intros. now apply phrases_blank.
  - intros. apply generate_summary_no_words. now apply split_blank.
Qed.

End Degenerate.

Lemma blank_document_results_witness :
  let t := [" "; "010"; " "; "009"]%char in
  Py.split t = [] /\
  (forall self, known_method (TextChunking.method self) = true ->
     TextChunking.chunk_size self <> TextChunking.overlap self ->
     TextChunking.process_document self t = Ok []) /\
  (forall min_freq max_keywords,
     KeywordExtraction.extract_statistical_keywords t min_freq max_keywords = []) /\
  (forall max_phrases, KeywordExtraction.extract_key_phrases t max_phrases = []) /\
  (forall self summary_type length,
     fst (Summarization.generate_summary self t summary_type length)
     = Raise ZeroDivisionError).
Proof.
  apply (blank_document_results [" "; "010"; " "; "009"]%char). reflexivity.
Defined.

(** ** Keywords and phrases on the scenarios *)

Section Scenarios.
Import KeywordExtraction.

(** C5.  On "The party shall pay the party shall pay rent." with a minimum
    frequency of 2 (and the default limit of 50) the result has "shall"
    with frequency 2, category legal_actions and score 4, and "party" with
    frequency 2, category parties and score 4; "rent", counted once, is not
    in it. *)
Theorem scenario_party_shall_keywords :
  let t := str "The party shall pay the party shall pay rent." in
  let ks := extract_statistical_keywords t 2 50 in
  In {| term := str "shall"; frequency := 2;
        category := str "legal_actions"; score := 4 |} ks /\
  In {| term := str "party"; frequency := 2;
        category := str "parties"; score := 4 |} ks /\
  In (str "rent", 1) (Counter (filtered_words t)) /\
  ~ In (str "rent") (map term ks).
Proof.
  cbv zeta.
  assert (E : extract_statistical_keywords
                (str "The party shall pay the party shall pay rent.") 2 50 =
              [ {| term := str "party"; frequency := 2;
                   category := str "parties"; score := 4 |};
                {| term := str "shall"; frequency := 2;
                   category := str "legal_actions"; score := 4 |};
                {| term := str "pay"; frequency := 2;
                   category := str "general"; score := 2 |} ])
    by (vm_compute; reflexivity).
  rewrite E. split; [right; left; reflexivity|]. split; [left; reflexivity|].
  split.
  - vm_compute. right; right; right; left; reflexivity.
  - simpl. intros [H|[H|[H|[]]]]; vm_compute in H; discriminate.
Qed.

End Scenarios.

(** ** The summarizer *)

Section Summarizer.
Import Summarization.

Lemma long_sentences_none t :
  Forall (fun s => len (strip s) <= 20) (Re.split terminators t) ->
  long_sentences t = [].
Proof.
  unfold long_sentences; induction 1 as [|s l Hs Hl IH]; simpl; [reflexivity|].
  destruct (Z.ltb_spec 20 (len (strip s))); [lia|].
  rewrite andb_false_r. assumption.
Qed.

Lemma blank_fragments_short t :
  blank t -> Forall (fun s => len (strip s) <= 20) (Re.split terminators t).
Proof.
  intro H. rewrite (re_split_blank terminators terminators_blank t H).
  constructor; [|constructor]. rewrite (strip_blank t H). unfold len; simpl; lia.
Qed.

(** C10.  When no fragment between sentence terminators has more than 20
    characters once stripped, as on every empty or all-whitespace text, the
    extractive summary is the one-character string ".". *)
Theorem short_fragments_summary_is_period t num_sentences :
  0 < num_sentences ->
  (blank t -> Forall (fun s => len (strip s) <= 20) (Re.split terminators t)) /\
  (Forall (fun s => len (strip s) <= 20) (Re.split terminators t) ->
   extractive_summarization t num_sentences = str ".").
Proof.
  intro Hk; split; [apply blank_fragments_short|].
  intro H; unfold extractive_summarization.
  rewrite (long_sentences_none t H).
  change (len (@nil text)) with 0.
  destruct (Z.leb_spec 0 num_sentences); [reflexivity | lia].
Qed.

Lemma short_fragments_summary_is_period_witness :
  extractive_summarization (str "Pay rent. Keep quiet! ") 3 = str "." /\
  extractive_summarization (str "   ") 3 = str ".".
Proof.
  split.
  - apply (short_fragments_summary_is_period (str "Pay rent. Keep quiet! ") 3); [lia|].
    vm_compute. repeat constructor; discriminate.
  - apply (short_fragments_summary_is_period (str "   ") 3); [lia|].
    apply (short_fragments_summary_is_period (str "   ") 3); [lia | reflexivity].
Defined.

(** C9.  Whatever the text, the summary type and the length, and whether
    the call returns or raises, [generate_summary] leaves the summarizer as
    it found it; in particular [max_length] has its value of before the
    call. *)
Theorem generate_summary_restores_max_length self t summary_type length :
  snd (generate_summary self t summary_type length) = self /\
  max_length (snd (generate_summary self t summary_type length)) = max_length self.
Proof.
  assert (E : snd (generate_summary self t summary_type length) = self).
  { unfold generate_summary.
    destruct (text_eqb length (str "short")); [|destruct (text_eqb length (str "medium"))];
      destruct (text_eqb summary_type (str "extractive"));
      destruct (len (Py.split t) =? 0); destruct self; reflexivity. }
  split; [assumption | now rewrite E].
Qed.

End Summarizer.

(** ** Sorted lists *)

Section SortedFacts.
Context {A : Type}.

Lemma StronglySorted_weaken (R R' : A -> A -> Prop) l :
  (forall a b, R a b -> R' a b) -> StronglySorted R l -> StronglySorted R' l.
Proof.
  intros H; induction 1 as [|a l Hl IH Ha]; constructor; [assumption|].
  eapply Forall_impl; [|exact Ha]. intros; now apply H.
Qed.

Lemma StronglySorted_map_iff {B} (f : B -> A) (R : A -> A -> Prop) l :
  StronglySorted R (map f l) <-> StronglySorted (fun a b => R (f a) (f b)) l.
Proof.
  induction l as [|x l IH]; simpl; split; intro H; try constructor;
    inversion H as [|? ? Hl Hx]; subst.
  - now apply IH.
  - rewrite Forall_map in Hx. assumption.
  - now apply IH.
  - rewrite Forall_map. assumption.
Qed.

Lemma StronglySorted_filter (R : A -> A -> Prop) p l :
  StronglySorted R l -> StronglySorted R (filter p l).
Proof.
  induction 1 as [|a l Hl IH Ha]; simpl; [constructor|].
  destruct (p a); [|assumption]. constructor; [assumption|].
  rewrite Forall_forall in *. intros x Hx. apply filter_In in Hx as [Hx _]. auto.
Qed.

Lemma StronglySorted_firstn (R : A -> A -> Prop) n l :
  StronglySorted R l -> StronglySorted R (firstn n l).
Proof.
  intro H; revert n; induction H as [|a l Hl IH Ha]; intros [|n]; simpl;
    try constructor; [apply IH|].
  rewrite Forall_forall in *. intros x Hx. apply Ha. eapply In_firstn; eassumption.
Qed.

Lemma StronglySorted_snoc (R : A -> A -> Prop) l x :
  StronglySorted R l -> Forall (fun a => R a x) l -> StronglySorted R (l ++ [x]).
Proof.
  induction 1 as [|a l Hl IH Ha]; intro H; simpl; [repeat constructor|].
  inversion H as [|? ? Hax Hlx]; subst. constructor; [now apply IH|].
  apply Forall_app; split; [assumption | now constructor].
Qed.

(** In a sorted list every element of a prefix is related to every element
    of the rest. *)
Lemma StronglySorted_across (R : A -> A -> Prop) l1 l2 x y :
  StronglySorted R (l1 ++ l2) -> In x l1 -> In y l2 -> R x y.
Proof.
  induction l1 as [|a l1 IH]; simpl; [tauto|].
  intros H [->|Hx] Hy; inversion H as [|? ? Hl Ha]; subst.
  - rewrite Forall_forall in Ha. apply Ha, in_or_app; now right.
  - now apply IH.
Qed.

Lemma StronglySorted_NoDup (R : A -> A -> Prop) l :
  (forall a, ~ R a a) -> StronglySorted R l -> NoDup l.
Proof.
  intro Hirr; induction 1 as [|a l Hl IH Ha]; constructor; [|assumption].
  intro Hin. rewrite Forall_forall in Ha. exact (Hirr a (Ha a Hin)).
Qed.

Lemma NoDup_map_distinct {B} (f : A -> B) l :
  NoDup (map f l) -> StronglySorted (fun a b => f a <> f b) l.
Proof.
  induction l as [|a l IH]; simpl; intro H; constructor;
    inversion H as [|? ? Hnotin Hnd]; subst; [now apply IH|].
  apply Forall_forall; intros b Hb E. apply Hnotin. rewrite E. now apply in_map.
Qed.

Lemma NoDup_firstn n (l : list A) : NoDup l -> NoDup (firstn n l).
Proof.
  intro H. rewrite <- (firstn_skipn n l) in H. now apply NoDup_app_remove_r in H.
Qed.

Context (key : A -> Z).

Lemma insert_desc_perm x l : Permutation (x :: l) (insert_desc key x l).
Proof.
  induction l as [|y l IH]; simpl; [reflexivity|].
  destruct (key x <? key y); [|reflexivity].
  rewrite perm_swap. now constructor.
Qed.

Lemma sort_desc_perm l : Permutation l (sort_desc key l).
Proof.
  induction l as [|x l IH]; simpl; [constructor|].
  rewrite <- insert_desc_perm. now constructor.
Qed.

Lemma insert_desc_sorted (R : A -> A -> Prop) x l :
  Forall (R x) l -> StronglySorted (ahead key R) l ->
  StronglySorted (ahead key R) (insert_desc key x l).
Proof.
  intros Hx Hl; induction Hl as [|y l Hl IH Hy]; simpl; [repeat constructor|].
  inversion Hx as [|? ? Hxy Hxl]; subst.
  destruct (Z.ltb_spec (key x) (key y)) as [Hlt|Hge].
  - constructor; [now apply IH|].
    eapply Permutation_Forall; [apply insert_desc_perm|].
    constructor; [left; lia | assumption].
  - constructor; [now constructor|].
    constructor.
    + unfold ahead. destruct (Z.eq_dec (key x) (key y)); [right; auto | left; lia].
    + rewrite Forall_forall in *. intros z Hz.
      specialize (Hy z Hz). specialize (Hxl z Hz).
      unfold ahead in *. destruct (Z.eq_dec (key x) (key z)); [right; auto | left; lia].
Qed.

(** The stable descending sort of a list that is in the order [R] is in
    the order "greater key, or same key and first by [R]". *)
Lemma sort_desc_sorted (R : A -> A -> Prop) l :
  StronglySorted R l -> StronglySorted (ahead key R) (sort_desc key l).
Proof.
  induction 1 as [|x l Hl IH Hx]; simpl; [constructor|].
  apply insert_desc_sorted; [|assumption].
  eapply Permutation_Forall; [apply sort_desc_perm | assumption].
Qed.

End SortedFacts.

Section AscendingSort.
Context {A : Type} (key : A -> Z).

Lemma sort_asc_as_desc l : sort_asc key l = sort_desc (fun x => - key x) l.
Proof.
  induction l as [|x l IH]; simpl; [reflexivity|]. rewrite IH.
  generalize (sort_desc (fun x => - key x) l) as s.
  induction s as [|y s IHs]; simpl; [reflexivity|].
  destruct (Z.ltb_spec (key y) (key x)), (Z.ltb_spec (- key x) (- key y));
    try lia; [now rewrite IHs | reflexivity].
Qed.

Lemma sort_asc_perm l : Permutation l (sort_asc key l).
Proof. rewrite sort_asc_as_desc. apply sort_desc_perm. Qed.

(** The ascending sort of a list with distinct keys is strictly
    increasing. *)
Lemma sort_asc_increasing l :
  NoDup (map key l) -> StronglySorted (fun a b => key a < key b) (sort_asc key l).
Proof.
  intro H. rewrite sort_asc_as_desc.
  eapply StronglySorted_weaken;
    [|apply sort_desc_sorted, (NoDup_map_distinct key l H)].
  unfold ahead; intros a b [Hlt|[Heq Hne]]; [lia|].
  exfalso; apply Hne; lia.
Qed.

End AscendingSort.

(** ** The frequency count *)

Section CounterFacts.
Import KeywordExtraction.

Lemma first_index_app_in a ws l :
  In a ws -> first_index a (ws ++ l) = first_index a ws.
Proof.
  induction ws as [|w ws IH]; simpl; [tauto|].
  destruct (text_eqb w a) eqn:E; [reflexivity|].
  intros [->|H]; [now rewrite text_eqb_refl in E | now rewrite IH].
Qed.

Lemma first_index_lt a ws : In a ws -> (first_index a ws < length ws)%nat.
Proof.
  induction ws as [|w ws IH]; simpl; [tauto|].
  destruct (text_eqb w a) eqn:E; [lia|].
  intros [->|H]; [now rewrite text_eqb_refl in E | apply IH in H; lia].
Qed.

Lemma first_index_app_notin a ws l :
  ~ In a ws -> first_index a (ws ++ a :: l) = length ws.
Proof.
  induction ws as [|w ws IH]; simpl; intro H.
  - now rewrite text_eqb_refl.
  - destruct (text_eqb w a) eqn:E.
    + apply text_eqb_eq in E; subst; tauto.
    + rewrite IH; tauto.
Qed.

Lemma count_up_keys_in w c :
  In w (map fst c) -> map fst (count_up w c) = map fst c.
Proof.
  induction c as [|[k n] c IH]; simpl; [tauto|].
  destruct (text_eqb k w) eqn:E; simpl; [reflexivity|].
  intros [->|H]; [now rewrite text_eqb_refl in E | now rewrite IH].
Qed.

Lemma count_up_keys_notin w c :
  ~ In w (map fst c) -> map fst (count_up w c) = map fst c ++ [w].
Proof.
  induction c as [|[k n] c IH]; simpl; intro H; [reflexivity|].
  destruct (text_eqb k w) eqn:E; simpl.
  - apply text_eqb_eq in E; subst; tauto.
  - rewrite IH; tauto.
Qed.

Lemma Counter_snoc ws w : Counter (ws ++ [w]) = count_up w (Counter ws).
Proof. unfold Counter; now rewrite fold_left_app. Qed.

Lemma In_text_dec (a : text) l : In a l \/ ~ In a l.
Proof.
  destruct (mem a l) eqn:E; [left; now apply mem_In|].
  right; intro H; apply mem_In in H; congruence.
Qed.

(** The order of first occurrence among [ws] is kept when words are added
    after [ws]. *)
Lemma first_index_order_extends ws l ks :
  Forall (fun k => In k ws) ks ->
  StronglySorted (fun a b => (first_index a ws < first_index b ws)%nat) ks ->
  StronglySorted (fun a b => (first_index a (ws ++ l) < first_index b (ws ++ l))%nat) ks.
Proof.
  intros Hsub Hs; induction Hs as [|a ks Hks IH Ha]; constructor;
    inversion Hsub as [|? ? Ha_in Hks_in]; subst; [now apply IH|].
  rewrite Forall_forall in *. intros b Hb.
  rewrite !first_index_app_in by auto. auto.
Qed.

(** The keys of the count are the words counted, each once, in the order
    of their first occurrence. *)
Lemma Counter_keys ws :
  (forall k, In k (map fst (Counter ws)) <-> In k ws) /\
  StronglySorted (fun a b => (first_index a ws < first_index b ws)%nat)
                 (map fst (Counter ws)).
Proof.
  induction ws as [|w ws [IHin IHs]] using rev_ind.
  - split; [intro k; simpl; tauto | constructor].
  - rewrite Counter_snoc.
    assert (Hsub : Forall (fun k => In k ws) (map fst (Counter ws)))
      by (apply Forall_forall; intros k Hk; now apply IHin).
    destruct (In_text_dec w (map fst (Counter ws))) as [Hw|Hw].
    + rewrite count_up_keys_in by assumption. split.
      * intro k; rewrite IHin, in_app_iff; simpl.
        split; [tauto|]. intros [H|[<-|[]]]; [assumption | now apply IHin].
      * now apply first_index_order_extends.
    + rewrite count_up_keys_notin by assumption. split.
      * intro k; rewrite !in_app_iff, IHin; simpl; tauto.
      * assert (Hnotin : ~ In w ws) by (now rewrite <- IHin).
        apply StronglySorted_snoc; [now apply first_index_order_extends|].
        apply Forall_forall; intros a Ha. apply IHin in Ha.
        rewrite first_index_app_in by assumption.
        rewrite first_index_app_notin by assumption.
        now apply first_index_lt.
Qed.

Lemma scored_keywords_terms t min_freq :
  map term (scored_keywords t min_freq) =
  map fst (filter (fun wf => min_freq <=? snd wf) (Counter (filtered_words t))).
Proof.
  unfold scored_keywords. rewrite map_map. reflexivity.
Qed.

(** Before the sort the keywords are in the order in which their terms were
    first met, and every term is one of the words counted. *)
Lemma scored_keywords_order t min_freq :
  StronglySorted
    (fun a b => (first_index (term a) (filtered_words t)
                 < first_index (term b) (filtered_words t))%nat)
    (scored_keywords t min_freq) /\
  Forall (fun k => In (term k) (filtered_words t)) (scored_keywords t min_freq).
Proof.
  destruct (Counter_keys (filtered_words t)) as [Hin Hs].
  split.
  - unfold scored_keywords.
    apply (StronglySorted_map_iff make_keyword
             (fun a b => (first_index (term a) (filtered_words t)
                          < first_index (term b) (filtered_words t))%nat)).
    apply StronglySorted_filter.
    now apply (StronglySorted_map_iff fst
                 (fun a b => (first_index a (filtered_words t)
                              < first_index b (filtered_words t))%nat)).
  - apply Forall_forall; intros k Hk.
    apply Hin. apply (in_map term) in Hk.
    rewrite scored_keywords_terms in Hk.
    apply in_map_iff in Hk as (wf & <- & Hwf).
    apply filter_In in Hwf as [Hwf _]. now apply in_map.
Qed.

End CounterFacts.

(** ** Ranking of the keywords *)

Section KeywordRanking.
Import KeywordExtraction.

(** C6.  For a positive limit, the keywords returned are in non-increasing
    order of score; of two keywords with the same score the one returned
    first is the one whose term was met first among the counted words; there
    are at most [max_keywords] of them, and no two have the same term. *)
Theorem keywords_ranked_by_score t min_freq max_keywords :
  0 < max_keywords ->
  let ws := filtered_words t in
  let ks := extract_statistical_keywords t min_freq max_keywords in
  StronglySorted (fun a b => score a >= score b) ks /\
  StronglySorted (fun a b => score a = score b ->
                    (first_index (term a) ws < first_index (term b) ws)%nat) ks /\
  Forall (fun k => In (term k) ws) ks /\
  len ks <= max_keywords /\
  NoDup (map term ks).
Proof.
  intros Hmax ws ks; subst ws ks. unfold extract_statistical_keywords.
  rewrite slice_to_firstn by lia.
  destruct (scored_keywords_order t min_freq) as [Horder Hin].
  pose proof (sort_desc_sorted score _ _ Horder) as Hs.
  pose proof (sort_desc_perm score (scored_keywords t min_freq)) as Hperm.
  apply (StronglySorted_firstn _ (Z.to_nat max_keywords)) in Hs.
  repeat split.
  - eapply StronglySorted_weaken; [|exact Hs].
    unfold ahead; intros a b [H|[H _]]; lia.
  - eapply StronglySorted_weaken; [|exact Hs].
    unfold ahead; intros a b [H|[_ H]] E; [lia | assumption].
  - apply Forall_forall; intros k Hk. apply In_firstn in Hk.
    rewrite Forall_forall in Hin. apply Hin.
    eapply Permutation_in; [symmetry; exact Hperm | assumption].
  - unfold len. pose proof (firstn_le_length (Z.to_nat max_keywords)
                              (sort_desc score (scored_keywords t min_freq))). lia.
  - rewrite <- firstn_map. apply NoDup_firstn.
    eapply Permutation_NoDup; [apply Permutation_map; exact Hperm|].
    apply (StronglySorted_NoDup
             (fun a b => (first_index a (filtered_words t)
                          < first_index b (filtered_words t))%nat)).
    + intros a; lia.
    + now apply StronglySorted_map_iff.
Qed.

Lemma keywords_ranked_by_score_witness :
  let t := str "The rent is due; the tenant shall pay rent, the landlord shall agree." in
  let ws := filtered_words t in
  let ks := extract_statistical_keywords t 1 3 in
  StronglySorted (fun a b => score a >= score b) ks /\
  StronglySorted (fun a b => score a = score b ->
                    (first_index (term a) ws < first_index (term b) ws)%nat) ks /\
  Forall (fun k => In (term k) ws) ks /\
  len ks <= 3 /\
  NoDup (map term ks).
Proof.
  apply (keywords_ranked_by_score
           (str "The rent is due; the tenant shall pay rent, the landlord shall agree.") 1 3).
  lia.
Defined.

End KeywordRanking.

(** ** Selection of the sentences *)

Section SentenceSelection.
Import Summarization.

Lemma enumerate_from_length {A} (l : list A) : forall i,
  length (enumerate_from i l) = length l.
Proof. induction l as [|x l IH]; intro i; simpl; [reflexivity | now rewrite IH]. Qed.

Lemma enumerate_from_nth {A} (l : list A) : forall i p,
  In p (enumerate_from i l) ->
  i <= fst p /\ nth_error l (Z.to_nat (fst p - i)) = Some (snd p).
Proof.
  induction l as [|x l IH]; intros i p; simpl; [tauto|].
  intros [<-|H]; simpl.
  - rewrite Z.sub_diag; simpl. split; [lia | reflexivity].
  - apply IH in H as [Hle Hnth]. split; [lia|].
    replace (Z.to_nat (fst p - i)) with (S (Z.to_nat (fst p - (i + 1)))) by lia.
    exact Hnth.
Qed.

Lemma enumerate_from_sorted {A} (l : list A) : forall i,
  StronglySorted (fun p q => fst p < fst q) (enumerate_from i l).
Proof.
  induction l as [|x l IH]; intro i; simpl; constructor; [apply IH|].
  apply Forall_forall; intros p Hp. apply enumerate_from_nth in Hp as [Hle _].
  simpl; lia.
Qed.

Lemma sentence_scores_length sentences :
  length (sentence_scores sentences) = length sentences.
Proof. unfold sentence_scores. now rewrite length_map, enumerate_from_length. Qed.

(** The triples are in the order of the sentences, and the index of a
    triple is the position of its sentence. *)
Lemma sentence_scores_sorted sentences :
  StronglySorted (fun a b => sc_index a < sc_index b) (sentence_scores sentences).
Proof.
  unfold sentence_scores.
  apply (StronglySorted_map_iff
           (fun p : Z * text => (snd p, sentence_score (snd p), fst p))
           (fun a b => sc_index a < sc_index b)).
  apply enumerate_from_sorted.
Qed.

Lemma sentence_scores_positions sentences :
  Forall (fun x =>
            0 <= sc_index x /\
            nth_error sentences (Z.to_nat (sc_index x)) = Some (sc_sentence x) /\
            sc_score x = sentence_score (sc_sentence x))
         (sentence_scores sentences).
Proof.
  unfold sentence_scores. apply Forall_forall; intros x Hx.
  apply in_map_iff in Hx as (p & <- & Hp).
  apply enumerate_from_nth in Hp as [Hle Hnth].
  unfold sc_index, sc_sentence, sc_score; simpl.
  rewrite Z.sub_0_r in Hnth. auto.
Qed.

Lemma sentence_scores_distinct sentences :
  NoDup (map sc_index (sentence_scores sentences)).
Proof.
  apply (StronglySorted_NoDup (fun a b => a < b)); [intro; lia|].
  apply StronglySorted_map_iff, sentence_scores_sorted.
Qed.

(** C7.  When more sentences survive than the positive target asks for,
    the summary joins exactly [num_sentences] of the scored sentences; each
    of them is ahead of each sentence left out (a greater score, or the same
    score and an earlier position); and they stand in the summary in
    increasing order of their original position. *)
Theorem extractive_selects_top_sentences t num_sentences :
  0 < num_sentences -> num_sentences < len (long_sentences t) ->
  let all := sentence_scores (long_sentences t) in
  let sel := selected_sentences (long_sentences t) num_sentences in
  extractive_summarization t num_sentences
    = join (str ". ") (map sc_sentence sel) ++ str "." /\
  len sel = num_sentences /\
  (forall x, In x sel -> In x all) /\
  (forall x y, In x sel -> In y all -> ~ In y sel ->
     ahead sc_score (fun a b => sc_index a < sc_index b) x y) /\
  StronglySorted (fun a b => sc_index a < sc_index b) sel /\
  Forall (fun x =>
            0 <= sc_index x /\
            nth_error (long_sentences t) (Z.to_nat (sc_index x)) = Some (sc_sentence x) /\
            sc_score x = sentence_score (sc_sentence x)) all.
Proof.
  intros Hpos Hlt all sel; subst all sel.
  set (ss := long_sentences t) in *.
  unfold selected_sentences. rewrite slice_to_firstn by lia.
  set (by_score := sort_desc sc_score (sentence_scores ss)).
  set (top := firstn (Z.to_nat num_sentences) by_score).
  assert (Hperm : Permutation (sentence_scores ss) by_score)
    by apply sort_desc_perm.
  assert (Hsel : Permutation top (sort_asc sc_index top)) by apply sort_asc_perm.
  assert (Hsorted : StronglySorted (ahead sc_score (fun a b => sc_index a < sc_index b)) by_score)
    by apply sort_desc_sorted, sentence_scores_sorted.
  repeat split.
  - unfold extractive_summarization. fold ss.
    destruct (Z.leb_spec (len ss) num_sentences); [lia|].
    unfold selected_sentences. rewrite slice_to_firstn by lia. reflexivity.
  - unfold len. rewrite <- (Permutation_length Hsel). unfold top.
    rewrite firstn_length_le; [lia|].
    rewrite <- (Permutation_length Hperm), sentence_scores_length.
    unfold len in Hlt; lia.
  - intros x Hx. eapply Permutation_in; [symmetry; exact Hperm|].
    apply (In_firstn (Z.to_nat num_sentences)).
    eapply Permutation_in; [symmetry; exact Hsel | exact Hx].
  - intros x y Hx Hy Hny.
    assert (Hx' : In x top) by (eapply Permutation_in; [symmetry; exact Hsel | exact Hx]).
    assert (Hy' : In y (skipn (Z.to_nat num_sentences) by_score)).
    { assert (Hyb : In y by_score) by (eapply Permutation_in; eassumption).
      rewrite <- (firstn_skipn (Z.to_nat num_sentences) by_score) in Hyb.
      apply in_app_or in Hyb as [Hyb|Hyb]; [|assumption].
      exfalso; apply Hny. eapply Permutation_in; [exact Hsel | exact Hyb]. }
    rewrite <- (firstn_skipn (Z.to_nat num_sentences) by_score) in Hsorted.
    eapply StronglySorted_across; eassumption.
  - apply sort_asc_increasing. unfold top. rewrite <- firstn_map.
    apply NoDup_firstn.
    eapply Permutation_NoDup; [apply Permutation_map; exact Hperm|].
    apply sentence_scores_distinct.
  - apply sentence_scores_positions.
Qed.

End SentenceSelection.

Lemma extractive_selects_top_sentences_witness :
  let t := str "The tenant shall pay the landlord on time. Nothing of note is said in this one. This agreement binds the parties for 12 months." in
  let all := Summarization.sentence_scores (Summarization.long_sentences t) in
  let sel := Summarization.selected_sentences (Summarization.long_sentences t) 2 in
  Summarization.extractive_summarization t 2
    = join (str ". ") (map Summarization.sc_sentence sel) ++ str "." /\
  len sel = 2 /\
  (forall x, In x sel -> In x all) /\
  (forall x y, In x sel -> In y all -> ~ In y sel ->
     ahead Summarization.sc_score
           (fun a b => Summarization.sc_index a < Summarization.sc_index b) x y) /\
  StronglySorted (fun a b => Summarization.sc_index a < Summarization.sc_index b) sel /\
  Forall (fun x =>
            0 <= Summarization.sc_index x /\
            nth_error (Summarization.long_sentences t) (Z.to_nat (Summarization.sc_index x))
              = Some (Summarization.sc_sentence x) /\
            Summarization.sc_score x
              = Summarization.sentence_score (Summarization.sc_sentence x)) all.
Proof.
  apply (extractive_selects_top_sentences
           (str "The tenant shall pay the landlord on time. Nothing of note is said in this one. This agreement binds the parties for 12 months.") 2).
  - lia.
  - vm_compute; reflexivity.
Defined.

(** ** The models on the scenarios of the specification *)

Example ten_words_four_chunks :
  match TextChunking.process_document
          {| TextChunking.chunk_size := 4; TextChunking.overlap := 1;
             TextChunking.method := str "words" |}
          (str "a b c d e f g h i j") with
  | Ok l => map (fun c => (TextChunking.start_index c, TextChunking.word_count c)) l
  | Raise _ => []
  end = [(0, 4); (3, 4); (6, 4); (9, 1)].
Proof. vm_compute; reflexivity. Qed.

Example three_sentences_unchanged :
  Summarization.extractive_summarization
    (str "The tenant shall pay the rent. The landlord shall keep the roof. Both parties sign this lease.") 5
  = str "The tenant shall pay the rent. The landlord shall keep the roof. Both parties sign this lease.".
Proof. vm_compute; reflexivity. Qed.

Example two_best_sentences_in_order :
  Summarization.extractive_summarization
    (str "The tenant shall pay the landlord on time. Nothing of note is said in this one. This agreement binds the parties for 12 months.") 2
  = str "The tenant shall pay the landlord on time. This agreement binds the parties for 12 months.".
Proof. vm_compute; reflexivity. Qed.

Example long_trigger_is_returned_alone :
  KeywordExtraction.extract_key_phrases
    (str "The tenant SHALL be responsible for all repairs of the premises.") 20
  = [str "SHALL be responsible for"].
Proof. vm_compute; reflexivity. Qed.

(** ** What the phrase matcher returns *)

Section MatchWidth.

Lemma width_weaken r n n' : (n <= n')%nat -> width r n -> width r n'.
Proof. intros Hle H c m Hm. specialize (H c m Hm). lia. Qed.

Lemma width_chr p : width (Chr p) 1.
Proof.
  intros c m Hm; simpl in Hm. destruct (rest c) as [|a t]; [destruct Hm|].
  destruct (p a); [|destruct Hm]. destruct Hm as [<-|[]]; simpl; lia.
Qed.

Lemma width_seq r1 r2 n1 n2 : width r1 n1 -> width r2 n2 -> width (Seq r1 r2) (n1 + n2).
Proof.
  intros H1 H2 c m; simpl. rewrite in_flat_map.
  intros (m1 & Hm1 & Hm). apply in_map_iff in Hm as (m2 & <- & Hm2).
  specialize (H1 c m1 Hm1). specialize (H2 (fst m1) m2 Hm2). simpl; lia.
Qed.

Lemma width_alt r1 r2 n : width r1 n -> width r2 n -> width (Alt r1 r2) n.
Proof.
  intros H1 H2 c m; simpl. rewrite in_app_iff. intros [H|H]; auto.
Qed.

Lemma width_seqs_chr ps : width (seqs (map Chr ps)) (length ps).
Proof.
  induction ps as [|p ps IH]; simpl.
  - intros c m [<-|[]]; simpl; lia.
  - destruct ps as [|q ps]; [apply width_chr|].
    apply (width_seq (Chr p) _ 1); [apply width_chr | exact IH].
Qed.

Lemma width_lit_ci s : width (lit_ci s) (String.length s).
Proof.
  unfold lit_ci. rewrite <- map_map with (g := Chr).
  eapply width_weaken; [|apply width_seqs_chr].
  rewrite length_map. unfold str.
  induction s; simpl; lia.
Qed.

Lemma width_alts rs n : Forall (fun r => width r n) rs -> width (alts rs) n.
Proof.
  induction 1 as [|r rs Hr Hrs IH]; simpl.
  - intros c m Hm; simpl in Hm. destruct (rest c); destruct Hm.
  - destruct rs; [assumption | now apply width_alt].
Qed.

Lemma width_triggers (triggers : list string) n :
  forallb (fun s => (String.length s <=? n)%nat) triggers = true ->
  width (alts (map lit_ci triggers)) n.
Proof.
  intro H. apply width_alts. rewrite forallb_forall in H.
  apply Forall_forall; intros r Hr. apply in_map_iff in Hr as (s & <- & Hs).
  eapply width_weaken; [|apply width_lit_ci].
  apply Nat.leb_le. now apply H.
Qed.

(** A pattern without a group reports no group. *)
Lemma run_groupless r : has_group r = false ->
  forall c m, In m (run r c) -> snd m = None.
Proof.
  induction r as [|p|r1 IH1 r2 IH2|r1 IH1 r2 IH2|r1 IH1| | |r1 IH1];
    simpl; intros Hg c m.
  - intros [<-|[]]; reflexivity.
  - intro Hm. destruct (rest c) as [|a t]; [destruct Hm|].
    destruct (p a); [|destruct Hm]. destruct Hm as [<-|[]]; reflexivity.
  - apply orb_false_iff in Hg as [Hg1 Hg2]. rewrite in_flat_map.
    intros (m1 & Hm1 & Hm). apply in_map_iff in Hm as (m2 & <- & Hm2).
    simpl. rewrite (IH2 Hg2 _ _ Hm2), (IH1 Hg1 _ _ Hm1). reflexivity.
  - apply orb_false_iff in Hg as [Hg1 Hg2]. rewrite in_app_iff.
    intros [H|H]; eauto.
  - generalize (length (rest c)) as fuel. intro fuel; revert c m.
    induction fuel as [|k IHk]; intros c m.
    + intros [<-|[]]; reflexivity.
    + rewrite in_app_iff, in_flat_map. intros [(m1 & Hm1 & Hm)|[<-|[]]]; [|reflexivity].
      destruct (length (rest (fst m1)) <? length (rest c))%nat; [|destruct Hm].
      apply in_map_iff in Hm as (m2 & <- & Hm2). simpl.
      rewrite (IHk _ _ Hm2), (IH1 Hg _ _ Hm1). reflexivity.
  - destruct (at_boundary c); intro Hm;
      [destruct Hm as [<-|[]]; reflexivity | destruct Hm].
  - destruct (at_end c); intro Hm;
      [destruct Hm as [<-|[]]; reflexivity | destruct Hm].
  - discriminate.
Qed.

End MatchWidth.

Section PhraseMatcher.
Import KeywordExtraction.

Lemma clause_shape triggers :
  clause triggers =
  Seq Bound
    (Seq (Group (alts (map lit_ci triggers)))
         (Seq Bound (Seq (Star (Chr (fun c => negb (isterm c)))) (Chr isterm)))).
Proof. reflexivity. Qed.

(** Every match of a clause pattern reports a group, and the group is no
    longer than the longest trigger. *)
Lemma clause_group triggers n :
  forallb (fun s => (String.length s <=? n)%nat) triggers = true ->
  forall c m, In m (run (clause triggers) c) ->
  exists g, snd m = Some g /\ (length g <= n)%nat.
Proof.
  intros Hn c m. rewrite clause_shape.
  set (tail := Seq Bound (Seq (Star (Chr (fun c => negb (isterm c)))) (Chr isterm))).
  assert (Htail : has_group tail = false) by reflexivity.
  pose proof (width_triggers triggers n Hn) as Hw.
  change (run (Seq Bound (Seq (Group (alts (map lit_ci triggers))) tail)) c)
    with (flat_map (fun m1 =>
            map (fun m2 => (fst m2, later (snd m2) (snd m1)))
                (run (Seq (Group (alts (map lit_ci triggers))) tail) (fst m1)))
            (run Bound c)).
  rewrite in_flat_map. intros (m0 & Hm0 & Hm).
  assert (E0 : m0 = (c, None)).
  { simpl in Hm0. destruct (at_boundary c); [|destruct Hm0].
    destruct Hm0 as [<-|[]]; reflexivity. }
  subst m0. apply in_map_iff in Hm as (m2 & <- & Hm2).
  change (run (Seq (Group (alts (map lit_ci triggers))) tail) (fst (c, @None text)))
    with (flat_map (fun m1 =>
            map (fun m3 => (fst m3, later (snd m3) (snd m1))) (run tail (fst m1)))
            (map (fun mA =>
                    (fst mA,
                     Some (firstn (length (rest c) - length (rest (fst mA))) (rest c))))
                 (run (alts (map lit_ci triggers)) c))) in Hm2.
  rewrite in_flat_map in Hm2. destruct Hm2 as (m1 & Hm1 & Hm2).
  apply in_map_iff in Hm1 as (mA & <- & HmA).
  apply in_map_iff in Hm2 as (m3 & <- & Hm3).
  rewrite (run_groupless tail Htail _ _ Hm3). simpl.
  eexists; split; [reflexivity|].
  specialize (Hw c mA HmA). rewrite length_firstn. lia.
Qed.

Lemma scan_hits r s : forall k prev whole grp,
  In (Hit whole grp) (scan r k prev s) ->
  exists c m, In m (run r c) /\ snd m = grp.
Proof.
  induction s as [|a s IH]; intros k prev whole grp; cbn [scan]; [intros []|].
  destruct k as [|k]; [|apply IH].
  destruct (match_at r {| before := prev; rest := a :: s |}) as [[c1 g]|] eqn:E.
  - destruct (length (a :: s) - length (rest c1))%nat; cbn [In].
    + intros [H|H]; [discriminate | eapply IH; eassumption].
    + intros [H|H]; [|eapply IH; eassumption].
      injection H as _ <-.
      exists {| before := prev; rest := a :: s |}, (c1, g). split; [|reflexivity].
      unfold match_at in E. destruct (run r _) as [|m0 ms]; [discriminate|].
      injection E as ->. now left.
  - cbn [In]. intros [H|H]; [discriminate | eapply IH; eassumption].
Qed.

Lemma findall_clause triggers n t m :
  forallb (fun s => (String.length s <=? n)%nat) triggers = true ->
  In m (findall (clause triggers) t) -> (length m <= n)%nat.
Proof.
  intros Hn; unfold findall. rewrite in_flat_map.
  intros ([a|whole grp] & Hp & Hm); [destruct Hm|].
  change (has_group (clause triggers)) with true in Hm.
  destruct Hm as [<-|[]].
  apply scan_hits in Hp as (c & m0 & Hm0 & <-).
  destruct (clause_group triggers n Hn c m0 Hm0) as (g & -> & Hg). exact Hg.
Qed.

Lemma scan_sub_length r s : forall k prev,
  (length (flat_map (fun p => match p with Lit a => [a] | Hit _ _ => [] end)
                    (scan r k prev s)) <= length s)%nat.
Proof.
  induction s as [|a s IH]; intros k prev; cbn [scan]; [simpl; lia|].
  destruct k as [|k]; [|specialize (IH k (Some a)); simpl; lia].
  destruct (match_at r _) as [[c1 g]|].
  - destruct (length (a :: s) - length (rest c1))%nat as [|j]; simpl.
    + specialize (IH 0%nat (Some a)); lia.
    + specialize (IH j (Some a)); lia.
  - simpl. specialize (IH 0%nat (Some a)); lia.
Qed.

Lemma sub_empty_length r s : (length (Re.sub r [] s) <= length s)%nat.
Proof. apply scan_sub_length. Qed.

Lemma lstrip_length s : (length (lstrip s) <= length s)%nat.
Proof.
  induction s as [|a s IH]; simpl; [lia|]. destruct (isspace a); simpl; lia.
Qed.

Lemma strip_length s : (length (strip s) <= length s)%nat.
Proof.
  unfold strip, rstrip.
  pose proof (lstrip_length (rev (lstrip (rev s)))) as H1.
  pose proof (lstrip_length (rev s)) as H2.
  rewrite length_rev in *. lia.
Qed.

Lemma unique_go_incl l : forall seen x, In x (unique_go seen l) -> In x l.
Proof.
  induction l as [|y l IH]; intros seen x; simpl; [tauto|].
  destruct (mem y seen); [right; eauto|].
  intros [->|H]; [now left | right; eauto].
Qed.

Lemma patterns_triggers_short :
  Forall (fun p => exists triggers,
            p = clause triggers /\
            forallb (fun s => (String.length s <=? 24)%nat) triggers = true)
         patterns.
Proof. repeat constructor; eexists; split; reflexivity. Qed.

(** C1, on the code.  [re.findall] on a pattern with one capturing group
    returns the group, here the trigger, and not the match.  So for every
    text a returned phrase has between 20 and 24 characters, 24 being the
    length of the longest trigger: a clause that runs on after its trigger
    is never returned.  On the scenario text the three matches give
    "Subject to", "the tenant shall" and "shall pay", and the result is
    empty. *)
Theorem phrase_matcher_returns_triggers_only :
  (forall t max_phrases p,
     In p (extract_key_phrases t max_phrases) -> 20 <= len p <= 24) /\
  let t := str "Subject to the terms herein, the tenant shall pay rent." in
  flat_map (fun pattern => findall pattern t) patterns
    = [str "Subject to"; str "the tenant shall"; str "shall pay"] /\
  forall max_phrases, extract_key_phrases t max_phrases = [].
Proof.
  split.
  - intros t max_phrases p Hp. unfold extract_key_phrases in Hp.
    apply slice_incl, unique_go_incl in Hp.
    apply in_flat_map in Hp as (pattern & Hpat & Hp).
    pose proof patterns_triggers_short as Hshort. rewrite Forall_forall in Hshort.
    destruct (Hshort pattern Hpat) as (triggers & -> & Hn).
    unfold phrases_of in Hp. apply in_flat_map in Hp as (m & Hm & Hp).
    apply (findall_clause triggers 24 t m Hn) in Hm.
    destruct (Z.leb_spec 20 (len (Re.sub trailing_terminators [] (strip m))));
      simpl in Hp; [|destruct Hp].
    destruct (len (Re.sub trailing_terminators [] (strip m)) <=? 200);
      [|destruct Hp].
    destruct Hp as [<-|[]]. split; [assumption|].
    pose proof (sub_empty_length trailing_terminators (strip m)).
    pose proof (strip_length m). unfold len in *. lia.
  - cbv zeta; split; [vm_compute; reflexivity|].
    intro max_phrases; unfold extract_key_phrases.
    assert (E : flat_map (fun pattern =>
                   phrases_of pattern
                     (str "Subject to the terms herein, the tenant shall pay rent."))
                  patterns = []) by (vm_compute; reflexivity).
    rewrite E. apply slice_to_nil.
Qed.

Lemma phrase_matcher_returns_triggers_only_witness :
  20 <= len (str "SHALL be responsible for") <= 24.
Proof.
  apply (proj1 phrase_matcher_returns_triggers_only
           (str "The tenant SHALL be responsible for all repairs of the premises.")
           20 (str "SHALL be responsible for")).
  vm_compute. left; reflexivity.
Defined.

End PhraseMatcher.

(** During an abstractive call the pipeline is given the length of the
    tier, not the configured one; the object it is read from is restored
    afterwards. *)
Example tier_length_reaches_the_pipeline :
  let self := {| Summarization.model_name := str "facebook/bart-large-cnn";
                 Summarization.max_length := 150;
                 Summarization.summarizer :=
                   Some (fun _ m _ => Some (if m =? 80 then str "eighty" else str "other")) |} in
  let r := Summarization.generate_summary self
             (str "The tenant shall pay the rent to the landlord on the first day of each month.")
             (str "abstractive") (str "short") in
  match fst r with
  | Ok s => Summarization.summary s = str "eighty"
  | Raise _ => False
  end /\
  Summarization.max_length (snd r) = 150.
Proof. vm_compute. split; reflexivity. Qed.

(** * Further properties *)

(** ** The layout of the chunks *)

Section WindowsLayout.
Import TextChunking.
Context {U : Type} (self : TextChunker) (us : list U).
Context (emit : list Chunk -> Z -> list U -> option Chunk).

(** The identifiers count the chunks emitted, whatever windows are dropped. *)
Lemma fold_emit_ids idxs : forall acc,
  (forall chunks i w c, emit chunks i w = Some c -> id c = len chunks + 1) ->
  (forall k c, nth_error acc k = Some c -> id c = Z.of_nat k + 1) ->
  forall k c,
    nth_error (fold_left (fun chunks i =>
                 match emit chunks i (slice us i (i + chunk_size self)) with
                 | Some c => chunks ++ [c]
                 | None => chunks
                 end) idxs acc) k = Some c ->
    id c = Z.of_nat k + 1.
Proof.
  induction idxs as [|i idxs IH]; intros acc Hemit Hacc; simpl; [exact Hacc|].
  apply IH; [assumption|].
  destruct (emit acc i _) as [c0|] eqn:E; [|exact Hacc].
  intros k c Hk.
  destruct (Nat.lt_ge_cases k (length acc)) as [Hlt|Hge].
  - rewrite nth_error_app1 in Hk by assumption. now apply Hacc.
  - rewrite nth_error_app2 in Hk by assumption.
    destruct (k - length acc)%nat as [|j] eqn:Ej; simpl in Hk.
    + injection Hk as <-. rewrite (Hemit _ _ _ _ E). unfold len; lia.
    + destruct j; discriminate.
Qed.

Lemma windows_ids l :
  (forall chunks i w c, emit chunks i w = Some c -> id c = len chunks + 1) ->
  windows self us emit = Ok l ->
  forall k c, nth_error l k = Some c -> id c = Z.of_nat k + 1.
Proof.
  intros Hemit; unfold windows.
  destruct (range 0 (len us) (chunk_size self - overlap self)); [|discriminate].
  intro H; injection H as <-. apply fold_emit_ids; [assumption|].
  intros k c Hk; destruct k; discriminate.
Qed.

(** When no window is dropped, the chunk at position [k] is the one emitted
    for the [k]-th index, after the chunks before it. *)
Lemma fold_emit_nth idxs : forall acc,
  Forall (fun i => forall chunks,
            emit chunks i (slice us i (i + chunk_size self)) <> None) idxs ->
  exists new,
    fold_left (fun chunks i =>
                 match emit chunks i (slice us i (i + chunk_size self)) with
                 | Some c => chunks ++ [c]
                 | None => chunks
                 end) idxs acc = acc ++ new /\
    length new = length idxs /\
    forall k i, nth_error idxs k = Some i ->
      exists c, nth_error new k = Some c /\
                emit (acc ++ firstn k new) i (slice us i (i + chunk_size self)) = Some c.
Proof.
  induction idxs as [|i idxs IH]; intros acc H; simpl.
  - exists []; rewrite app_nil_r. repeat split. intros [|k] j Hk; discriminate.
  - inversion H as [|? ? Hi Hrest]; subst.
    destruct (emit acc i _) as [c0|] eqn:E; [|now apply Hi in E].
    destruct (IH (acc ++ [c0]) Hrest) as (new & Hfold & Hlen & Hnth).
    exists (c0 :: new). rewrite Hfold, <- app_assoc. simpl.
    repeat split; [now rewrite Hlen|].
    intros [|k] j Hk; simpl in Hk.
    + injection Hk as <-. exists c0; simpl. now rewrite app_nil_r.
    + destruct (Hnth k j Hk) as (c & Hc & Hemit).
      exists c; simpl. rewrite <- app_assoc in Hemit. auto.
Qed.

Lemma windows_layout :
  chunk_size self <> overlap self ->
  (forall chunks i, 0 <= i < len us ->
     emit chunks i (slice us i (i + chunk_size self)) <> None) ->
  exists l,
    windows self us emit = Ok l /\
    length l = range_len 0 (len us) (chunk_size self - overlap self) /\
    forall k c, nth_error l k = Some c ->
      emit (firstn k l) (Z.of_nat k * (chunk_size self - overlap self))
           (slice us (Z.of_nat k * (chunk_size self - overlap self))
                     (Z.of_nat k * (chunk_size self - overlap self) + chunk_size self))
      = Some c.
Proof.
  intros Hstep Hemit; unfold windows.
  destruct (range 0 (len us) (chunk_size self - overlap self)) as [idxs|] eqn:E;
    [|unfold range in E;
      destruct (Z.eqb_spec (chunk_size self - overlap self) 0); [lia | discriminate]].
  assert (Hall : Forall (fun i => forall chunks,
                    emit chunks i (slice us i (i + chunk_size self)) <> None) idxs).
  { pose proof (range_items _ _ _ (len_nonneg us) E) as Hin.
    eapply Forall_impl; [|exact Hin]. intros i Hi chunks; now apply Hemit. }
  destruct (fold_emit_nth idxs [] Hall) as (new & Hfold & Hlen & Hnth).
  simpl in Hfold. exists new. split; [now rewrite Hfold|].
  split; [rewrite Hlen; now apply range_length|].
  intros k c Hk.
  assert (Hklt : (k < length idxs)%nat)
    by (rewrite <- Hlen; apply nth_error_Some; congruence).
  unfold range in E.
  destruct (chunk_size self - overlap self =? 0); [discriminate|].
  injection E as E.
  assert (Hi : nth_error idxs k = Some (Z.of_nat k * (chunk_size self - overlap self))).
  { rewrite <- E in *. rewrite length_map, length_seq in Hklt.
    rewrite nth_error_map, nth_error_seq.
    destruct (Nat.ltb_spec k (range_len 0 (len us) (chunk_size self - overlap self)));
      [reflexivity | lia]. }
  destruct (Hnth k _ Hi) as (c' & Hc' & Hemit'). simpl in Hemit'.
  rewrite Hk in Hc'. injection Hc' as <-. exact Hemit'.
Qed.

End WindowsLayout.

Section ChunkLayout.
Import TextChunking.

Lemma slice_len {A} (l : list A) i size :
  0 <= i <= len l -> 0 <= size ->
  len (slice l i (i + size)) = Z.min (i + size) (len l) - i.
Proof.
  intros Hi Hs; unfold slice, clamp.
  destruct (Z.ltb_spec i 0); [lia|]. destruct (Z.ltb_spec (i + size) 0); [lia|].
  rewrite (Z.min_l i) by lia. unfold len at 1.
  rewrite length_firstn, length_skipn. unfold len in *. lia.
Qed.

Lemma slice_len_between {A} (l : list A) i j :
  0 <= i <= j -> j <= len l -> len (slice l i j) = j - i.
Proof.
  intros Hi Hj. replace j with (i + (j - i)) at 1 by lia.
  rewrite slice_len by lia. lia.
Qed.

Lemma slice_min {A} (l : list A) i j :
  0 <= j -> slice l i j = slice l i (Z.min j (len l)).
Proof.
  intro Hj; unfold slice, clamp. pose proof (len_nonneg l).
  destruct (Z.ltb_spec j 0); [lia|].
  destruct (Z.ltb_spec (Z.min j (len l)) 0); [lia|].
  now rewrite <- Z.min_assoc, Z.min_id.
Qed.

Lemma range_len_bound n step k :
  0 < step -> (k < range_len 0 n step)%nat -> 0 <= Z.of_nat k * step < n.
Proof.
  intros Hs Hk. destruct (Z_lt_le_dec 0 n) as [Hn|Hn].
  - rewrite range_len_forward in Hk by lia.
    assert (0 <= (n - 1) / step) by (apply Z.div_pos; lia).
    assert (Z.of_nat k <= (n - 1) / step) by lia.
    pose proof (Z.mul_div_le (n - 1) step Hs). nia.
  - exfalso. unfold range_len in Hk. revert Hk.
    destruct (Z.ltb_spec 0 n); [lia|]. destruct (Z.ltb_spec step 0); [lia|].
    rewrite andb_false_r; simpl. lia.
Qed.

Lemma joined_words us : joined (str "words") us = join (str " ") us.
Proof. reflexivity. Qed.

Lemma joined_sentences us : joined (str "sentences") us = join (str ". ") us ++ str ".".
Proof. reflexivity. Qed.

Lemma joined_paragraphs us : joined (str "paragraphs") us = join newline2 us.
Proof. reflexivity. Qed.

Lemma window_inked (us : list text) i size sep :
  Forall inked us -> 0 <= i < len us -> 0 < size ->
  truthy (strip (join sep (slice us i (i + size)))) = true.
Proof.
  intros Hus Hi Hs.
  destruct (slice_window us i size Hi Hs) as (x & r & E). rewrite E.
  apply (words_window_inked us); [assumption|].
  intros w Hw. rewrite <- E in Hw. eapply slice_incl; eassumption.
Qed.

(** The chunks of a known method, for a positive chunk size above the
    overlap: one per index of the range, the [k]-th numbered [k + 1],
    starting at [k] steps and built from the units of its window. *)
Lemma process_document_layout self t :
  known_method (method self) = true ->
  0 < chunk_size self -> overlap self < chunk_size self ->
  exists l,
    process_document self t = Ok l /\
    length l = range_len 0 (len (units (method self) t))
                         (chunk_size self - overlap self) /\
    forall k c, nth_error l k = Some c ->
      id c = Z.of_nat k + 1 /\
      start_index c = Z.of_nat k * (chunk_size self - overlap self) /\
      end_index c = Z.min (start_index c + chunk_size self)
                          (len (units (method self) t)) /\
      unit_count (method self) c = Some (end_index c - start_index c) /\
      content c = strip (joined (method self)
                           (slice (units (method self) t) (start_index c) (end_index c))).
Proof.
  intros Hm Hsize Hov.
  assert (Hfields : forall (us : list text) l (P : Chunk -> list text -> Prop),
    length l = range_len 0 (len us) (chunk_size self - overlap self) ->
    (forall k c, nth_error l k = Some c ->
       exists w, w = slice us (Z.of_nat k * (chunk_size self - overlap self))
                       (Z.of_nat k * (chunk_size self - overlap self) + chunk_size self) /\
                 id c = len (firstn k l) + 1 /\
                 start_index c = Z.of_nat k * (chunk_size self - overlap self) /\
                 end_index c = start_index c + len w /\ P c w) ->
    forall k c, nth_error l k = Some c ->
      id c = Z.of_nat k + 1 /\
      start_index c = Z.of_nat k * (chunk_size self - overlap self) /\
      end_index c = Z.min (start_index c + chunk_size self) (len us) /\
      P c (slice us (start_index c) (end_index c))).
  { intros us l P Hlen H k c Hk.
    destruct (H k c Hk) as (w & Ew & Hid & Hstart & Hend & HP).
    assert (Hklt : (k < length l)%nat) by (apply nth_error_Some; congruence).
    assert (Hb : 0 <= Z.of_nat k * (chunk_size self - overlap self) < len us)
      by (apply range_len_bound; lia).
    assert (Hw : len w = Z.min (start_index c + chunk_size self) (len us) - start_index c)
      by (rewrite Ew, Hstart; apply slice_len; lia).
    split; [|split; [assumption|split; [lia|]]].
    - rewrite Hid. unfold len. rewrite length_firstn. lia.
    - replace (end_index c) with (Z.min (start_index c + chunk_size self) (len us)) by lia.
      rewrite <- slice_min by lia. rewrite Hstart, <- Ew. exact HP. }
  destruct (known_method_cases _ Hm) as [E|[E|E]]; rewrite E.
  - rewrite (process_words _ _ E).
    change (units (str "words") t) with (Py.split t).
    unfold chunk_by_words.
    match goal with
    | |- context [windows self ?us ?e] =>
        destruct (windows_layout self us e) as (l & Hl & Hlen & Hnth)
    end; [lia| |exists l; split; [exact Hl|split; [exact Hlen|]]].
    + intros chunks i Hi. cbv beta.
      rewrite (window_inked (Py.split t) i (chunk_size self) (str " "));
        [discriminate | apply split_words_inked | assumption | assumption].
    + intros k c Hk.
      pose proof (Hfields (Py.split t) l
        (fun c w => unit_count (str "words") c = Some (end_index c - start_index c) /\
                    content c = strip (joined (str "words") w)) Hlen) as HF.
      destruct (HF) with (k := k) (c := c) as (H1 & H2 & H3 & H4 & H5); auto.
      clear HF. intros k0 c0 Hk0. specialize (Hnth k0 c0 Hk0). cbv beta in Hnth.
      destruct (truthy _) in Hnth; [|discriminate]. injection Hnth as <-.
      eexists; split; [reflexivity|]. simpl.
      repeat split; try reflexivity. unfold unit_count; simpl. f_equal; lia.
  - rewrite (process_sentences _ _ E).
    change (units (str "sentences") t) with (stripped (Re.split terminators t)).
    unfold chunk_by_sentences.
    match goal with
    | |- context [windows self ?us ?e] =>
        destruct (windows_layout self us e) as (l & Hl & Hlen & Hnth)
    end; [lia| |exists l; split; [exact Hl|split; [exact Hlen|]]].
    + intros chunks i Hi. cbv beta. rewrite sentence_content_inked. discriminate.
    + intros k c Hk.
      pose proof (Hfields (stripped (Re.split terminators t)) l
        (fun c w => unit_count (str "sentences") c = Some (end_index c - start_index c) /\
                    content c = strip (joined (str "sentences") w)) Hlen) as HF.
      destruct (HF) with (k := k) (c := c) as (H1 & H2 & H3 & H4 & H5); auto.
      clear HF. intros k0 c0 Hk0. specialize (Hnth k0 c0 Hk0). cbv beta in Hnth.
      destruct (truthy _) in Hnth; [|discriminate]. injection Hnth as <-.
      eexists; split; [reflexivity|]. simpl.
      repeat split; try reflexivity. unfold unit_count; simpl. f_equal; lia.
  - rewrite (process_paragraphs _ _ E).
    change (units (str "paragraphs") t) with (stripped (Re.split blank_line t)).
    unfold chunk_by_paragraphs.
    match goal with
    | |- context [windows self ?us ?e] =>
        destruct (windows_layout self us e) as (l & Hl & Hlen & Hnth)
    end; [lia| |exists l; split; [exact Hl|split; [exact Hlen|]]].
    + intros chunks i Hi. cbv beta.
      rewrite (window_inked (stripped (Re.split blank_line t)) i (chunk_size self) newline2);
        [discriminate | apply stripped_inked | assumption | assumption].
    + intros k c Hk.
      pose proof (Hfields (stripped (Re.split blank_line t)) l
        (fun c w => unit_count (str "paragraphs") c = Some (end_index c - start_index c) /\
                    content c = strip (joined (str "paragraphs") w)) Hlen) as HF.
      destruct (HF) with (k := k) (c := c) as (H1 & H2 & H3 & H4 & H5); auto.
      clear HF. intros k0 c0 Hk0. specialize (Hnth k0 c0 Hk0). cbv beta in Hnth.
      destruct (truthy _) in Hnth; [|discriminate]. injection Hnth as <-.
      eexists; split; [reflexivity|]. simpl.
      repeat split; try reflexivity. unfold unit_count; simpl. f_equal; lia.
Qed.

End ChunkLayout.

(** ** Words and their joins *)

Section WordsRoundTrip.

Lemma split_go_solid t :
  Forall solid (snd (Py.split_go t)) /\
  forallb (fun c => negb (isspace c)) (fst (Py.split_go t)) = true.
Proof.
  induction t as [|c t [IHws IHw]]; simpl; [split; [constructor | reflexivity]|].
  destruct (Py.split_go t) as [w ws]; simpl in *.
  destruct (isspace c) eqn:E; simpl.
  - split; [|reflexivity]. destruct w; simpl; [assumption|].
    constructor; [|assumption]. split; [discriminate | assumption].
  - split; [assumption|]. now rewrite E.
Qed.

Lemma split_words_solid t : Forall solid (Py.split t).
Proof.
  unfold Py.split. pose proof (split_go_solid t) as [Hws Hw].
  destruct (Py.split_go t) as [w ws]; simpl in *.
  destruct w; simpl; [assumption|].
  constructor; [|assumption]. split; [discriminate | assumption].
Qed.

Lemma split_go_word_app w s :
  forallb (fun c => negb (isspace c)) w = true ->
  Py.split_go (w ++ s) = (w ++ fst (Py.split_go s), snd (Py.split_go s)).
Proof.
  induction w as [|c w IH]; simpl; intro H.
  - now destruct (Py.split_go s).
  - apply andb_prop in H as [Hc Hw]. rewrite (IH Hw).
    apply negb_true_iff in Hc. now rewrite Hc.
Qed.

Lemma split_go_space c s :
  isspace c = true ->
  Py.split_go (c :: s) = ([], cons_word (fst (Py.split_go s)) (snd (Py.split_go s))).
Proof. intro H; simpl. destruct (Py.split_go s). now rewrite H. Qed.

(** [' '.join(ws).split()] gives [ws] back. *)
Lemma split_join ws : Forall solid ws -> Py.split (join (str " ") ws) = ws.
Proof.
  induction 1 as [|w ws [Hne Hw] Hws IH]; [reflexivity|].
  unfold Py.split in *. destruct ws as [|w' ws'].
  - replace (join (str " ") [w]) with (w ++ []) by apply app_nil_r.
    rewrite (split_go_word_app w [] Hw).
    simpl. rewrite app_nil_r. destruct w; [contradiction | reflexivity].
  - change (join (str " ") (w :: w' :: ws'))
      with (w ++ " "%char :: join (str " ") (w' :: ws')).
    rewrite (split_go_word_app w _ Hw).
    rewrite (split_go_space " "%char) by reflexivity.
    destruct (Py.split_go (join (str " ") (w' :: ws'))) as [f s].
    cbn [fst snd] in *. rewrite app_nil_r, IH. destruct w; [contradiction | reflexivity].
Qed.

Lemma lstrip_solid_head c s : isspace c = false -> lstrip (c :: s) = c :: s.
Proof. intro H; simpl; now rewrite H. Qed.

Lemma solid_head w : solid w -> exists c r, w = c :: r /\ isspace c = false.
Proof.
  intros [Hne Hw]. destruct w as [|c r]; [contradiction|].
  simpl in Hw. apply andb_prop in Hw as [Hc _]. apply negb_true_iff in Hc. eauto.
Qed.

Lemma solid_last w : solid w -> exists c r, rev w = c :: r /\ isspace c = false.
Proof.
  intros [Hne Hw]. destruct (rev w) as [|c r] eqn:E.
  - apply (f_equal (@rev ascii)) in E. rewrite rev_involutive in E. contradiction.
  - exists c, r; split; [reflexivity|].
    rewrite forallb_forall in Hw. apply negb_true_iff, Hw, in_rev.
    rewrite E; now left.
Qed.

Lemma join_head sep w ws c r :
  w = c :: r -> exists r', join sep (w :: ws) = c :: r'.
Proof. intros ->. destruct ws; simpl; eauto. Qed.

Lemma join_snoc sep ws w :
  ws <> [] -> join sep (ws ++ [w]) = join sep ws ++ sep ++ w.
Proof.
  induction ws as [|x ws IH]; [contradiction|]. intros _.
  destruct ws as [|y ws]; [reflexivity|].
  change (join sep ((x :: y :: ws) ++ [w])) with (x ++ sep ++ join sep ((y :: ws) ++ [w])).
  rewrite IH by discriminate. simpl. now rewrite <- !app_assoc.
Qed.

Lemma join_last sep ws w c r :
  rev w = c :: r -> exists r', rev (join sep (ws ++ [w])) = c :: r'.
Proof.
  intro H. destruct ws as [|x ws].
  - simpl. eauto.
  - rewrite join_snoc by discriminate. rewrite !rev_app_distr, H. simpl. eauto.
Qed.

(** A join of words has no whitespace to strip. *)
Lemma strip_join sep ws : Forall solid ws -> strip (join sep ws) = join sep ws.
Proof.
  intro H. destruct ws as [|w ws]; [reflexivity|].
  assert (Hfirst : exists c r, join sep (w :: ws) = c :: r /\ isspace c = false).
  { inversion H as [|? ? Hw _]; subst.
    destruct (solid_head w Hw) as (c & r & E & Hc).
    destruct (join_head sep w ws c r E) as (r' & E'). eauto. }
  assert (Hlast : exists c r, rev (join sep (w :: ws)) = c :: r /\ isspace c = false).
  { destruct (exists_last (l := w :: ws)) as (ws0 & w0 & E); [discriminate|].
    rewrite E in *. apply Forall_app in H as [_ Hw0].
    inversion Hw0 as [|? ? Hs _]; subst.
    destruct (solid_last w0 Hs) as (c & r & Er & Hc).
    destruct (join_last sep ws0 w0 c r Er) as (r' & E'). eauto. }
  destruct Hfirst as (c & r & E1 & Hc). destruct Hlast as (d & q & E2 & Hd).
  unfold strip, rstrip. rewrite E2, (lstrip_solid_head d q Hd), <- E2, rev_involutive.
  rewrite E1. now apply lstrip_solid_head.
Qed.

End WordsRoundTrip.

(** ** Chunks: identifiers, layout, coverage, overlap *)

Section ChunkProperties.
Import TextChunking.

(** X1.  Whatever the configuration, the chunks returned are numbered
    1, 2, 3, ... in the order of the list, also when windows were dropped. *)
Theorem chunk_ids_sequential self t l :
  process_document self t = Ok l ->
  forall k c, nth_error l k = Some c -> id c = Z.of_nat k + 1.
Proof.
  unfold process_document, chunk_by_words, chunk_by_sentences, chunk_by_paragraphs.
  destruct (text_eqb (method self) (str "words"));
    [|destruct (text_eqb (method self) (str "sentences"));
      [|destruct (text_eqb (method self) (str "paragraphs")); [|discriminate]]];
    (intro H; eapply windows_ids; [|exact H];
     intros chunks i w c; cbv beta;
     match goal with |- context [truthy ?x] => destruct (truthy x) end;
     [|discriminate]; intro E; injection E as <-; reflexivity).
Qed.

Lemma chunk_ids_sequential_witness :
  exists l,
    process_document {| chunk_size := -1; overlap := -3; method := str "words" |}
                     (str "a b c d e") = Ok l /\
    map id l = [1] /\
    forall k c, nth_error l k = Some c -> id c = Z.of_nat k + 1.
Proof.
  eexists; split; [vm_compute; reflexivity|]. split; [reflexivity|].
  apply (chunk_ids_sequential
           {| chunk_size := -1; overlap := -3; method := str "words" |} (str "a b c d e")).
  reflexivity.
Defined.

(** X2.  For a known method, a positive chunk size and a smaller overlap,
    there is one chunk per index of [range(0, n, chunk_size - overlap)]; the
    [k]-th starts at unit [k * (chunk_size - overlap)], ends at
    [min(start + chunk_size, n)], counts [end - start] units, and its
    content is the stripped join of exactly those units. *)
Theorem chunk_layout self t :
  known_method (method self) = true ->
  0 < chunk_size self -> overlap self < chunk_size self ->
  exists l,
    process_document self t = Ok l /\
    length l = range_len 0 (len (units (method self) t))
                         (chunk_size self - overlap self) /\
    forall k c, nth_error l k = Some c ->
      id c = Z.of_nat k + 1 /\
      start_index c = Z.of_nat k * (chunk_size self - overlap self) /\
      end_index c = Z.min (start_index c + chunk_size self)
                          (len (units (method self) t)) /\
      unit_count (method self) c = Some (end_index c - start_index c) /\
      content c = strip (joined (method self)
                           (slice (units (method self) t) (start_index c) (end_index c))).
Proof. exact (process_document_layout self t). Qed.

Lemma chunk_layout_witness :
  exists l,
    process_document {| chunk_size := 2; overlap := 1; method := str "sentences" |}
                     (str "Pay the rent. Keep the peace! Mind the roof?") = Ok l /\
    length l = 3%nat /\
    forall k c, nth_error l k = Some c ->
      id c = Z.of_nat k + 1 /\
      start_index c = Z.of_nat k * 1 /\
      end_index c = Z.min (start_index c + 2) 3 /\
      sentence_count c = end_index c - start_index c.
Proof.
  destruct (chunk_layout {| chunk_size := 2; overlap := 1; method := str "sentences" |}
                         (str "Pay the rent. Keep the peace! Mind the roof?"))
    as (l & Hl & Hlen & Hnth); [reflexivity | simpl; lia | simpl; lia |].
  exists l. split; [exact Hl|]. split; [exact Hlen|].
  intros k c Hk. destruct (Hnth k c Hk) as (H1 & H2 & H3 & H4 & _).
  repeat split; try assumption. injection H4 as H4. exact H4.
Defined.

(** X3.  For a valid configuration ([0 <= overlap < chunk_size]) every unit
    of the text lies in the range of some chunk: no unit is lost. *)
Theorem every_unit_in_some_chunk self t :
  known_method (method self) = true ->
  0 <= overlap self < chunk_size self ->
  exists l,
    process_document self t = Ok l /\
    forall j, 0 <= j < len (units (method self) t) ->
      exists c, In c l /\ start_index c <= j < end_index c.
Proof.
  intros Hm Hov.
  destruct (process_document_layout self t Hm) as (l & Hl & Hlen & Hnth); try lia.
  exists l; split; [assumption|]. intros j Hj.
  set (step := chunk_size self - overlap self) in *.
  set (n := len (units (method self) t)) in *.
  assert (Hstep : 0 < step) by (unfold step; lia).
  assert (Hq : 0 <= j / step) by (apply Z.div_pos; lia).
  assert (Hk : (Z.to_nat (j / step) < length l)%nat).
  { rewrite Hlen, range_len_forward by lia.
    assert (j / step <= (n - 1) / step) by (apply Z.div_le_mono; lia). lia. }
  destruct (nth_error l (Z.to_nat (j / step))) as [c|] eqn:E;
    [|apply nth_error_None in E; lia].
  exists c. split; [eapply nth_error_In; eassumption|].
  destruct (Hnth _ _ E) as (_ & Hs & He & _).
  rewrite Z2Nat.id in Hs by assumption.
  pose proof (Z.mul_div_le j step Hstep).
  pose proof (Z.mul_succ_div_gt j step Hstep).
  rewrite He, Hs. unfold step in *. lia.
Qed.

Lemma every_unit_in_some_chunk_witness :
  exists l,
    process_document {| chunk_size := 4; overlap := 1; method := str "words" |}
                     (str "a b c d e f g h i j") = Ok l /\
    forall j, 0 <= j < 10 -> exists c, In c l /\ start_index c <= j < end_index c.
Proof.
  apply (every_unit_in_some_chunk
           {| chunk_size := 4; overlap := 1; method := str "words" |}
           (str "a b c d e f g h i j")); [reflexivity | simpl; lia].
Defined.

(** X4.  For a valid configuration each chunk starts [chunk_size - overlap]
    units after the one before it, and the two have
    [min(overlap, n - start)] units in common, [start] being the start of
    the later one: [overlap] units, or all that are left; none when the
    overlap is 0. *)
Theorem consecutive_chunks_share_overlap self t :
  known_method (method self) = true ->
  0 <= overlap self < chunk_size self ->
  exists l,
    process_document self t = Ok l /\
    forall k c c', nth_error l k = Some c -> nth_error l (S k) = Some c' ->
      start_index c' = start_index c + (chunk_size self - overlap self) /\
      end_index c - start_index c' =
        Z.min (overlap self) (len (units (method self) t) - start_index c') /\
      end_index c <= end_index c'.
Proof.
  intros Hm Hov.
  destruct (process_document_layout self t Hm) as (l & Hl & Hlen & Hnth); try lia.
  exists l; split; [assumption|]. intros k c c' Hc Hc'.
  destruct (Hnth _ _ Hc) as (_ & Hs & He & _).
  destruct (Hnth _ _ Hc') as (_ & Hs' & He' & _).
  rewrite Nat2Z.inj_succ in Hs'. lia.
Qed.

Lemma consecutive_chunks_share_overlap_witness :
  exists l,
    process_document {| chunk_size := 4; overlap := 1; method := str "words" |}
                     (str "a b c d e f g h i j") = Ok l /\
    forall k c c', nth_error l k = Some c -> nth_error l (S k) = Some c' ->
      start_index c' = start_index c + 3 /\
      end_index c - start_index c' = Z.min 1 (10 - start_index c') /\
      end_index c <= end_index c'.
Proof.
  apply (consecutive_chunks_share_overlap
           {| chunk_size := 4; overlap := 1; method := str "words" |}
           (str "a b c d e f g h i j")); [reflexivity | simpl; lia].
Defined.

(** X5.  For the word method, a positive chunk size and a smaller overlap,
    the content of a chunk is its words joined by single spaces, with
    nothing to strip; splitting it gives the words of the window back, so
    [word_count] is the number of words of the content. *)
Theorem word_chunk_content_round_trip self t :
  method self = str "words" ->
  0 < chunk_size self -> overlap self < chunk_size self ->
  exists l,
    process_document self t = Ok l /\
    forall c, In c l ->
      content c = join (str " ") (slice (Py.split t) (start_index c) (end_index c)) /\
      Py.split (content c) = slice (Py.split t) (start_index c) (end_index c) /\
      word_count c = len (Py.split (content c)).
Proof.
  intros Hm Hsize Hov.
  destruct (process_document_layout self t) as (l & Hl & Hlen & Hnth);
    [rewrite Hm; reflexivity | assumption | assumption |].
  exists l; split; [assumption|]. intros c Hc.
  apply In_nth_error in Hc as (k & Hk).
  assert (Hklt : (k < length l)%nat) by (apply nth_error_Some; congruence).
  destruct (Hnth _ _ Hk) as (_ & Hs & He & Hcount & Hcontent).
  rewrite Hm in *. change (units (str "words") t) with (Py.split t) in *.
  set (w := slice (Py.split t) (start_index c) (end_index c)) in *.
  assert (Hsolid : Forall solid w).
  { apply Forall_forall; intros x Hx. apply slice_incl in Hx.
    pose proof (split_words_solid t) as Hall. rewrite Forall_forall in Hall. auto. }
  rewrite joined_words, strip_join in Hcontent by assumption.
  rewrite Hcontent, split_join by assumption.
  repeat split. injection Hcount as Hcount. rewrite Hcount.
  assert (Hb : 0 <= Z.of_nat k * (chunk_size self - overlap self) < len (Py.split t))
    by (apply range_len_bound; [lia | rewrite <- Hlen; exact Hklt]).
  unfold w. rewrite slice_len_between by lia. reflexivity.
Qed.

Lemma word_chunk_content_round_trip_witness :
  exists l,
    process_document {| chunk_size := 3; overlap := 1; method := str "words" |}
                     (str "  The  tenant shall
 pay rent. ") = Ok l /\
    forall c, In c l ->
      content c = join (str " ") (slice (Py.split (str "  The  tenant shall
 pay rent. ")) (start_index c) (end_index c)) /\
      Py.split (content c) = slice (Py.split (str "  The  tenant shall
 pay rent. ")) (start_index c) (end_index c) /\
      word_count c = len (Py.split (content c)).
Proof.
  apply (word_chunk_content_round_trip
           {| chunk_size := 3; overlap := 1; method := str "words" |}
           (str "  The  tenant shall
 pay rent. ")); [reflexivity | simpl; lia | simpl; lia].
Defined.

End ChunkProperties.

(** ** What a match consumes *)

Section Consumed.
Context (P : ascii -> Prop).

(** A match consumes a prefix of what follows the cursor, made of
    characters of the classes of the pattern. *)
Lemma run_consumes r : only P r ->
  forall c m, In m (run r c) ->
  exists w, rest c = w ++ rest (fst m) /\ Forall P w.
Proof.
  induction r as [|p|r1 IH1 r2 IH2|r1 IH1 r2 IH2|r1 IH1| | |r1 IH1];
    simpl; intros Hr c m.
  - intros [<-|[]]. exists []; split; [reflexivity | constructor].
  - intro Hm. destruct (rest c) as [|a t] eqn:E; [destruct Hm|].
    destruct (p a) eqn:Ea; [|destruct Hm]. destruct Hm as [<-|[]].
    exists [a]; split; [reflexivity | repeat constructor; auto].
  - destruct Hr as [Hr1 Hr2]. rewrite in_flat_map.
    intros (m1 & Hm1 & Hm). apply in_map_iff in Hm as (m2 & <- & Hm2).
    destruct (IH1 Hr1 _ _ Hm1) as (w1 & E1 & H1).
    destruct (IH2 Hr2 _ _ Hm2) as (w2 & E2 & H2).
    exists (w1 ++ w2); split; [|now apply Forall_app].
    simpl. now rewrite E1, E2, app_assoc.
  - destruct Hr as [Hr1 Hr2]. rewrite in_app_iff. intros [H|H]; eauto.
  - generalize (length (rest c)) as fuel. intro fuel; revert c m.
    induction fuel as [|k IHk]; intros c m.
    + intros [<-|[]]. exists []; split; [reflexivity | constructor].
    + rewrite in_app_iff, in_flat_map.
      intros [(m1 & Hm1 & Hm)|[<-|[]]];
        [|exists []; split; [reflexivity | constructor]].
      destruct (length (rest (fst m1)) <? length (rest c))%nat; [|destruct Hm].
      apply in_map_iff in Hm as (m2 & <- & Hm2).
      destruct (IH1 Hr _ _ Hm1) as (w1 & E1 & H1).
      destruct (IHk _ _ Hm2) as (w2 & E2 & H2).
      exists (w1 ++ w2); split; [|now apply Forall_app].
      simpl. now rewrite E1, E2, app_assoc.
  - destruct (at_boundary c); intro Hm; [|destruct Hm].
    destruct Hm as [<-|[]]. exists []; split; [reflexivity | constructor].
  - destruct (at_end c); intro Hm; [|destruct Hm].
    destruct Hm as [<-|[]]. exists []; split; [reflexivity | constructor].
  - intro Hm. apply in_map_iff in Hm as (m1 & <- & Hm1). simpl. eauto.
Qed.

Lemma firstn_consumed (w r : text) :
  firstn (length (w ++ r) - length r) (w ++ r) = w.
Proof.
  rewrite length_app. replace (length w + length r - length r)%nat with (length w) by lia.
  rewrite firstn_app, Nat.sub_diag, firstn_all. simpl. apply app_nil_r.
Qed.

(** The matches of a scan are made of characters of the classes of the
    pattern and of characters of the subject. *)
Lemma scan_hit_chars r s : only P r -> forall k prev whole grp,
  In (Hit whole grp) (scan r k prev s) ->
  Forall P whole /\ (forall a, In a whole -> In a s) /\ whole <> [].
Proof.
  intro Hr. induction s as [|a s IH]; intros k prev whole grp; cbn [scan]; [intros []|].
  assert (Hrec : forall k prev, In (Hit whole grp) (scan r k prev s) ->
            Forall P whole /\ (forall b, In b whole -> In b (a :: s)) /\ whole <> []).
  { intros k0 prev0 H. destruct (IH _ _ _ _ H) as (H1 & H2 & H3).
    repeat split; try assumption. intros b Hb; right; auto. }
  destruct k as [|k]; [|apply Hrec].
  destruct (match_at r {| before := prev; rest := a :: s |}) as [[c1 g]|] eqn:E.
  - destruct (length (a :: s) - length (rest c1))%nat as [|j] eqn:Ej; cbn [In].
    + intros [H|H]; [discriminate | eapply Hrec; eassumption].
    + intros [H|H]; [|eapply Hrec; eassumption].
      injection H as <- _.
      unfold match_at in E. destruct (run r _) as [|m0 ms] eqn:Erun; [discriminate|].
      injection E as ->.
      destruct (run_consumes r Hr {| before := prev; rest := a :: s |} (c1, g))
        as (w & Ew & Hw); [rewrite Erun; now left|].
      simpl in Ew.
      assert (Ewhole : firstn (S j) (a :: s) = w)
        by (rewrite <- Ej, Ew; apply firstn_consumed).
      change (a :: firstn j s) with (firstn (S j) (a :: s)).
      rewrite Ewhole. repeat split; [assumption| |].
      * intros b Hb. change (In b (a :: s)). rewrite Ew. apply in_or_app; now left.
      * intros ->. simpl in Ew. rewrite <- Ew in Ej. simpl in Ej. lia.
  - cbn [In]. intros [H|H]; [discriminate | eapply Hrec; eassumption].
Qed.

End Consumed.

(** ** Keywords: what is counted and what is never returned *)

Section KeywordFacts.
Import KeywordExtraction.

Lemma alpha_lower_is_lowercase b :
  isalpha_ascii (lower_char b) = true -> lowercase_letter (lower_char b).
Proof. unfold lowercase_letter. by_cases_on_char b. Qed.

Lemma word_pattern_only : only (fun a => isalpha_ascii a = true) word_pattern.
Proof. simpl. repeat split; auto. Qed.

(** The tokens are runs of letters of the text. *)
Lemma findall_word_tokens s w :
  In w (findall word_pattern s) ->
  Forall (fun a => isalpha_ascii a = true) w /\ (forall a, In a w -> In a s).
Proof.
  unfold findall. rewrite in_flat_map.
  intros ([a|whole grp] & Hp & Hw); [destruct Hw|].
  change (has_group word_pattern) with false in Hw. destruct Hw as [<-|[]].
  destruct (scan_hit_chars _ _ _ word_pattern_only _ _ _ _ Hp) as (H1 & H2 & _).
  auto.
Qed.

Lemma filtered_words_spec t w :
  In w (filtered_words t) ->
  mem w stop_words = false /\ 3 <= len w /\ Forall lowercase_letter w.
Proof.
  unfold filtered_words. rewrite filter_In. intros [Hw Hf].
  apply andb_prop in Hf as [Hstop Hlen].
  apply negb_true_iff in Hstop. apply Z.ltb_lt in Hlen.
  split; [assumption|]. split; [lia|].
  destruct (findall_word_tokens _ _ Hw) as [Halpha Hin].
  rewrite Forall_forall in *. intros a Ha.
  specialize (Hin a Ha). unfold lower in Hin. apply in_map_iff in Hin as (b & <- & _).
  apply alpha_lower_is_lowercase. now apply Halpha.
Qed.

Lemma text_eqb_sym a b : text_eqb a b = text_eqb b a.
Proof.
  destruct (text_eqb a b) eqn:E1, (text_eqb b a) eqn:E2; try reflexivity.
  - apply text_eqb_eq in E1; subst. now rewrite text_eqb_refl in E2.
  - apply text_eqb_eq in E2; subst. now rewrite text_eqb_refl in E1.
Qed.

Lemma count_of_count_up w x c :
  count_of w (count_up x c) = count_of w c + (if text_eqb w x then 1 else 0).
Proof.
  induction c as [|[k n] c IH]; simpl.
  - rewrite (text_eqb_sym x w). destruct (text_eqb w x); lia.
  - destruct (text_eqb k x) eqn:Ekx; simpl.
    + apply text_eqb_eq in Ekx; subst k.
      rewrite (text_eqb_sym x w). destruct (text_eqb w x); lia.
    + destruct (text_eqb k w) eqn:Ekw; [|exact IH].
      apply text_eqb_eq in Ekw; subst k.
      rewrite Ekx. lia.
Qed.

Lemma occurrences_snoc w ws x :
  occurrences w (ws ++ [x]) = occurrences w ws + (if text_eqb w x then 1 else 0).
Proof.
  unfold occurrences. rewrite filter_app, len_app. simpl.
  destruct (text_eqb w x); reflexivity.
Qed.

(** The count holds for every word its number of occurrences. *)
Lemma Counter_counts ws w : count_of w (Counter ws) = occurrences w ws.
Proof.
  induction ws as [|x ws IH] using rev_ind; [reflexivity|].
  now rewrite Counter_snoc, count_of_count_up, occurrences_snoc, IH.
Qed.

Lemma count_of_In c w n : NoDup (map fst c) -> In (w, n) c -> count_of w c = n.
Proof.
  induction c as [|[k m] c IH]; simpl; [tauto|].
  intros Hnd [H|H]; inversion Hnd as [|? ? Hnotin Hnd']; subst.
  - injection H as -> ->. now rewrite text_eqb_refl.
  - destruct (text_eqb k w) eqn:E; [|auto].
    apply text_eqb_eq in E; subst k. exfalso; apply Hnotin.
    change w with (fst (w, n)). now apply in_map.
Qed.

Lemma Counter_keys_NoDup ws : NoDup (map fst (Counter ws)).
Proof.
  destruct (Counter_keys ws) as [_ Hs].
  eapply StronglySorted_NoDup; [|exact Hs]. intro a; cbv beta; lia.
Qed.

Lemma occurrences_pos w ws : In w ws -> 1 <= occurrences w ws.
Proof.
  intro H. unfold occurrences, len.
  assert (Hin : In w (filter (text_eqb w) ws))
    by (apply filter_In; split; [assumption | apply text_eqb_refl]).
  destruct (filter (text_eqb w) ws); [destruct Hin | simpl; lia].
Qed.

Lemma first_category_range cats w :
  In (first_category cats w) (map fst cats ++ [str "general"]).
Proof.
  induction cats as [|[category terms] cats IH]; simpl; [now left|].
  destruct (mem w terms); [now left | now right].
Qed.

Lemma keyword_origin t min_freq max_keywords k :
  In k (extract_statistical_keywords t min_freq max_keywords) ->
  exists wf, k = make_keyword wf /\
             In wf (Counter (filtered_words t)) /\ min_freq <= snd wf.
Proof.
  unfold extract_statistical_keywords, slice_to. intro H.
  apply slice_incl in H.
  apply (Permutation_in _ (Permutation_sym (sort_desc_perm score _))) in H.
  unfold scored_keywords in H. apply in_map_iff in H as (wf & <- & Hwf).
  apply filter_In in Hwf as [Hin Hmin]. apply Z.leb_le in Hmin. eauto.
Qed.

(** X6.  Every keyword returned records the number of occurrences of its
    term among the counted words, which is at least the minimum asked for
    and at least 1; its category is the one [categorize_word] gives the term,
    one of the seven names; and its score is the frequency, doubled unless
    the category is general. *)
Theorem keyword_record_consistent t min_freq max_keywords k :
  In k (extract_statistical_keywords t min_freq max_keywords) ->
  frequency k = occurrences (term k) (filtered_words t) /\
  min_freq <= frequency k /\ 1 <= frequency k /\
  category k = categorize_word (term k) /\
  In (category k) category_names /\
  score k = frequency k * (if text_eqb (category k) (str "general") then 1 else 2).
Proof.
  intro H. apply keyword_origin in H as ([w n] & -> & Hin & Hmin).
  unfold make_keyword. cbn [term frequency category score fst snd] in *.
  assert (Hn : n = occurrences w (filtered_words t)).
  { rewrite <- Counter_counts. symmetry.
    apply count_of_In; [apply Counter_keys_NoDup | assumption]. }
  split; [assumption|]. split; [assumption|]. split.
  - rewrite Hn. apply occurrences_pos.
    apply (Counter_keys (filtered_words t)).
    change w with (fst (w, n)). now apply in_map.
  - split; [reflexivity|].
    split; [exact (first_category_range legal_categories (lower w))|].
    destruct (text_eqb (categorize_word w) (str "general")); reflexivity.
Qed.

Lemma keyword_record_consistent_witness :
  let t := str "The party shall pay the party shall pay rent." in
  let k := {| term := str "shall"; frequency := 2;
              category := str "legal_actions"; score := 4 |} in
  frequency k = occurrences (term k) (filtered_words t) /\
  2 <= frequency k /\ 1 <= frequency k /\
  category k = categorize_word (term k) /\
  In (category k) category_names /\
  score k = frequency k * (if text_eqb (category k) (str "general") then 1 else 2).
Proof.
  apply (keyword_record_consistent
           (str "The party shall pay the party shall pay rent.") 2 50).
  vm_compute. right; left; reflexivity.
Defined.

(** X7.  The term of a returned keyword is never a stop word, has at least
    three characters and is made of lowercase letters a..z only.  So "will",
    "should" and "may", listed as legal actions but also stop words, and the
    entries with a space ("real estate", "personal property", "right of
    way") are never returned. *)
Theorem keyword_terms_are_content_words t min_freq max_keywords k :
  In k (extract_statistical_keywords t min_freq max_keywords) ->
  mem (term k) stop_words = false /\
  3 <= len (term k) /\
  Forall lowercase_letter (term k) /\
  ~ In (term k) (map str ["will"; "should"; "may"; "real estate";
                          "personal property"; "right of way"]%string).
Proof.
  intro H. apply keyword_origin in H as ([w n] & -> & Hin & _).
  unfold make_keyword. cbn [term fst].
  assert (Hw : In w (filtered_words t)).
  { apply (Counter_keys (filtered_words t)).
    change w with (fst (w, n)). now apply in_map. }
  destruct (filtered_words_spec t w Hw) as (Hstop & Hlen & Hlow).
  repeat split; try assumption.
  intros [E|[E|[E|[E|[E|[E|[]]]]]]]; subst w;
    try (vm_compute in Hstop; discriminate);
    rewrite Forall_forall in Hlow;
    specialize (Hlow " "%char); vm_compute in Hlow;
    assert (false = true) by (apply Hlow; tauto); discriminate.
Qed.

Lemma keyword_terms_are_content_words_witness :
  let k := {| term := str "party"; frequency := 2;
              category := str "parties"; score := 4 |} in
  mem (term k) stop_words = false /\
  3 <= len (term k) /\
  Forall lowercase_letter (term k) /\
  ~ In (term k) (map str ["will"; "should"; "may"; "real estate";
                          "personal property"; "right of way"]%string).
Proof.
  apply (keyword_terms_are_content_words
           (str "The party shall pay the party shall pay rent.") 2 50).
  vm_compute. left; reflexivity.
Defined.

Lemma unique_go_NoDup l : forall seen,
  NoDup (unique_go seen l) /\ forall x, In x (unique_go seen l) -> ~ In x seen.
Proof.
  induction l as [|y l IH]; intro seen; simpl; [split; [constructor | tauto]|].
  destruct (mem y seen) eqn:E; [apply IH|].
  destruct (IH (y :: seen)) as [Hnd Hout]. split.
  - constructor; [|assumption]. intro Hy. apply (Hout y Hy). now left.
  - intros x [<-|Hx].
    + intro Hin. apply mem_In in Hin. congruence.
    + intro Hin. apply (Hout x Hx). now right.
Qed.

Lemma slice_to_is_firstn {A} (l : list A) j : exists n, slice_to l j = firstn n l.
Proof.
  unfold slice_to, slice, clamp. simpl.
  rewrite (Z.min_l 0) by apply len_nonneg. simpl. eauto.
Qed.

(** X8.  The phrases returned are pairwise distinct, whatever the limit,
    and for a limit that is not negative there are at most that many. *)
Theorem key_phrases_distinct_and_bounded t max_phrases :
  NoDup (extract_key_phrases t max_phrases) /\
  (0 <= max_phrases -> len (extract_key_phrases t max_phrases) <= max_phrases).
Proof.
  unfold extract_key_phrases. split.
  - destruct (slice_to_is_firstn
                (unique (flat_map (fun pattern => phrases_of pattern t) patterns))
                max_phrases) as (n & ->).
    apply NoDup_firstn. apply unique_go_NoDup.
  - intro H. rewrite slice_to_firstn by assumption.
    unfold len. pose proof (firstn_le_length (Z.to_nat max_phrases)
      (unique (flat_map (fun pattern => phrases_of pattern t) patterns))). lia.
Qed.

Lemma key_phrases_distinct_and_bounded_witness :
  let t := str "The tenant SHALL be responsible for all repairs. The tenant SHALL be responsible for the garden. Notice is hereby given!" in
  extract_key_phrases t 1 = [str "SHALL be responsible for"] /\
  NoDup (extract_key_phrases t 1) /\
  (0 <= 1 -> len (extract_key_phrases t 1) <= 1).
Proof.
  split; [vm_compute; reflexivity|].
  apply (key_phrases_distinct_and_bounded
           (str "The tenant SHALL be responsible for all repairs. The tenant SHALL be responsible for the garden. Notice is hereby given!") 1).
Defined.

End KeywordFacts.

(** ** Windows of words for the external pipelines *)

Section WordWindows.

Lemma firstn_plus {A} a b (l : list A) :
  firstn (a + b) l = firstn a l ++ firstn b (skipn a l).
Proof.
  revert l; induction a as [|a IH]; intro l; [reflexivity|].
  destruct l as [|x l]; simpl; [now rewrite firstn_nil | now rewrite IH].
Qed.

Lemma slice_firstn_skipn {A} (l : list A) i size :
  0 <= i -> 0 <= size ->
  slice l i (i + size) = firstn (Z.to_nat size) (skipn (Z.to_nat i) l).
Proof.
  intros Hi Hs; unfold slice, clamp. pose proof (len_nonneg l) as Hn.
  destruct (Z.ltb_spec i 0); [lia|]. destruct (Z.ltb_spec (i + size) 0); [lia|].
  destruct (Z_le_gt_dec i (len l)) as [Hle|Hgt].
  - rewrite (Z.min_l i) by lia.
    destruct (Z_le_gt_dec (i + size) (len l)).
    + rewrite Z.min_l by lia. f_equal; lia.
    + rewrite Z.min_r by lia.
      rewrite !firstn_all2; try reflexivity; rewrite length_skipn; unfold len in *; lia.
  - rewrite !Z.min_r by lia. rewrite Z.sub_diag. simpl.
    rewrite skipn_all2 by (unfold len in *; lia). now rewrite firstn_nil.
Qed.

(** Windows of [size] at the multiples of [size] tile the list. *)
Lemma concat_windows {A} (l : list A) size m :
  0 < size ->
  concat (map (fun k => slice l (0 + Z.of_nat k * size) (0 + Z.of_nat k * size + size))
              (seq 0 m))
  = firstn (m * Z.to_nat size) l.
Proof.
  intro Hs. induction m as [|m IH]; [reflexivity|].
  rewrite seq_S, map_app, concat_app, IH. simpl.
  rewrite app_nil_r, slice_firstn_skipn by lia.
  replace (Z.to_nat (Z.of_nat m * size)) with (m * Z.to_nat size)%nat by nia.
  replace (Z.to_nat size + m * Z.to_nat size)%nat
    with (m * Z.to_nat size + Z.to_nat size)%nat by lia.
  now rewrite firstn_plus.
Qed.

(** The chunks given to an external pipeline: each has between 1 and
    [size] words, and their words, in order, are the words of the text. *)
Lemma word_windows (words : list text) size idxs :
  0 < size -> Forall solid words ->
  range 0 (len words) size = Some idxs ->
  let chunks := map (fun i => join (str " ") (slice words i (i + size))) idxs in
  Forall (fun c => 1 <= len (Py.split c) <= size) chunks /\
  concat (map Py.split chunks) = words.
Proof.
  intros Hs Hsolid Hr chunks; subst chunks.
  assert (Hsplit : forall i, Py.split (join (str " ") (slice words i (i + size)))
                             = slice words i (i + size)).
  { intro i. apply split_join. apply Forall_forall; intros x Hx.
    apply slice_incl in Hx. rewrite Forall_forall in Hsolid. auto. }
  split.
  - pose proof (range_items _ _ _ (len_nonneg words) Hr) as Hin.
    apply Forall_forall; intros c Hc. apply in_map_iff in Hc as (i & <- & Hi).
    rewrite Forall_forall in Hin. specialize (Hin i Hi).
    rewrite Hsplit, slice_len by lia. lia.
  - rewrite map_map. rewrite (map_ext _ _ Hsplit).
    unfold range in Hr. destruct (size =? 0); [discriminate|].
    injection Hr as <-. rewrite map_map.
    rewrite (concat_windows words size _ Hs).
    apply firstn_all2.
    destruct (Z_lt_le_dec 0 (len words)) as [Hn|Hn].
    + rewrite range_len_forward by lia.
      pose proof (Z.mul_succ_div_gt (len words - 1) size Hs).
      assert (0 <= (len words - 1) / size) by (apply Z.div_pos; lia).
      unfold len in *. nia.
    + unfold len in Hn. lia.
Qed.

End WordWindows.

(** ** Named entities *)

Section NamedEntities.
Import KeywordExtraction.

Lemma all_entities_fails p chunks :
  (exists c, In c chunks /\ p c = None) -> all_entities p chunks = None.
Proof.
  induction chunks as [|c0 chunks IH]; intros (c & Hc & Hp); [destruct Hc|].
  simpl. destruct Hc as [->|Hc].
  - now rewrite Hp.
  - destruct (p c0); [|reflexivity]. rewrite IH by eauto. reflexivity.
Qed.




(** X10.  Without a pipeline the extractor returns no entity, and when the
    pipeline raises on any chunk it returns none either: the entities of the
    chunks that succeeded are dropped with it. *)
Theorem named_entities_none_on_failure self t :
  (ner_pipeline self = None -> extract_named_entities self t = []) /\
  (forall p chunks c,
     ner_pipeline self = Some p -> ner_chunks t = Some chunks ->
     In c chunks -> p c = None ->
     extract_named_entities self t = []).
Proof.
  unfold extract_named_entities. split.
  - intros ->. reflexivity.
  - intros p chunks c -> -> Hc Hp.
    rewrite all_entities_fails by eauto. reflexivity.
Qed.

Lemma named_entities_none_on_failure_witness :
  let p : ner := fun chunk =>
    if (len chunk <? 2000) then None
    else Some [ {| word := str "Acme"; entity_group := str "ORG"; entity_score := 1 # 2 |} ] in
  extract_named_entities {| model_name := []; ner_pipeline := None |} (str "Acme owns it") = [] /\
  extract_named_entities {| model_name := []; ner_pipeline := Some p |} (str "Acme owns it") = [].
Proof.
  split.
  - apply (named_entities_none_on_failure
             {| model_name := []; ner_pipeline := None |} (str "Acme owns it")).
    reflexivity.
  - eapply (proj2 (named_entities_none_on_failure
             {| model_name := [];
                ner_pipeline := Some (fun chunk =>
                  if (len chunk <? 2000) then None
                  else Some [ {| word := str "Acme"; entity_group := str "ORG";
                                 entity_score := 1 # 2 |} ]) |}
             (str "Acme owns it"))).
    + reflexivity.
    + reflexivity.
    + left; reflexivity.
    + reflexivity.
Defined.

(** X11.  Every chunk given to the NER pipeline has between 1 and 512
    words, and the words of the chunks, in order, are the words of the text:
    none is lost and none is repeated. *)
Theorem ner_chunks_tile_the_words t :
  exists chunks,
    ner_chunks t = Some chunks /\
    Forall (fun c => 1 <= len (Py.split c) <= 512) chunks /\
    concat (map Py.split chunks) = Py.split t.
Proof.
  unfold ner_chunks.
  destruct (range 0 (len (Py.split t)) 512) as [idxs|] eqn:E; [|discriminate].
  eexists; split; [reflexivity|].
  apply (word_windows (Py.split t) 512 idxs);
    [lia | apply split_words_solid | exact E].
Qed.

End NamedEntities.


(** ** The statistics of [extract_all_keywords] *)

Section ExtractionStatistics.
Import KeywordExtraction.

Lemma keyword_terms_NoDup t min_freq max_keywords :
  NoDup (map term (extract_statistical_keywords t min_freq max_keywords)).
Proof.
  unfold extract_statistical_keywords.
  destruct (slice_to_is_firstn (sort_desc score (scored_keywords t min_freq)) max_keywords)
    as (n & ->).
  rewrite <- firstn_map. apply NoDup_firstn.
  eapply Permutation_NoDup; [apply Permutation_map, sort_desc_perm|].
  destruct (scored_keywords_order t min_freq) as [Horder _].
  apply (StronglySorted_NoDup
           (fun a b => (first_index a (filtered_words t)
                        < first_index b (filtered_words t))%nat));
    [intro a; lia | now apply StronglySorted_map_iff].
Qed.

Lemma unique_go_NoDup_id l : forall seen,
  NoDup l -> (forall x, In x l -> ~ In x seen) -> unique_go seen l = l.
Proof.
  induction l as [|y l IH]; intros seen Hnd Hout; simpl; [reflexivity|].
  inversion Hnd as [|? ? Hy Hnd']; subst.
  destruct (mem y seen) eqn:E.
  - apply mem_In in E. exfalso. apply (Hout y); [now left | assumption].
  - f_equal. apply IH; [assumption|].
    intros x Hx [<-|Hin]; [contradiction|]. apply (Hout x); [now right | assumption].
Qed.

Lemma category_counts_Counter (ks : list Keyword) : forall acc,
  fold_left (fun counts keyword => count_up (category keyword) counts) ks acc
  = fold_left (fun c w => count_up w c) (map category ks) acc.
Proof. induction ks as [|k ks IH]; intro acc; simpl; [reflexivity | apply IH]. Qed.

Lemma total_count_up x c : total (count_up x c) = total c + 1.
Proof.
  unfold total. induction c as [|[k n] c IH]; simpl; [reflexivity|].
  destruct (text_eqb k x); simpl; lia.
Qed.

Lemma total_Counter ws : total (Counter ws) = len ws.
Proof.
  induction ws as [|w ws IH] using rev_ind; [reflexivity|].
  rewrite Counter_snoc, total_count_up, IH, len_app. reflexivity.
Qed.

(** X12.  In the result of [extract_all_keywords]: [unique_keywords] is the
    number of keywords; the category distribution holds for every category
    the number of keywords of that category, its keys are distinct category
    names, and its counts add up to the number of keywords; there are at
    most 50 keywords, each met at least twice, and at most 20 phrases. *)
Theorem extraction_statistics_consistent self t :
  let r := extract_all_keywords self t in
  unique_keywords (statistics r) = len (keywords r) /\
  (forall c, count_of c (category_distribution (statistics r))
             = occurrences c (map category (keywords r))) /\
  NoDup (map fst (category_distribution (statistics r))) /\
  Forall (fun c => In c category_names) (map fst (category_distribution (statistics r))) /\
  total (category_distribution (statistics r)) = len (keywords r) /\
  len (keywords r) <= 50 /\
  Forall (fun k => 2 <= frequency k) (keywords r) /\
  len (key_phrases r) <= 20.
Proof.
  cbv zeta. unfold extract_all_keywords.
  cbn [statistics keywords key_phrases unique_keywords category_distribution].
  set (ks := extract_statistical_keywords (preprocess_text t) 2 50).
  rewrite category_counts_Counter. fold (Counter (map category ks)).
  split; [|split; [|split; [|split; [|split; [|split; [|split]]]]]].
  - unfold unique. rewrite unique_go_NoDup_id; [|apply keyword_terms_NoDup|auto].
    unfold len. now rewrite length_map.
  - intro c. apply Counter_counts.
  - apply Counter_keys_NoDup.
  - apply Forall_forall; intros c Hc.
    apply (Counter_keys (map category ks)) in Hc.
    apply in_map_iff in Hc as (k & <- & Hk).
    apply keyword_origin in Hk as (wf & -> & _).
    exact (first_category_range legal_categories (lower (fst wf))).
  - rewrite total_Counter. unfold len. now rewrite length_map.
  - unfold ks, extract_statistical_keywords. rewrite slice_to_firstn by lia.
    unfold len. pose proof (firstn_le_length (Z.to_nat 50)
                              (sort_desc score (scored_keywords (preprocess_text t) 2))).
    lia.
  - apply Forall_forall; intros k Hk.
    apply keyword_origin in Hk as (wf & -> & _ & Hmin). exact Hmin.
  - unfold extract_key_phrases. rewrite slice_to_firstn by lia.
    unfold len.
    pose proof (firstn_le_length (Z.to_nat 20)
      (unique (flat_map (fun pattern => phrases_of pattern (preprocess_text t)) patterns))).
    lia.
Qed.

End ExtractionStatistics.

(** ** The abstractive path *)

Section AbstractivePath.
Import Summarization.

Lemma abstractive_try_chunks self p t :
  abstractive_try self p t =
  match summary_chunks t with
  | None => None
  | Some chunks =>
      match summarize_chunks p (max_length self) chunks with
      | None => None
      | Some chunk_summaries => combine_summaries self p chunk_summaries
      end
  end.
Proof.
  unfold abstractive_try, summary_chunks, combine_summaries.
  destruct (range 0 (len (Py.split t)) 1024); reflexivity.
Qed.

Lemma summarize_chunks_fails p m chunks :
  (exists c, In c chunks /\ 50 < len (strip c) /\ p c m 30 = None) ->
  summarize_chunks p m chunks = None.
Proof.
  induction chunks as [|c0 chunks IH]; intros (c & Hc & Hlen & Hp); [destruct Hc|].
  simpl. destruct Hc as [->|Hc].
  - destruct (Z.ltb_spec 50 (len (strip c))); [|lia]. now rewrite Hp.
  - assert (Hrest : summarize_chunks p m chunks = None) by (apply IH; eauto).
    rewrite Hrest. destruct (50 <? len (strip c0)); [|reflexivity].
    destruct (p c0 m 30); reflexivity.
Qed.

Lemma summarize_chunks_short p m chunks :
  Forall (fun c => len (strip c) <= 50) chunks ->
  summarize_chunks p m chunks = Some [].
Proof.
  induction 1 as [|c chunks Hc Hrest IH]; simpl; [reflexivity|].
  destruct (Z.ltb_spec 50 (len (strip c))); [lia | assumption].
Qed.

(** X13.  Without a model, a request of any type but extractive gets the
    extractive summary of five sentences of the preprocessed text, whatever
    the length asked for: short and long are not honoured. *)
Theorem abstractive_without_model_ignores_length self t summary_type length :
  summarizer self = None ->
  text_eqb summary_type (str "extractive") = false ->
  Py.split t <> [] ->
  exists r,
    fst (generate_summary self t summary_type length) = Ok r /\
    summary r = extractive_summarization (preprocess_legal_text t) 5.
Proof.
  intros Hs Hty Ht. unfold generate_summary. rewrite Hty.
  assert (Hw : (len (Py.split t) =? 0) = false).
  { apply Z.eqb_neq. destruct (Py.split t); [contradiction | unfold len; simpl; lia]. }
  assert (Habs : forall m, abstractive_summarization (set_max_length self m)
                             (preprocess_legal_text t)
                           = extractive_summarization (preprocess_legal_text t) 5).
  { intro m. unfold abstractive_summarization. simpl. now rewrite Hs. }
  destruct (text_eqb length (str "short")); [|destruct (text_eqb length (str "medium"))];
    cbv zeta; rewrite Habs, Hw; eexists; split; reflexivity.
Qed.

Lemma abstractive_without_model_ignores_length_witness :
  let t := str "The tenant shall pay the landlord on time. Nothing of note is said in this one. This agreement binds the parties for 12 months. The landlord shall keep the roof. " in
  exists r,
    fst (generate_summary {| model_name := []; max_length := 150; summarizer := None |}
                          t (str "abstractive") (str "short")) = Ok r /\
    summary r = extractive_summarization (preprocess_legal_text t) 5.
Proof.
  apply (abstractive_without_model_ignores_length
           {| model_name := []; max_length := 150; summarizer := None |}
           (str "The tenant shall pay the landlord on time. Nothing of note is said in this one. This agreement binds the parties for 12 months. The landlord shall keep the roof. ")
           (str "abstractive") (str "short")).
  - reflexivity.
  - reflexivity.
  - vm_compute; discriminate.
Defined.

(** X14.  When the model raises on one chunk of more than 50 characters,
    the summaries of the other chunks are dropped and the result is the
    extractive summary of five sentences of the whole text. *)
Theorem abstractive_falls_back_when_a_chunk_fails self p t chunks c :
  summarizer self = Some p ->
  summary_chunks t = Some chunks ->
  In c chunks -> 50 < len (strip c) -> p c (max_length self) 30 = None ->
  abstractive_summarization self t = extractive_summarization t 5.
Proof.
  intros Hs Hchunks Hc Hlen Hp. unfold abstractive_summarization.
  rewrite Hs, abstractive_try_chunks, Hchunks.
  rewrite summarize_chunks_fails by eauto. reflexivity.
Qed.

Lemma abstractive_falls_back_when_a_chunk_fails_witness :
  let t := str "The tenant shall pay the landlord on the first day of every month." in
  abstractive_summarization
    {| model_name := []; max_length := 150; summarizer := Some (fun _ _ _ => None) |} t
  = extractive_summarization t 5.
Proof.
  apply (abstractive_falls_back_when_a_chunk_fails
           {| model_name := []; max_length := 150; summarizer := Some (fun _ _ _ => None) |}
           (fun _ _ _ => None)
           (str "The tenant shall pay the landlord on the first day of every month.")
           [str "The tenant shall pay the landlord on the first day of every month."]
           (str "The tenant shall pay the landlord on the first day of every month.")).
  - reflexivity.
  - vm_compute; reflexivity.
  - left; reflexivity.
  - vm_compute; reflexivity.
  - reflexivity.
Defined.

(** X15.  With a model, a text none of whose chunks has more than 50
    characters is never shown to it: the result is the fixed string
    "Unable to generate summary.". *)
Theorem abstractive_skips_short_chunks self p t chunks :
  summarizer self = Some p ->
  summary_chunks t = Some chunks ->
  Forall (fun c => len (strip c) <= 50) chunks ->
  abstractive_summarization self t = str "Unable to generate summary.".
Proof.
  intros Hs Hchunks Hshort. unfold abstractive_summarization.
  rewrite Hs, abstractive_try_chunks, Hchunks.
  rewrite summarize_chunks_short by assumption. reflexivity.
Qed.

Lemma abstractive_skips_short_chunks_witness :
  abstractive_summarization
    {| model_name := []; max_length := 150;
       summarizer := Some (fun c _ _ => Some c) |}
    (str "The tenant shall pay rent.")
  = str "Unable to generate summary.".
Proof.
  apply (abstractive_skips_short_chunks
           {| model_name := []; max_length := 150;
              summarizer := Some (fun c _ _ => Some c) |}
           (fun c _ _ => Some c)
           (str "The tenant shall pay rent.")
           [str "The tenant shall pay rent."]).
  - reflexivity.
  - vm_compute; reflexivity.
  - repeat constructor. vm_compute; discriminate.
Defined.

(** X16.  Every chunk of [abstractive_summarization] has between 1 and 1024
    words, and the words of the chunks, in order, are the words of the
    text. *)
Theorem summary_chunks_tile_the_words self p t :
  exists chunks,
    summary_chunks t = Some chunks /\
    abstractive_try self p t =
      match summarize_chunks p (max_length self) chunks with
      | None => None
      | Some chunk_summaries => combine_summaries self p chunk_summaries
      end /\
    Forall (fun c => 1 <= len (Py.split c) <= 1024) chunks /\
    concat (map Py.split chunks) = Py.split t.
Proof.
  rewrite abstractive_try_chunks. unfold summary_chunks.
  destruct (range 0 (len (Py.split t)) 1024) as [idxs|] eqn:E; [|discriminate].
  eexists; split; [reflexivity|]. split; [reflexivity|].
  apply (word_windows (Py.split t) 1024 idxs);
    [lia | apply split_words_solid | exact E].
Qed.

End AbstractivePath.

(** ** The scanner on a run of one class *)

Section ClassRuns.
Context (p : ascii -> bool).

Lemma run_star r c : run (Star r) c = star_iter (run r) (length (rest c)) c.
Proof.
  simpl. generalize (length (rest c)) as fuel. intro fuel; revert c.
  induction fuel as [|k IH]; intro c; simpl; [reflexivity|].
  f_equal. apply flat_map_ext; intro m1.
  destruct (length (rest (fst m1)) <? length (rest c))%nat; [|reflexivity].
  now rewrite IH.
Qed.

Lemma span_end_rest prev s : rest (span_end p prev s) = skipn (span_len p s) s.
Proof.
  revert prev; induction s as [|a t IH]; intro prev; simpl; [reflexivity|].
  destruct (p a); [apply IH | reflexivity].
Qed.

Lemma span_len_le s : (span_len p s <= length s)%nat.
Proof. induction s as [|a t IH]; simpl; [lia|]. destruct (p a); lia. Qed.

(** The best match of [[p]*] takes the longest prefix within [p]. *)
Lemma star_class_head fuel : forall prev s,
  (length s <= fuel)%nat ->
  hd_error (star_iter (run (Chr p)) fuel {| before := prev; rest := s |})
  = Some (span_end p prev s, None).
Proof.
  set (step := run (Chr p)).
  assert (Hstep : forall c, step c =
            match rest c with
            | a :: t => if p a then [({| before := Some a; rest := t |}, None)] else []
            | [] => []
            end) by reflexivity.
  induction fuel as [|k IH]; intros prev s Hlen.
  - destruct s; [reflexivity | simpl in Hlen; lia].
  - destruct s as [|a t]; cbn [star_iter]; rewrite Hstep; cbn [rest]; [reflexivity|].
    simpl span_end. destruct (p a); [|reflexivity].
    cbn [flat_map fst snd rest].
    destruct (Nat.ltb_spec (length t) (length (a :: t))) as [_|H]; [|simpl in H; lia].
    rewrite app_nil_r.
    specialize (IH (Some a) t ltac:(simpl in Hlen; lia)).
    destruct (star_iter step k {| before := Some a; rest := t |}) as [|m ms];
      [discriminate|].
    simpl in IH. injection IH as ->. reflexivity.
Qed.

Lemma match_at_class prev s :
  match_at (Plus (Chr p)) {| before := prev; rest := s |} =
  match s with
  | a :: t => if p a then Some (span_end p (Some a) t, None) else None
  | [] => None
  end.
Proof.
  unfold match_at, Plus. destruct s as [|a t]; [reflexivity|].
  change (run (Seq (Chr p) (Star (Chr p))) {| before := prev; rest := a :: t |})
    with (flat_map (fun m1 =>
            map (fun m2 => (fst m2, later (snd m2) (snd m1)))
                (run (Star (Chr p)) (fst m1)))
            (if p a then [({| before := Some a; rest := t |}, None)] else [])).
  destruct (p a); [|reflexivity].
  cbn [flat_map fst snd]. rewrite app_nil_r, run_star.
  pose proof (star_class_head (length t) (Some a) t (le_n _)) as H.
  cbn [rest].
  destruct (star_iter (run (Chr p)) (length t) {| before := Some a; rest := t |})
    as [|m ms]; [discriminate|].
  simpl in H. injection H as ->. reflexivity.
Qed.

Lemma scan_class_prev s k prev1 prev2 :
  scan (Plus (Chr p)) k prev1 s = scan (Plus (Chr p)) k prev2 s.
Proof.
  destruct s as [|a t]; [reflexivity|]. cbn [scan].
  destruct k; [|reflexivity]. now rewrite !match_at_class.
Qed.

Lemma scan_class_skip s : forall k prev,
  scan (Plus (Chr p)) k prev s = scan (Plus (Chr p)) 0 None (skipn k s).
Proof.
  induction s as [|a t IH]; intros k prev.
  - now rewrite skipn_nil.
  - destruct k as [|k]; [apply scan_class_prev|]. cbn [scan]. apply IH.
Qed.

Lemma class_pieces_run a t :
  p a = true ->
  class_pieces p (a :: t)
  = Hit (a :: firstn (span_len p t) t) None :: class_pieces p (skipn (span_len p t) t).
Proof.
  revert a; induction t as [|b t IH]; intros a Ha.
  - simpl. now rewrite Ha.
  - cbn [class_pieces]. rewrite Ha. cbn [span_len].
    destruct (p b) eqn:Eb.
    + specialize (IH b Eb). cbn [class_pieces] in IH. rewrite Eb in IH.
      rewrite IH. reflexivity.
    + cbn [firstn skipn class_pieces]. rewrite Eb. reflexivity.
Qed.

Lemma scan_class_pieces_bounded n : forall s,
  (length s <= n)%nat -> scan (Plus (Chr p)) 0 None s = class_pieces p s.
Proof.
  induction n as [|n IH]; intros s Hlen.
  - destruct s; [reflexivity | simpl in Hlen; lia].
  - destruct s as [|a t]; [reflexivity|].
    cbn [scan]. rewrite match_at_class.
    destruct (p a) eqn:Ea.
    + rewrite class_pieces_run by assumption.
      rewrite span_end_rest, length_skipn.
      pose proof (span_len_le t) as Hspan.
      replace (length (a :: t) - (length t - span_len p t))%nat
        with (S (span_len p t))
        by (change (length (a :: t)) with (S (length t)); lia).
      rewrite scan_class_skip. cbn [firstn].
      rewrite IH by (rewrite length_skipn; simpl in Hlen; lia). reflexivity.
    + cbn [class_pieces]. rewrite Ea. rewrite (scan_class_prev t 0 (Some a) None).
      rewrite IH by (simpl in Hlen; lia). reflexivity.
Qed.

(** The pieces the scanner finds for [[p]+] are the maximal runs of [p]. *)
Lemma pieces_class s : pieces (Plus (Chr p)) s = class_pieces p s.
Proof. apply (scan_class_pieces_bounded (length s)). lia. Qed.

Lemma class_pieces_head_hit s w g ps :
  class_pieces p s = Hit w g :: ps -> exists a t, s = a :: t /\ p a = true.
Proof.
  destruct s as [|a t]; [discriminate|]. simpl.
  destruct (p a) eqn:E; [eauto | discriminate].
Qed.

Lemma class_pieces_lits s a : In (Lit a) (class_pieces p s) -> p a = false.
Proof.
  induction s as [|b t IH]; simpl; [tauto|].
  destruct (p b) eqn:E.
  - destruct (class_pieces p t) as [|[c|w g] ps]; simpl in *.
    + intros [H|[]]; discriminate.
    + intros [H|H]; [discriminate | auto].
    + intros [H|H]; [discriminate | auto].
  - intros [H|H]; [injection H as <-; assumption | auto].
Qed.

End ClassRuns.

(** ** Single-spaced text *)

Section SingleSpaced.

Lemma single_spaced_mono s :
  single_spaced true s = true -> single_spaced false s = true.
Proof.
  destruct s as [|a t]; simpl; [reflexivity|].
  destruct (isspace a); [|auto]. rewrite andb_false_r. discriminate.
Qed.

Lemma single_spaced_any b s :
  single_spaced true s = true -> single_spaced b s = true.
Proof. destruct b; [auto | apply single_spaced_mono]. Qed.

Lemma single_spaced_suffix w : forall b y,
  single_spaced b (w ++ y) = true -> single_spaced false y = true.
Proof.
  induction w as [|a w IH]; intros b y; simpl.
  - destruct b; [apply single_spaced_mono | auto].
  - destruct (isspace a); [|apply IH].
    intro H. apply andb_prop in H as [_ H]. eapply IH; eassumption.
Qed.

Lemma single_spaced_prefix w : forall b y,
  single_spaced b (w ++ y) = true -> single_spaced b w = true.
Proof.
  induction w as [|a w IH]; intros b y; simpl; [reflexivity|].
  destruct (isspace a); [|apply IH].
  intro H. apply andb_prop in H as [H1 H2]. rewrite H1. simpl. eapply IH; eassumption.
Qed.

(** Text that ends with ink can be followed by any single-spaced text. *)
Lemma single_spaced_app x : forall b y a r,
  single_spaced b x = true -> rev x = a :: r -> isspace a = false ->
  single_spaced false y = true -> single_spaced b (x ++ y) = true.
Proof.
  induction x as [|c x IH]; intros b y a r Hx Hrev Ha Hy; [discriminate|].
  destruct x as [|d x'].
  - simpl in Hrev. injection Hrev as -> _. simpl. now rewrite Ha.
  - assert (Hrev' : exists r', rev (d :: x') = a :: r').
    { simpl in Hrev. simpl. destruct (rev x' ++ [d]) as [|e q] eqn:E.
      - destruct (rev x'); discriminate.
      - simpl in Hrev. injection Hrev as -> _. eauto. }
    destruct Hrev' as (r' & Hrev').
    change ((c :: d :: x') ++ y) with (c :: (d :: x') ++ y).
    cbn [single_spaced] in Hx |- *.
    destruct (isspace c).
    + apply andb_prop in Hx as [H1 H2]. rewrite H1. cbn [andb].
      eapply IH; eassumption.
    + eapply IH; eassumption.
Qed.

Lemma tight_app b repl y :
  tight repl -> single_spaced false y = true -> single_spaced b (repl ++ y) = true.
Proof.
  intros [Hss (a & r & Hrev & Ha)] Hy.
  eapply single_spaced_app; try eassumption. now apply single_spaced_any.
Qed.

(** Replacing segments by tight replacements keeps a text single-spaced. *)
Lemma replace_single_spaced (f : text -> option text -> text) ps : forall b,
  (forall whole grp, In (Hit whole grp) ps -> tight (f whole grp)) ->
  single_spaced b (flat_map (fun p => match p with Lit a => [a] | Hit w _ => w end) ps)
    = true ->
  single_spaced b (flat_map (fun p => match p with
                                      | Lit a => [a]
                                      | Hit whole grp => f whole grp
                                      end) ps) = true.
Proof.
  induction ps as [|[a|w g] ps IH]; intros b Hf; [reflexivity| |].
  - cbn [flat_map app single_spaced].
    assert (Hf' : forall whole grp, In (Hit whole grp) ps -> tight (f whole grp))
      by (intros; apply Hf; now right).
    destruct (isspace a).
    + intro H. apply andb_prop in H as [H1 H2]. rewrite H1. cbn [andb]. auto.
    + auto.
  - cbn [flat_map]. intro H.
    apply tight_app; [apply Hf; now left|].
    apply IH; [intros; apply Hf; now right|].
    eapply single_spaced_suffix; eassumption.
Qed.

(** The pieces of a scan, put back together, are the subject. *)
Lemma scan_reconstruct r s : forall k prev,
  flat_map (fun p => match p with Lit a => [a] | Hit w _ => w end) (scan r k prev s)
  = skipn k s.
Proof.
  induction s as [|a s IH]; intros k prev; cbn [scan]; [now rewrite skipn_nil|].
  destruct k as [|k]; [|cbn [skipn]; apply IH].
  destruct (match_at r _) as [[c1 g]|].
  - destruct (length (a :: s) - length (rest c1))%nat as [|j].
    + cbn [flat_map]. rewrite IH. reflexivity.
    + cbn [flat_map firstn]. rewrite IH. simpl. now rewrite firstn_skipn.
  - cbn [flat_map]. rewrite IH. reflexivity.
Qed.

Lemma sub_with_single_spaced r f s b :
  (forall whole grp, In (Hit whole grp) (pieces r s) -> tight (f whole grp)) ->
  single_spaced b s = true -> single_spaced b (sub_with r f s) = true.
Proof.
  intros Hf Hs. unfold sub_with. apply replace_single_spaced; [assumption|].
  unfold pieces. now rewrite scan_reconstruct.
Qed.

Lemma sub_single_spaced r repl s b :
  tight repl -> single_spaced b s = true -> single_spaced b (Re.sub r repl s) = true.
Proof.
  intros Hrepl Hs.
  change (Re.sub r repl s) with (sub_with r (fun _ _ => repl) s).
  apply sub_with_single_spaced; auto.
Qed.

Lemma class_pieces_head_lit p s b ps :
  class_pieces p s = Lit b :: ps -> exists t, s = b :: t /\ p b = false.
Proof.
  destruct s as [|a t]; [discriminate|]. simpl.
  destruct (p a) eqn:E.
  - destruct (class_pieces p t) as [|[c|w g] qs]; discriminate.
  - intro H; injection H as <- _. eauto.
Qed.

(** Collapsing the runs of whitespace to one space gives single-spaced
    text, without a space in front when the subject has none. *)
Lemma collapse_single_spaced s :
  single_spaced false (Re.sub whitespace (str " ") s) = true /\
  (match s with a :: _ => isspace a = false | [] => True end ->
   single_spaced true (Re.sub whitespace (str " ") s) = true).
Proof.
  unfold Re.sub, whitespace. rewrite pieces_class.
  induction s as [|a t [IH1 IH2]]; [split; reflexivity|].
  cbn [class_pieces]. destruct (isspace a) eqn:Ea.
  - split; [|congruence].
    destruct (class_pieces isspace t) as [|[b|w g] ps] eqn:E.
    + reflexivity.
    + destruct (class_pieces_head_lit _ _ _ _ E) as (t' & -> & Hb).
      exact (IH2 Hb).
    + cbn [flat_map] in *. exact IH1.
  - cbn [flat_map app single_spaced]. rewrite Ea. split; intros; exact IH1.
Qed.

End SingleSpaced.

(** ** Stripped single-spaced text is its words joined by spaces *)

Section NormalForm.

Lemma lstrip_suffix s : exists w, s = w ++ lstrip s.
Proof.
  induction s as [|a t (w & IH)]; [exists []; reflexivity|]. simpl.
  destruct (isspace a); [|exists []; reflexivity].
  exists (a :: w). simpl. now rewrite <- IH.
Qed.

Lemma rstrip_prefix s : exists w, s = rstrip s ++ w.
Proof.
  unfold rstrip. destruct (lstrip_suffix (rev s)) as (w & Hw).
  exists (rev w). rewrite <- rev_app_distr, <- Hw. now rewrite rev_involutive.
Qed.

Lemma rstrip_ends_inked s : ends_inked (rstrip s).
Proof.
  unfold ends_inked, rstrip. rewrite rev_involutive.
  destruct (lstrip (rev s)) as [|a r] eqn:E; [exact I|].
  eapply lstrip_head; eassumption.
Qed.

Lemma ends_inked_suffix w y : ends_inked (w ++ y) -> ends_inked y.
Proof.
  unfold ends_inked. rewrite rev_app_distr.
  destruct (rev y) as [|a r]; [auto | simpl; auto].
Qed.

Lemma ends_inked_cons a t : ends_inked (a :: t) -> t <> [] -> ends_inked t.
Proof. intros H _. apply (ends_inked_suffix [a] t H). Qed.

Lemma single_spaced_lead b s :
  single_spaced b s = true ->
  match s with a :: _ => isspace a = false | [] => True end ->
  single_spaced true s = true.
Proof.
  destruct s as [|a t]; simpl; [reflexivity|]. intros H Ha. now rewrite Ha in *.
Qed.

(** Stripping single-spaced text leaves it single-spaced, with ink at both
    ends. *)
Lemma strip_single_spaced b s :
  single_spaced b s = true ->
  single_spaced true (strip s) = true /\ ends_inked (strip s).
Proof.
  intro H. unfold strip.
  destruct (rstrip_prefix s) as (w & Hw).
  assert (Hy : single_spaced b (rstrip s) = true)
    by (rewrite Hw in H; eapply single_spaced_prefix; eassumption).
  destruct (lstrip_suffix (rstrip s)) as (v & Hv).
  split.
  - apply (single_spaced_lead false).
    + rewrite Hv in Hy. eapply single_spaced_suffix; eassumption.
    + destruct (lstrip (rstrip s)) as [|a r] eqn:E; [exact I|].
      eapply lstrip_head; eassumption.
  - apply (ends_inked_suffix v). rewrite <- Hv. apply rstrip_ends_inked.
Qed.

Lemma join_spaced_tail w ws : join (str " ") (w :: ws) = w ++ spaced_tail ws.
Proof. destruct ws; simpl; [now rewrite app_nil_r | reflexivity]. Qed.

Lemma split_go_render y : forall b,
  single_spaced b y = true -> ends_inked y ->
  y = fst (Py.split_go y) ++ spaced_tail (snd (Py.split_go y)).
Proof.
  induction y as [|a t IH]; intros b Hss Hend; [reflexivity|].
  cbn [single_spaced] in Hss. cbn [Py.split_go].
  destruct (isspace a) eqn:Ea.
  - apply andb_prop in Hss as [Hab Hss]. apply andb_prop in Hab as [Ha _].
    apply Ascii.eqb_eq in Ha. subst a.
    destruct t as [|c t'].
    { unfold ends_inked in Hend. simpl in Hend. discriminate. }
    assert (Hc : isspace c = false).
    { cbn [single_spaced] in Hss. destruct (isspace c); [|reflexivity].
      rewrite andb_false_r in Hss. discriminate. }
    specialize (IH true Hss (ends_inked_cons _ _ Hend ltac:(discriminate))).
    revert IH. cbn [Py.split_go]. destruct (Py.split_go t') as [w ws]. rewrite Hc.
    cbn [fst snd cons_word app]. intro IH.
    unfold spaced_tail at 1. rewrite join_spaced_tail.
    cbn [app] in IH |- *. now rewrite <- IH.
  - destruct t as [|c t'].
    + reflexivity.
    + specialize (IH false Hss (ends_inked_cons _ _ Hend ltac:(discriminate))).
      destruct (Py.split_go (c :: t')) as [w ws]. cbn [fst snd] in *.
      cbn [app]. now rewrite <- IH.
Qed.

Lemma join_split_normal y :
  single_spaced true y = true -> ends_inked y -> join (str " ") (Py.split y) = y.
Proof.
  intros Hss Hend. destruct y as [|a t]; [reflexivity|].
  assert (Ha : isspace a = false).
  { cbn [single_spaced] in Hss. destruct (isspace a); [|reflexivity].
    rewrite andb_false_r in Hss. discriminate. }
  pose proof (split_go_render (a :: t) true Hss Hend) as Hr.
  unfold Py.split. revert Hr. cbn [Py.split_go].
  destruct (Py.split_go t) as [w ws]. rewrite Ha. cbn [fst snd cons_word].
  intro Hr. rewrite join_spaced_tail. now rewrite <- Hr.
Qed.

End NormalForm.

(** ** Preprocessing *)

Section Preprocessing.
Import KeywordExtraction.

Lemma run_chars_exact l : forall c m,
  In m (run (seqs (map (fun x => Chr (Ascii.eqb x)) l)) c) ->
  rest c = l ++ rest (fst m).
Proof.
  induction l as [|x l IH]; intros c m.
  - simpl. intros [<-|[]]. reflexivity.
  - destruct l as [|y l'].
    + cbn [map seqs run]. destruct (rest c) as [|a t]; [intros []|].
      destruct (Ascii.eqb_spec x a) as [->|]; [|intros []].
      intros [<-|[]]. reflexivity.
    + change (seqs (map (fun x => Chr (Ascii.eqb x)) (x :: y :: l')))
        with (Seq (Chr (Ascii.eqb x)) (seqs (map (fun x => Chr (Ascii.eqb x)) (y :: l')))).
      cbn [run]. rewrite in_flat_map. intros (m1 & Hm1 & Hm).
      apply in_map_iff in Hm as (m2 & <- & Hm2).
      apply IH in Hm2. cbn [fst].
      destruct (rest c) as [|a t]; [destruct Hm1|].
      destruct (Ascii.eqb_spec x a) as [->|]; [|destruct Hm1].
      destruct Hm1 as [<-|[]]. cbn [fst rest] in Hm2. now rewrite Hm2.
Qed.

Lemma run_lit_exact s c m : In m (run (lit s) c) -> rest c = str s ++ rest (fst m).
Proof. apply run_chars_exact. Qed.

(** A match of [boilerplate] is its group, one of the three literals. *)
Lemma boilerplate_group c m :
  In m (run boilerplate c) ->
  exists g, snd m = Some g /\
            In g (map str ["WHEREAS"; "NOW THEREFORE"; "IN WITNESS WHEREOF"]%string) /\
            firstn (length (rest c) - length (rest (fst m))) (rest c) = g.
Proof.
  set (A := alts [lit "WHEREAS"; lit "NOW THEREFORE"; lit "IN WITNESS WHEREOF"]).
  change (run boilerplate c)
    with (flat_map (fun m1 =>
            map (fun m2 => (fst m2, later (snd m2) (snd m1)))
                (run (Seq (Group A) Bound) (fst m1)))
            (run Bound c)).
  rewrite in_flat_map. intros (m0 & Hm0 & Hm).
  assert (E0 : m0 = (c, None)).
  { simpl in Hm0. destruct (at_boundary c); [|destruct Hm0].
    destruct Hm0 as [<-|[]]; reflexivity. }
  subst m0. apply in_map_iff in Hm as (m2 & <- & Hm2).
  change (run (Seq (Group A) Bound) (fst (c, @None text)))
    with (flat_map (fun m1 =>
            map (fun m3 => (fst m3, later (snd m3) (snd m1))) (run Bound (fst m1)))
            (map (fun mA =>
                    (fst mA,
                     Some (firstn (length (rest c) - length (rest (fst mA))) (rest c))))
                 (run A c))) in Hm2.
  rewrite in_flat_map in Hm2. destruct Hm2 as (m1 & Hm1 & Hm2).
  apply in_map_iff in Hm1 as (mA & <- & HmA).
  apply in_map_iff in Hm2 as (m3 & <- & Hm3).
  assert (E3 : m3 = (fst mA, None)).
  { simpl in Hm3. destruct (at_boundary (fst mA)); [|destruct Hm3].
    destruct Hm3 as [<-|[]]; reflexivity. }
  rewrite E3. cbn [fst snd later].
  eexists; split; [reflexivity|].
  assert (Hlit : forall s, In mA (run (lit s) c) ->
            firstn (length (rest c) - length (rest (fst mA))) (rest c) = str s).
  { intros s Hs. apply run_lit_exact in Hs. rewrite Hs. apply firstn_consumed. }
  unfold A in HmA.
  change (run (alts [lit "WHEREAS"; lit "NOW THEREFORE"; lit "IN WITNESS WHEREOF"]) c)
    with (run (lit "WHEREAS") c ++
          run (lit "NOW THEREFORE") c ++ run (lit "IN WITNESS WHEREOF") c) in HmA.
  rewrite !in_app_iff in HmA.
  destruct HmA as [H|[H|H]]; rewrite (Hlit _ H); simpl; auto.
Qed.

Lemma boilerplate_replacement_tight s whole grp :
  In (Hit whole grp) (pieces boilerplate s) -> tight (lower_group whole grp).
Proof.
  intro H. apply scan_hits in H as (c & m & Hm & <-).
  destruct (boilerplate_group c m Hm) as (g & -> & Hg & _).
  simpl in Hg. destruct Hg as [<-|[<-|[<-|[]]]];
    (split; [reflexivity | eexists; eexists; split; reflexivity]).
Qed.

Lemma literal_tight (s : string) :
  single_spaced true (str s) = true ->
  match rev (str s) with a :: _ => isspace a = false | [] => False end ->
  tight (str s).
Proof.
  intros H1 H2. split; [assumption|].
  destruct (rev (str s)) as [|a r]; [destruct H2 | eauto].
Qed.

(** X17.  The text [preprocess_text] returns is its own words joined by
    single spaces: no whitespace at either end, and between two words
    exactly one plain space. *)
Theorem preprocess_text_normal t :
  join (str " ") (Py.split (preprocess_text t)) = preprocess_text t.
Proof.
  unfold preprocess_text.
  destruct (collapse_single_spaced t) as [H _].
  apply (sub_with_single_spaced boilerplate lower_group) in H;
    [|apply boilerplate_replacement_tight].
  apply strip_single_spaced in H as [H1 H2].
  now apply join_split_normal.
Qed.

Lemma preprocess_legal_text_tidy t :
  single_spaced true (Summarization.preprocess_legal_text t) = true /\
  ends_inked (Summarization.preprocess_legal_text t).
Proof.
  unfold Summarization.preprocess_legal_text.
  destruct (collapse_single_spaced t) as [H _].
  change whitespace with Summarization.spaces in H.
  apply (sub_single_spaced Summarization.us_citation (str "[CITATION]")) in H;
    [|apply literal_tight; reflexivity].
  apply (sub_single_spaced Summarization.f_citation (str "[CITATION]")) in H;
    [|apply literal_tight; reflexivity].
  apply (sub_single_spaced (Summarization.whole_word "WHEREAS") (str "Given that")) in H;
    [|apply literal_tight; reflexivity].
  apply (sub_single_spaced (Summarization.whole_word "NOW, THEREFORE") (str "Therefore")) in H;
    [|apply literal_tight; reflexivity].
  apply (sub_single_spaced (Summarization.whole_word "IN WITNESS WHEREOF")
                           (str "In confirmation")) in H;
    [|apply literal_tight; reflexivity].
  now apply strip_single_spaced in H.
Qed.

(** X18.  The text [preprocess_legal_text] returns is its own words joined
    by single spaces, the replacements for citations and connectors
    included. *)
Theorem preprocess_legal_text_normal t :
  join (str " ") (Py.split (Summarization.preprocess_legal_text t))
  = Summarization.preprocess_legal_text t.
Proof.
  destruct (preprocess_legal_text_tidy t) as [H1 H2]. now apply join_split_normal.
Qed.

End Preprocessing.

(** ** Sentences and the sentence count of a summary *)

Section SentenceCount.
Import Summarization.

Lemma split_go_count ps : length (snd (Re.split_go ps)) = hits ps.
Proof.
  induction ps as [|[a|w g] ps IH]; simpl; [reflexivity| |];
    destruct (Re.split_go ps); simpl in *; lia.
Qed.

Lemma re_split_length r s : length (Re.split r s) = S (hits (pieces r s)).
Proof.
  unfold Re.split. pose proof (split_go_count (pieces r s)) as H.
  destruct (Re.split_go (pieces r s)); simpl in *. lia.
Qed.

(** The fragments between terminators hold no terminator. *)
Lemma fragments_unterminated t s :
  In s (Re.split terminators t) -> unterminated s.
Proof.
  unfold Re.split, terminators. rewrite pieces_class. intro H.
  apply Forall_forall; intros a Ha.
  apply (class_pieces_lits isterm t).
  apply (split_go_chars (class_pieces isterm t) s a); [|assumption].
  destruct (Re.split_go (class_pieces isterm t)); exact H.
Qed.

Lemma long_sentences_spec t s :
  In s (long_sentences t) -> unterminated s /\ 20 < len s.
Proof.
  unfold long_sentences. rewrite in_map_iff. intros (s0 & <- & H).
  apply filter_In in H as [Hin Hlen]. apply andb_prop in Hlen as [_ Hlen].
  apply Z.ltb_lt in Hlen. split; [|assumption].
  apply Forall_forall; intros a Ha. apply strip_incl in Ha.
  pose proof (fragments_unterminated t s0 Hin) as Hu.
  unfold unterminated in Hu. rewrite Forall_forall in Hu. auto.
Qed.

Lemma class_pieces_lits_app p w s :
  Forall (fun a => p a = false) w ->
  class_pieces p (w ++ s) = map Lit w ++ class_pieces p s.
Proof.
  induction 1 as [|a w Ha Hw IH]; [reflexivity|].
  simpl. now rewrite Ha, IH.
Qed.

Lemma hits_app ps qs : hits (ps ++ qs) = (hits ps + hits qs)%nat.
Proof.
  induction ps as [|[a|w g] ps IH]; simpl; [reflexivity | assumption | now rewrite IH].
Qed.

Lemma hits_lits w : hits (map Lit w) = 0%nat.
Proof. induction w; simpl; auto. Qed.

(** In the join of sentences without terminators, closed by a period,
    every sentence brings one run of terminators. *)
Lemma hits_joined_sentences s ss :
  Forall unterminated (s :: ss) ->
  hits (class_pieces isterm (join (str ". ") (s :: ss) ++ str ".")) = S (length ss).
Proof.
  revert s; induction ss as [|s' ss IH]; intros s H;
    inversion H as [|? ? Hs Hss]; subst.
  - cbn [join]. rewrite class_pieces_lits_app by exact Hs.
    rewrite hits_app, hits_lits. reflexivity.
  - change (join (str ". ") (s :: s' :: ss) ++ str ".")
      with ((s ++ str ". " ++ join (str ". ") (s' :: ss)) ++ str ".").
    rewrite <- !app_assoc.
    rewrite class_pieces_lits_app by exact Hs.
    rewrite hits_app, hits_lits.
    change (str ". " ++ join (str ". ") (s' :: ss) ++ str ".")
      with ("."%char :: " "%char :: (join (str ". ") (s' :: ss) ++ str ".")).
    specialize (IH s' Hss).
    cbn [class_pieces]. change (isterm ".") with true. change (isterm " ") with false.
    cbv iota. cbn [hits]. rewrite IH. reflexivity.
Qed.

Lemma sentence_pieces_count ss :
  Forall unterminated ss ->
  len (Re.split terminators (join (str ". ") ss ++ str "."))
  = Z.max (len ss) 1 + 1.
Proof.
  intro H. unfold len. rewrite re_split_length.
  unfold terminators. rewrite pieces_class.
  destruct ss as [|s ss]; [reflexivity|].
  rewrite hits_joined_sentences by assumption. simpl length. lia.
Qed.

Lemma selected_from_sentences sentences k x :
  In x (selected_sentences sentences k) -> In (sc_sentence x) sentences.
Proof.
  unfold selected_sentences. intro H.
  apply (Permutation_in _ (Permutation_sym (sort_asc_perm sc_index _))) in H.
  apply slice_incl in H.
  apply (Permutation_in _ (Permutation_sym (sort_desc_perm sc_score _))) in H.
  pose proof (sentence_scores_positions sentences) as Hpos.
  rewrite Forall_forall in Hpos. destruct (Hpos x H) as (_ & Hnth & _).
  eapply nth_error_In; eassumption.
Qed.

(** Every extractive summary is sentences of the text, fragments of more
    than 20 characters without a terminator, joined by ". " and closed by
    a period. *)
Lemma extractive_summary_shape t k :
  exists L,
    extractive_summarization t k = join (str ". ") L ++ str "." /\
    Forall (fun s => In s (long_sentences t)) L.
Proof.
  unfold extractive_summarization.
  destruct (len (long_sentences t) <=? k).
  - exists (long_sentences t). split; [reflexivity|].
    apply Forall_forall; auto.
  - eexists; split; [reflexivity|].
    apply Forall_forall; intros s Hs. apply in_map_iff in Hs as (x & <- & Hx).
    eapply selected_from_sentences; eassumption.
Qed.

(** X19.  For an extractive request on a text with a word, the summary is a
    list of sentences of the preprocessed text (each a fragment of more than
    20 characters without terminator) joined by ". " and closed by a
    period, and the ['sentences'] entry of the result is one more than the
    number of these sentences (2 when there is none): the split on
    terminators also counts the empty piece after the last period. *)
Theorem summary_sentence_count_is_one_more self t length :
  Py.split t <> [] ->
  exists r L,
    fst (generate_summary self t (str "extractive") length) = Ok r /\
    summary r = join (str ". ") L ++ str "." /\
    Forall (fun s => In s (long_sentences (preprocess_legal_text t)) /\
                     unterminated s /\ 20 < len s) L /\
    sentences r = Z.max (len L) 1 + 1.
Proof.
  intro Ht.
  assert (Hw : (len (Py.split t) =? 0) = false).
  { apply Z.eqb_neq. destruct (Py.split t); [contradiction | unfold len; simpl; lia]. }
  assert (Hshape : forall k, exists r L,
     (let '(summary, self') := (extractive_summarization (preprocess_legal_text t) k, self) in
      if len (Py.split t) =? 0 then (@Raise SummaryResult ZeroDivisionError, self')
      else (Ok {| summary := summary; summary_type := str "extractive"; length_ := length;
                  original_words := len (Py.split t);
                  summary_words := len (Py.split summary);
                  compression_ratio :=
                    (inject_Z (len (Py.split t) - len (Py.split summary))
                     / inject_Z (len (Py.split t)) * inject_Z 100)%Q;
                  sentences := len (Re.split terminators summary) |}, self'))
     = (Ok r, self) /\
     summary r = join (str ". ") L ++ str "." /\
     Forall (fun s => In s (long_sentences (preprocess_legal_text t)) /\
                      unterminated s /\ 20 < len s) L /\
     sentences r = Z.max (len L) 1 + 1).
  { intro k. destruct (extractive_summary_shape (preprocess_legal_text t) k) as (L & EL & HL).
    rewrite Hw. eexists; exists L. split; [reflexivity|]. cbn [summary sentences].
    assert (HL' : Forall (fun s => In s (long_sentences (preprocess_legal_text t)) /\
                                   unterminated s /\ 20 < len s) L).
    { eapply Forall_impl; [|exact HL]. intros s Hs.
      split; [assumption | now apply long_sentences_spec in Hs]. }
    split; [assumption|]. split; [assumption|].
    rewrite EL. apply sentence_pieces_count.
    eapply Forall_impl; [|exact HL']. intros s (_ & Hu & _); exact Hu. }
  unfold generate_summary. change (text_eqb (str "extractive") (str "extractive")) with true.
  destruct (text_eqb length (str "short")); [|destruct (text_eqb length (str "medium"))];
    cbv zeta beta iota;
    [destruct (Hshape 3) as (r & L & E & H) | destruct (Hshape 5) as (r & L & E & H)
     | destruct (Hshape 8) as (r & L & E & H)];
    exists r, L; (split; [|exact H]); cbv zeta beta iota in E; rewrite E; reflexivity.
Qed.

Lemma summary_sentence_count_is_one_more_witness :
  exists r,
    fst (generate_summary {| model_name := []; max_length := 150; summarizer := None |}
           (str "The tenant shall pay the landlord on time. Nothing of note is said here.")
           (str "extractive") (str "short")) = Ok r /\
    summary r = str "The tenant shall pay the landlord on time. Nothing of note is said here." /\
    sentences r = 3.
Proof.
  destruct (summary_sentence_count_is_one_more
              {| model_name := []; max_length := 150; summarizer := None |}
              (str "The tenant shall pay the landlord on time. Nothing of note is said here.")
              (str "short")) as (r & L & Hr & _);
    [vm_compute; discriminate|].
  exists r. split; [exact Hr|].
  vm_compute in Hr. injection Hr as <-. split; reflexivity.
Defined.

End SentenceCount.

(** ** What the model is given *)

Section ModelInput.
Import Summarization.

Lemma strip_fixed y :
  match y with a :: _ => isspace a = false | [] => True end ->
  ends_inked y -> strip y = y.
Proof.
  intros Hhead Hend. unfold strip, rstrip. unfold ends_inked in Hend.
  assert (E : lstrip (rev y) = rev y).
  { destruct (rev y) as [|a r]; [reflexivity|]. now apply lstrip_solid_head. }
  rewrite E, rev_involutive.
  destruct y as [|a t]; [reflexivity|]. now apply lstrip_solid_head.
Qed.

Lemma single_spaced_head y :
  single_spaced true y = true ->
  match y with a :: _ => isspace a = false | [] => True end.
Proof.
  destruct y as [|a t]; [auto|]. cbn [single_spaced].
  destruct (isspace a); [|reflexivity]. rewrite andb_false_r. discriminate.
Qed.

Lemma range_single n step : 0 < n <= step -> range 0 n step = Some [0].
Proof.
  intro H. unfold range. destruct (Z.eqb_spec step 0); [lia|].
  rewrite range_len_forward by lia.
  rewrite Z.div_small by lia. reflexivity.
Qed.

(** A text in normal form of at most 1024 words and more than 50
    characters is one chunk, the text itself. *)
Lemma abstractive_try_single self p y :
  single_spaced true y = true -> ends_inked y ->
  len (Py.split y) <= 1024 -> 50 < len y ->
  abstractive_try self p y = p y (max_length self) 30.
Proof.
  intros Hss Hend Hwords Hlen.
  assert (Hne : Py.split y <> []).
  { intro E. apply split_nil_blank in E.
    pose proof (single_spaced_head y Hss) as Hh.
    destruct y as [|a t]; [unfold len in Hlen; simpl in Hlen; lia|].
    unfold blank in E. simpl in E. rewrite Hh in E. discriminate. }
  assert (Hpos : 0 < len (Py.split y)).
  { destruct (Py.split y); [contradiction | unfold len; simpl; lia]. }
  rewrite abstractive_try_chunks. unfold summary_chunks.
  rewrite range_single by lia. cbn [map].
  rewrite slice_whole by lia. rewrite join_split_normal by assumption.
  cbn [summarize_chunks].
  rewrite strip_fixed by (try assumption; now apply single_spaced_head).
  destruct (Z.ltb_spec 50 (len y)); [|lia].
  destruct (p y (max_length self) 30); reflexivity.
Qed.

(** X20.  With a model, a request of a type other than extractive on a
    text whose preprocessed form has at most 1024 words and more than 50
    characters calls the model once, on the preprocessed text itself, with
    the [max_length] of the tier asked for and [min_length] 30; the summary
    is the model's answer, or the extractive summary of five sentences when
    the call raises. *)
Theorem model_reads_the_preprocessed_text self p t summary_type length :
  summarizer self = Some p ->
  text_eqb summary_type (str "extractive") = false ->
  Py.split t <> [] ->
  len (Py.split (preprocess_legal_text t)) <= 1024 ->
  50 < len (preprocess_legal_text t) ->
  exists r,
    fst (generate_summary self t summary_type length) = Ok r /\
    summary r =
      match p (preprocess_legal_text t)
              (if text_eqb length (str "short") then 80
               else if text_eqb length (str "medium") then 150 else 250) 30 with
      | Some s => s
      | None => extractive_summarization (preprocess_legal_text t) 5
      end.
Proof.
  intros Hs Hty Ht Hwords Hlen. unfold generate_summary. rewrite Hty.
  assert (Hw : (len (Py.split t) =? 0) = false).
  { apply Z.eqb_neq. destruct (Py.split t); [contradiction | unfold len; simpl; lia]. }
  destruct (preprocess_legal_text_tidy t) as [Hss Hend].
  assert (Habs : forall m,
            abstractive_summarization (set_max_length self m) (preprocess_legal_text t)
            = match p (preprocess_legal_text t) m 30 with
              | Some s => s
              | None => extractive_summarization (preprocess_legal_text t) 5
              end).
  { intro m. unfold abstractive_summarization. cbn [set_max_length summarizer].
    rewrite Hs, abstractive_try_single by assumption. reflexivity. }
  destruct (text_eqb length (str "short")); [|destruct (text_eqb length (str "medium"))];
    cbv zeta; rewrite Habs, Hw; eexists; split; reflexivity.
Qed.

Lemma model_reads_the_preprocessed_text_witness :
  let t := str "WHEREAS  the tenant shall pay
 the landlord on time, see 12 U.S. 34 for more. " in
  let p : pipeline := fun c m _ => Some (if m =? 80 then c else []) in
  exists r,
    fst (generate_summary {| model_name := []; max_length := 150; summarizer := Some p |}
                          t (str "abstractive") (str "short")) = Ok r /\
    summary r = str "Given that the tenant shall pay the landlord on time, see [CITATION] for more.".
Proof.
  cbv zeta.
  apply (model_reads_the_preprocessed_text
           {| model_name := []; max_length := 150;
              summarizer := Some (fun c m _ => Some (if m =? 80 then c else [])) |}
           (fun c m _ => Some (if m =? 80 then c else []))
           (str "WHEREAS  the tenant shall pay
 the landlord on time, see 12 U.S. 34 for more. ")
           (str "abstractive") (str "short")).
  - reflexivity.
  - reflexivity.
  - vm_compute; discriminate.
  - vm_compute; discriminate.
  - vm_compute; reflexivity.
Defined.

End ModelInput.

(** ** Sentence chunks give their sentences back *)

Section SentenceRoundTrip.
Import TextChunking.

Lemma strip_head s a r : strip s = a :: r -> isspace a = false.
Proof. unfold strip. apply lstrip_head. Qed.

Lemma strip_ends_inked s : ends_inked (strip s).
Proof.
  unfold strip. destruct (lstrip_suffix (rstrip s)) as (v & Hv).
  apply (ends_inked_suffix v). rewrite <- Hv. apply rstrip_ends_inked.
Qed.

Lemma strip_idempotent s : strip (strip s) = strip s.
Proof.
  apply strip_fixed; [|apply strip_ends_inked].
  destruct (strip s) as [|a r] eqn:E; [exact I|]. eapply strip_head; eassumption.
Qed.

Lemma trimmed_head u : trimmed u -> exists a r, u = a :: r /\ isspace a = false.
Proof.
  intros [Hne E]. destruct u as [|a r]; [contradiction|].
  exists a, r. split; [reflexivity|]. eapply strip_head; eassumption.
Qed.

Lemma trimmed_last u : trimmed u -> exists b q, rev u = b :: q /\ isspace b = false.
Proof.
  intros [Hne E]. pose proof (strip_ends_inked u) as H. rewrite E in H.
  unfold ends_inked in H. destruct (rev u) as [|b q] eqn:Er.
  - apply (f_equal (@rev ascii)) in Er. rewrite rev_involutive in Er. contradiction.
  - eauto.
Qed.

(** The sentences of a text are trimmed and hold no terminator. *)
Lemma sentences_spec t u :
  In u (stripped (Re.split terminators t)) -> trimmed u /\ unterminated u.
Proof.
  unfold stripped. rewrite in_map_iff. intros (s0 & <- & H).
  apply filter_In in H as [Hin Htruthy]. split; [split|].
  - destruct (strip s0); [discriminate | discriminate].
  - apply strip_idempotent.
  - apply Forall_forall; intros a Ha. apply strip_incl in Ha.
    pose proof (fragments_unterminated t s0 Hin) as Hu.
    unfold unterminated in Hu. rewrite Forall_forall in Hu. auto.
Qed.

Lemma strip_spaced u : trimmed u -> strip (" "%char :: u) = u.
Proof.
  intro Hu. destruct (trimmed_head u Hu) as (a & r & E & Ha).
  destruct (trimmed_last u Hu) as (b & q & Er & Hb).
  unfold strip, rstrip. cbn [rev]. rewrite Er.
  change ((b :: q) ++ [" "%char]) with (b :: (q ++ [" "%char])).
  rewrite lstrip_solid_head by assumption.
  change (b :: (q ++ [" "%char])) with ((b :: q) ++ [" "%char]).
  rewrite <- Er, rev_app_distr, rev_involutive. cbn [rev app lstrip].
  change (isspace " ") with true. cbv iota.
  rewrite E. now apply lstrip_solid_head.
Qed.

Lemma re_split_go_lits w ps :
  Re.split_go (map Lit w ++ ps)
  = (w ++ fst (Re.split_go ps), snd (Re.split_go ps)).
Proof.
  induction w as [|a w IH]; cbn [map app Re.split_go].
  - now destruct (Re.split_go ps).
  - rewrite IH. reflexivity.
Qed.

(** The split of a joined window: the first sentence, the others behind a
    space, and the empty piece after the last period. *)
Lemma sentence_pieces W : forall u,
  Forall unterminated (u :: W) ->
  Re.split_go (class_pieces isterm (join (str ". ") (u :: W) ++ str "."))
  = (u, map (cons " "%char) W ++ [[]]).
Proof.
  induction W as [|u' W IH]; intros u H; inversion H as [|? ? Hu HW]; subst.
  - cbn [join]. rewrite class_pieces_lits_app by exact Hu.
    rewrite re_split_go_lits. cbn. now rewrite app_nil_r.
  - change (join (str ". ") (u :: u' :: W) ++ str ".")
      with ((u ++ str ". " ++ join (str ". ") (u' :: W)) ++ str ".").
    rewrite <- !app_assoc.
    rewrite class_pieces_lits_app by exact Hu.
    change (str ". " ++ join (str ". ") (u' :: W) ++ str ".")
      with ("."%char :: " "%char :: (join (str ". ") (u' :: W) ++ str ".")).
    rewrite re_split_go_lits.
    cbn [class_pieces]. change (isterm ".") with true. change (isterm " ") with false.
    cbv iota. cbn [Re.split_go]. rewrite (IH u' HW).
    cbn [fst snd map app]. now rewrite app_nil_r.
Qed.

Lemma stripped_app l1 l2 : stripped (l1 ++ l2) = stripped l1 ++ stripped l2.
Proof. unfold stripped. now rewrite filter_app, map_app. Qed.

Lemma stripped_spaced W :
  Forall trimmed W -> stripped (map (cons " "%char) W) = W.
Proof.
  induction 1 as [|u W Hu HW IH]; [reflexivity|].
  change (map (cons " "%char) (u :: W)) with ([" "%char :: u] ++ map (cons " "%char) W).
  rewrite stripped_app, IH. unfold stripped. cbn [filter].
  rewrite (strip_spaced u Hu).
  destruct (trimmed_head u Hu) as (a & r & -> & _). cbn [truthy map].
  fold (strip (" "%char :: a :: r)). 
  rewrite (strip_spaced (a :: r) Hu). reflexivity.
Qed.

(** Cutting the content of a window of sentences at the terminators, as
    the chunker cuts the text, gives the window back. *)
Lemma sentences_round_trip W :
  W <> [] -> Forall trimmed W -> Forall unterminated W ->
  strip (join (str ". ") W ++ str ".") = join (str ". ") W ++ str "." /\
  stripped (Re.split terminators (join (str ". ") W ++ str ".")) = W.
Proof.
  intros Hne Ht Hu. destruct W as [|u W]; [contradiction|]. split.
  - inversion Ht as [|? ? Hu0 _]; subst.
    destruct (trimmed_head u Hu0) as (a & r & E & Ha).
    destruct (join_head (str ". ") u W a r E) as (r' & E').
    apply strip_fixed.
    + change (match (join (str ". ") (u :: W) ++ str ".") with
              | a :: _ => isspace a = false | [] => True end).
      assert (E'' : join (str ". ") (u :: W) = a :: r') by exact E'.
      rewrite E''. exact Ha.
    + unfold ends_inked. rewrite rev_app_distr. reflexivity.
  - unfold Re.split, terminators. rewrite pieces_class, sentence_pieces by assumption.
    inversion Ht as [|? ? Hu0 HW]; subst.
    change (u :: map (cons " "%char) W ++ [[]])
      with ([u] ++ map (cons " "%char) W ++ [[]]).
    rewrite !stripped_app, stripped_spaced by assumption.
    destruct Hu0 as [Hne0 E0].
    unfold stripped. cbn [filter]. rewrite E0.
    destruct u as [|a r]; [contradiction|]. cbn [truthy map]. rewrite E0.
    cbn. now rewrite app_nil_r.
Qed.

(** X21.  For the sentence method, a positive chunk size and a smaller
    overlap, the content of a chunk is its sentences joined by ". " and
    closed by a period, with nothing to strip; cutting the content into
    sentences the way the text was cut gives the sentences of the window
    back, so [sentence_count] is the number of sentences of the content. *)
Theorem sentence_chunk_round_trip self t :
  method self = str "sentences" ->
  0 < chunk_size self -> overlap self < chunk_size self ->
  exists l,
    process_document self t = Ok l /\
    forall c, In c l ->
      content c = join (str ". ")
                    (slice (units (str "sentences") t) (start_index c) (end_index c))
                  ++ str "." /\
      units (str "sentences") (content c)
      = slice (units (str "sentences") t) (start_index c) (end_index c) /\
      sentence_count c = len (units (str "sentences") (content c)).
Proof.
  intros Hm Hsize Hov.
  destruct (process_document_layout self t) as (l & Hl & Hlen & Hnth);
    [rewrite Hm; reflexivity | assumption | assumption |].
  exists l; split; [assumption|]. intros c Hc.
  apply In_nth_error in Hc as (k & Hk).
  assert (Hklt : (k < length l)%nat) by (apply nth_error_Some; congruence).
  destruct (Hnth _ _ Hk) as (_ & Hs & He & Hcount & Hcontent).
  rewrite Hm in *.
  assert (Hb : 0 <= Z.of_nat k * (chunk_size self - overlap self)
               < len (units (str "sentences") t))
    by (apply range_len_bound; [lia | rewrite <- Hlen; exact Hklt]).
  set (w := slice (units (str "sentences") t) (start_index c) (end_index c)) in *.
  assert (Hwlen : len w = end_index c - start_index c)
    by (unfold w; apply slice_len_between; lia).
  assert (Hspec : forall u, In u w -> trimmed u /\ unterminated u).
  { intros u Hu. apply slice_incl in Hu. now apply (sentences_spec t). }
  destruct (sentences_round_trip w) as [E1 E2].
  - intro E. rewrite E in Hwlen. unfold len in Hwlen. simpl in Hwlen. lia.
  - apply Forall_forall; intros u Hu. now apply Hspec.
  - apply Forall_forall; intros u Hu. now apply Hspec.
  - rewrite joined_sentences, E1 in Hcontent.
    split; [exact Hcontent|].
    assert (Eu : units (str "sentences") (content c) = w).
    { rewrite Hcontent. exact E2. }
    split; [exact Eu|]. rewrite Eu, Hwlen.
    injection Hcount as Hcount. exact Hcount.
Qed.

Lemma sentence_chunk_round_trip_witness :
  exists l,
    process_document {| chunk_size := 2; overlap := 1; method := str "sentences" |}
                     (str "Pay the rent...  Keep the peace!? Mind the roof") = Ok l /\
    map content l = [str "Pay the rent. Keep the peace."; str "Keep the peace. Mind the roof.";
                     str "Mind the roof."] /\
    forall c, In c l ->
      units (str "sentences") (content c)
      = slice (units (str "sentences")
                 (str "Pay the rent...  Keep the peace!? Mind the roof"))
              (start_index c) (end_index c) /\
      sentence_count c = len (units (str "sentences") (content c)).
Proof.
  destruct (sentence_chunk_round_trip
              {| chunk_size := 2; overlap := 1; method := str "sentences" |}
              (str "Pay the rent...  Keep the peace!? Mind the roof"))
    as (l & Hl & Hall); [reflexivity | simpl; lia | simpl; lia |].
  exists l. split; [exact Hl|]. split.
  - vm_compute in Hl. injection Hl as <-. reflexivity.
  - intros c Hc. destruct (Hall c Hc) as (_ & H2 & H3). split; assumption.
Defined.

End SentenceRoundTrip.

(** ** Preprocessing keeps the words *)

Section WordsKept.
Import KeywordExtraction.

Lemma lower_keeps_ink c : isspace c = false -> isspace (lower_char c) = false.
Proof. by_cases_on_char c. Qed.

Lemma isspace_lower c : isspace (lower_char c) = isspace c.
Proof.
  destruct (isspace c) eqn:E; [now apply lower_space | now apply lower_keeps_ink].
Qed.

Lemma lower_char_idempotent c : lower_char (lower_char c) = lower_char c.
Proof. by_cases_on_char c. Qed.

Lemma lower_idempotent s : lower (lower s) = lower s.
Proof.
  unfold lower. rewrite map_map. apply map_ext. apply lower_char_idempotent.
Qed.

Lemma lower_app a b : lower (a ++ b) = lower a ++ lower b.
Proof. apply map_app. Qed.

Lemma split_go_lower y :
  Py.split_go (lower y)
  = (lower (fst (Py.split_go y)), map lower (snd (Py.split_go y))).
Proof.
  induction y as [|a t IH]; [reflexivity|].
  cbn [lower map Py.split_go]. fold (lower t). rewrite IH, isspace_lower.
  destruct (Py.split_go t) as [w ws]. cbn [fst snd].
  destruct (isspace a); [|reflexivity].
  destruct w; reflexivity.
Qed.

(** The words of the lowercased text are the lowercased words. *)
Lemma split_lower y : Py.split (lower y) = map lower (Py.split y).
Proof.
  unfold Py.split. rewrite split_go_lower.
  destruct (Py.split_go y) as [w ws]. cbn [fst snd]. destruct w; reflexivity.
Qed.

Lemma split_lstrip z : Py.split (lstrip z) = Py.split z.
Proof.
  induction z as [|a t IH]; [reflexivity|]. cbn [lstrip].
  destruct (isspace a) eqn:Ea; [|reflexivity].
  rewrite IH. unfold Py.split. cbn [Py.split_go].
  destruct (Py.split_go t) as [w ws]. rewrite Ea. reflexivity.
Qed.

Lemma lstrip_suffix_blank s : exists w, s = w ++ lstrip s /\ blank w.
Proof.
  induction s as [|a t (w & IH & Hw)]; [exists []; split; reflexivity|]. simpl.
  destruct (isspace a) eqn:Ea; [|exists []; split; reflexivity].
  exists (a :: w). split; [simpl; now rewrite <- IH|].
  unfold blank in *. simpl. now rewrite Ea, Hw.
Qed.

Lemma split_go_blank_tail y w : blank w -> Py.split_go (y ++ w) = Py.split_go y.
Proof.
  intro Hw. induction y as [|a t IH]; [now apply split_go_blank|].
  cbn [app Py.split_go]. now rewrite IH.
Qed.

Lemma split_rstrip z : Py.split (rstrip z) = Py.split z.
Proof.
  unfold rstrip. destruct (lstrip_suffix_blank (rev z)) as (w & E & Hw).
  assert (Ez : z = rev (lstrip (rev z)) ++ rev w).
  { rewrite <- rev_app_distr, <- E. now rewrite rev_involutive. }
  rewrite Ez at 2. unfold Py.split.
  rewrite split_go_blank_tail by (now apply blank_rev). reflexivity.
Qed.

(** Stripping a text keeps its words. *)
Lemma split_strip z : Py.split (strip z) = Py.split z.
Proof. unfold strip. now rewrite split_lstrip, split_rstrip. Qed.

(** Collapsing the runs of whitespace keeps the words. *)
Lemma split_go_collapse s :
  Py.split_go (Re.sub whitespace (str " ") s) = Py.split_go s.
Proof.
  unfold Re.sub, whitespace. rewrite pieces_class.
  induction s as [|a t IH]; [reflexivity|].
  cbn [class_pieces]. destruct (isspace a) eqn:Ea.
  - destruct (class_pieces isspace t) as [|[b|w g] ps] eqn:E.
    + cbn [flat_map app] in *. cbn [Py.split_go]. rewrite <- IH, Ea. reflexivity.
    + cbn [flat_map] in *.
      change (str " " ++ [b] ++ flat_map
                (fun p => match p with Lit a0 => [a0] | Hit _ _ => str " " end) ps)
        with (" "%char :: ([b] ++ flat_map
                (fun p => match p with Lit a0 => [a0] | Hit _ _ => str " " end) ps)).
      cbn [Py.split_go]. rewrite IH, Ea. reflexivity.
    + cbn [flat_map] in *. rewrite IH.
      revert IH.
      change (str " " ++ flat_map
                (fun p => match p with Lit a0 => [a0] | Hit _ _ => str " " end) ps)
        with (" "%char :: flat_map
                (fun p => match p with Lit a0 => [a0] | Hit _ _ => str " " end) ps).
      cbn [Py.split_go].
      destruct (Py.split_go (flat_map
                  (fun p => match p with Lit a0 => [a0] | Hit _ _ => str " " end) ps))
        as [w' ws'].
      change (isspace " ") with true. cbv iota. intros <-. rewrite Ea.
      destruct w'; reflexivity.
  - cbn [flat_map app Py.split_go]. rewrite IH, Ea. reflexivity.
Qed.

Lemma scan_hits_whole r s : forall k prev whole grp,
  In (Hit whole grp) (scan r k prev s) ->
  exists c m, In m (run r c) /\ snd m = grp /\
              whole = firstn (length (rest c) - length (rest (fst m))) (rest c).
Proof.
  induction s as [|a s IH]; intros k prev whole grp; cbn [scan]; [intros []|].
  destruct k as [|k]; [|apply IH].
  destruct (match_at r {| before := prev; rest := a :: s |}) as [[c1 g]|] eqn:E.
  - destruct (length (a :: s) - length (rest c1))%nat as [|j] eqn:Ej; cbn [In].
    + intros [H|H]; [discriminate | eapply IH; eassumption].
    + intros [H|H]; [|eapply IH; eassumption].
      injection H as <- <-.
      exists {| before := prev; rest := a :: s |}, (c1, g).
      split; [|split; [reflexivity|]].
      * unfold match_at in E. destruct (run r _) as [|m0 ms]; [discriminate|].
        injection E as ->. now left.
      * cbn [fst rest]. now rewrite Ej.
  - cbn [In]. intros [H|H]; [discriminate | eapply IH; eassumption].
Qed.

Lemma replace_lower f ps :
  (forall whole grp, In (Hit whole grp) ps -> lower (f whole grp) = lower whole) ->
  lower (flat_map (fun p => match p with Lit a => [a] | Hit whole grp => f whole grp end) ps)
  = lower (flat_map (fun p => match p with Lit a => [a] | Hit w _ => w end) ps).
Proof.
  induction ps as [|[a|w g] ps IH]; intro H; [reflexivity| |]; cbn [flat_map];
    rewrite !lower_app, IH by (intros; apply H; now right);
    [reflexivity | now rewrite (H w g) by now left].
Qed.

(** Lowering the boilerplate changes the case of letters only. *)
Lemma lower_boilerplate s :
  lower (sub_with boilerplate lower_group s) = lower s.
Proof.
  unfold sub_with. rewrite replace_lower.
  - unfold pieces. now rewrite scan_reconstruct.
  - intros whole grp H. apply scan_hits_whole in H as (c & m & Hm & <- & ->).
    destruct (boilerplate_group c m Hm) as (g & -> & _ & ->).
    apply lower_idempotent.
Qed.

(** X22.  Preprocessing for keyword extraction neither adds, drops nor
    reorders words: the words of the preprocessed text are the words of the
    text up to the case of letters.  Hence ['total_words'] in the result of
    [extract_all_keywords] is the number of words of the text as given. *)
Theorem preprocess_text_keeps_the_words self t :
  map lower (Py.split (preprocess_text t)) = map lower (Py.split t) /\
  total_words (statistics (extract_all_keywords self t)) = len (Py.split t).
Proof.
  assert (H : map lower (Py.split (preprocess_text t)) = map lower (Py.split t)).
  { unfold preprocess_text. rewrite split_strip, <- split_lower, lower_boilerplate.
    rewrite split_lower. unfold Py.split. now rewrite split_go_collapse. }
  split; [exact H|].
  cbn [extract_all_keywords statistics total_words].
  apply (f_equal (@length text)) in H. rewrite !length_map in H.
  unfold len. now rewrite H.
Qed.

End WordsKept.
